(** * br-jobboard: feed ingestion and normalization pipeline (src/app.js)

    A shallow embedding of the pipeline of [src/app.js] -- the helpers
    ([mkSlug], [truncateWords], [uniqNormTags], [sanitizeHtml],
    [stripDocumentTags], [escapeHtml], [matchesProfession], [extractTags],
    [getCountryFromHost], [inferJobLocations]), the content rewriter
    [rewriteJobRich], the prepared statements over the SQLite tables and
    [processFeed] -- followed by the properties of section 8 of the
    specification, and of [canonical], [parseMeta] and the cursor paging of
    the home listing, with further properties of the code.

    Representation.
    - A JavaScript string is a Rocq [string].  ASCII text is represented code
      unit for code unit; text outside ASCII is carried as its UTF-8 bytes,
      which the character classes below ([\s], [\w], case mapping) leave
      alone and which lengths and slices count one by one.
    - Regular expressions are terms of [Regex.regex], run by a backtracking
      matcher with the priorities of the ECMAScript one (leftmost match,
      greedy and lazy quantifiers, negative lookahead, [\b], one capture
      group).
    - Exceptions are values of [result]: [Throw] is a raised exception,
      [try_catch] is a [try { } catch { }] block.
    - The libraries the program imports (slugify, html-to-text, the URL and
      Date parsers, JSON.parse, the OpenAI client, sax) are the fields of the
      class [Env], together with the values read from [process.env].
    - The SQLite tables are lists of rows in insertion order; a prepared
      statement is a function on the database value. *)

From Stdlib Require Import List String Ascii Bool Arith ZArith Lia Sorted Permutation.
From Stdlib Require Import Numbers.DecimalString.
Import ListNotations.

Set Warnings "-register-all,-abstract-large-number".

Local Open Scope string_scope.
Local Open Scope nat_scope.
Local Open Scope list_scope.

(** String concatenation: JavaScript's [+] on strings and template literals. *)
Infix "+:+" := String.append (at level 60, right associativity).

(* ====================================================================== *)
(** ** JavaScript values and string primitives *)
(* ====================================================================== *)

Module JS.

(** Outcome of an expression that may raise. *)
Inductive result (A : Type) : Type :=
| Ok (a : A)
| Throw (msg : string).
Arguments Ok {A} a.
Arguments Throw {A} msg.

Definition bind {A B} (r : result A) (f : A -> result B) : result B :=
  match r with
  | Ok a => f a
  | Throw m => Throw m
  end.

(** [try { body } catch (e) { handler e }] *)
Definition try_catch {A} (body : result A) (handler : string -> result A) : result A :=
  match body with
  | Ok a => Ok a
  | Throw m => handler m
  end.

Definition chars (s : string) : list ascii := list_ascii_of_string s.
Definition str (l : list ascii) : string := string_of_list_ascii l.

(** Truthiness of a string: [''] is the only falsy one. *)
Definition truthy (s : string) : bool :=
  match s with
  | EmptyString => false
  | String _ _ => true
  end.

(** [a || b] on strings. *)
Definition or_else (a b : string) : string := if truthy a then a else b.

Definition code (c : ascii) : nat := nat_of_ascii c.

(** The double quote character. *)
Definition dquote : ascii := ascii_of_nat 34.

(** White space and line terminators among the code units below 128. *)
Definition is_space (c : ascii) : bool :=
  let n := code c in
  ((9 <=? n) && (n <=? 13)) || (n =? 32).

Definition is_upper (c : ascii) : bool :=
  let n := code c in (65 <=? n) && (n <=? 90).

Definition is_lower (c : ascii) : bool :=
  let n := code c in (97 <=? n) && (n <=? 122).

Definition is_digit (c : ascii) : bool :=
  let n := code c in (48 <=? n) && (n <=? 57).

(** [\w] *)
Definition is_word (c : ascii) : bool :=
  is_upper c || is_lower c || is_digit c || (code c =? 95).

Definition lower_char (c : ascii) : ascii :=
  if is_upper c then ascii_of_nat (code c + 32) else c.

Definition upper_char (c : ascii) : ascii :=
  if is_lower c then ascii_of_nat (code c - 32) else c.

Fixpoint toLowerCase (s : string) : string :=
  match s with
  | EmptyString => EmptyString
  | String c s' => String (lower_char c) (toLowerCase s')
  end.

Fixpoint toUpperCase (s : string) : string :=
  match s with
  | EmptyString => EmptyString
  | String c s' => String (upper_char c) (toUpperCase s')
  end.

Fixpoint trimStart (s : string) : string :=
  match s with
  | EmptyString => EmptyString
  | String c s' => if is_space c then trimStart s' else s
  end.

Fixpoint trimEnd (s : string) : string :=
  match s with
  | EmptyString => EmptyString
  | String c s' =>
      match trimEnd s' with
      | EmptyString => if is_space c then EmptyString else String c EmptyString
      | r => String c r
      end
  end.

(** [s.trim()] *)
Definition trim (s : string) : string := trimEnd (trimStart s).

(** [s.slice(0, n)] *)
Definition slice0 (n : nat) (s : string) : string := substring 0 n s.

(** [s.slice(1)] *)
Definition slice1 (s : string) : string :=
  match s with
  | EmptyString => EmptyString
  | String _ s' => s'
  end.

(** [s.startsWith(p)] *)
Fixpoint startsWith (p s : string) : bool :=
  match p, s with
  | EmptyString, _ => true
  | String a p', String b s' => Ascii.eqb a b && startsWith p' s'
  | String _ _, EmptyString => false
  end.

(** [s.includes(p)] *)
Fixpoint includes (s p : string) : bool :=
  startsWith p s ||
  match s with
  | EmptyString => false
  | String _ s' => includes s' p
  end.

Fixpoint drop (n : nat) (s : string) : string :=
  match n, s with
  | O, _ => s
  | S n', String _ s' => drop n' s'
  | S _, EmptyString => EmptyString
  end.

(** [s.split(sep)] for a non-empty separator: [cur] holds the characters of
    the piece being read, in reverse; [skip] counts the characters of a
    separator still to be passed over. *)
Fixpoint split_go (sep : string) (s : string) (cur : list ascii) (skip : nat)
  : list string :=
  match s with
  | EmptyString => [str (rev cur)]
  | String c s' =>
      match skip with
      | S k => split_go sep s' cur k
      | O =>
          if startsWith sep s
          then str (rev cur) :: split_go sep s' [] (String.length sep - 1)
          else split_go sep s' (c :: cur) 0
      end
  end.

Definition split (sep s : string) : list string := split_go sep s [] 0.

(** [l.join(sep)] *)
Fixpoint join (sep : string) (l : list string) : string :=
  match l with
  | [] => ""
  | [x] => x
  | x :: rest => x +:+ sep +:+ join sep rest
  end.

(** [String(n)] for a non-negative integer. *)
Definition nat_to_string (n : nat) : string :=
  NilZero.string_of_uint (Nat.to_uint n).

(** *** Property lookup on an object literal

    [obj[key]] on an object written as a literal first looks at the
    literal's own entries and then at [Object.prototype], whose members are
    functions (or, for [__proto__], the prototype object itself): all of
    them truthy, none of them a string or an array. *)

Definition Object_prototype_keys : list string :=
  [ "constructor"; "__defineGetter__"; "__defineSetter__"; "hasOwnProperty";
    "__lookupGetter__"; "__lookupSetter__"; "isPrototypeOf";
    "propertyIsEnumerable"; "toString"; "valueOf"; "__proto__";
    "toLocaleString" ].

Inductive lookup (A : Type) : Type :=
| Own (a : A)            (* an entry of the literal *)
| Inherited (key : string) (* a member of Object.prototype *)
| Absent.                (* undefined *)
Arguments Own {A} a.
Arguments Inherited {A} key.
Arguments Absent {A}.

Fixpoint assoc {A} (key : string) (l : list (string * A)) : option A :=
  match l with
  | [] => None
  | (k, v) :: rest => if String.eqb k key then Some v else assoc key rest
  end.

Definition mem (key : string) (l : list string) : bool :=
  existsb (String.eqb key) l.

Definition get {A} (obj : list (string * A)) (key : string) : lookup A :=
  match assoc key obj with
  | Some v => Own v
  | None => if mem key Object_prototype_keys then Inherited key else Absent
  end.

(** *** Values produced by [JSON.parse]

    A number is kept as what the program can observe of it: whether it is
    zero (falsy) and its rendering by [String]. *)
Inductive json : Type :=
| JNull
| JBool (b : bool)
| JNumber (is_zero : bool) (shown : string)
| JString (s : string)
| JArray (items : list json)
| JObject (fields : list (string * json)).

(** [!!v] *)
Definition json_truthy (v : json) : bool :=
  match v with
  | JNull => false
  | JBool b => b
  | JNumber z _ => negb z
  | JString s => truthy s
  | JArray _ => true
  | JObject _ => true
  end.

Definition has_field (k : string) (fields : list (string * json)) : bool :=
  existsb (fun kv => String.eqb (fst kv) k) fields.

(** [String(v)].  An array is joined with [","], [null] items giving the
    empty string.  A plain object gives ["[object Object]"], unless it has
    an own field [toString]: a parsed field is never callable, and
    [Object.prototype.valueOf] does not give a primitive, so the conversion
    raises a TypeError. *)
Fixpoint to_String (v : json) : result string :=
  match v with
  | JNull => Ok "null"
  | JBool true => Ok "true"
  | JBool false => Ok "false"
  | JNumber _ shown => Ok shown
  | JString s => Ok s
  | JArray items =>
      (fix items_to_String (l : list json) : result string :=
         match l with
         | [] => Ok ""
         | x :: rest =>
             bind (match x with JNull => Ok "" | _ => to_String x end) (fun sx =>
             match rest with
             | [] => Ok sx
             | _ => bind (items_to_String rest) (fun sr => Ok (sx +:+ "," +:+ sr))
             end)
         end) items
  | JObject fields =>
      if has_field "toString" fields
      then Throw "TypeError: Cannot convert object to primitive value"
      else Ok "[object Object]"
  end.

End JS.

(* ====================================================================== *)
(** ** Regular expressions *)
(* ====================================================================== *)

Module Regex.
Import JS.

Inductive regex : Type :=
| Eps                               (* the empty pattern *)
| Chr (p : ascii -> bool)           (* one character of a class *)
| Cat (r1 r2 : regex)               (* r1r2 *)
| Alt (r1 r2 : regex)               (* r1|r2 *)
| Star (greedy : bool) (r : regex)  (* r* and r*? *)
| NotAhead (r : regex)              (* (?!r) *)
| WordB                             (* \b *)
| EndOfInput                        (* $ *)
| Group (r : regex).                (* (r), the capture group 1 *)

(** A position in the subject: the character before it and what is left. *)
Record pos : Type := mkPos { before : option ascii; rest : list ascii }.

Definition start_of (l : list ascii) : pos := mkPos None l.

Definition advance (p : pos) : option (ascii * pos) :=
  match rest p with
  | [] => None
  | c :: l => Some (c, mkPos (Some c) l)
  end.

Definition word_before (p : pos) : bool :=
  match before p with
  | Some c => is_word c
  | None => false
  end.

Definition word_after (p : pos) : bool :=
  match rest p with
  | c :: _ => is_word c
  | [] => false
  end.

(** What a successful match reports: where it ends and the text of group 1. *)
Definition outcome : Type := (pos * option (list ascii))%type.

(** The iterations of a star whose body is matched by [body]: as many as
    possible first when greedy, as few as possible first when lazy.  An
    iteration that consumes nothing is rejected; [fuel] bounds the number of
    iterations by the length of what is left. *)
Fixpoint iterate
    (body : pos -> option (list ascii) ->
            (pos -> option (list ascii) -> option outcome) -> option outcome)
    (greedy : bool) (k : pos -> option (list ascii) -> option outcome)
    (fuel : nat) (p : pos) (cap : option (list ascii)) : option outcome :=
  match fuel with
  | O => k p cap
  | S fuel' =>
      let again p' cap' :=
        if List.length (rest p') <? List.length (rest p)
        then iterate body greedy k fuel' p' cap' else None in
      if greedy then
        match body p cap again with
        | Some o => Some o
        | None => k p cap
        end
      else
        match k p cap with
        | Some o => Some o
        | None => body p cap again
        end
  end.

(** Backtracking matcher in continuation-passing style.  [k] is tried on
    every way [r] can match at [p], in priority order; the first success
    wins. *)
Fixpoint run (r : regex) (p : pos) (cap : option (list ascii))
    (k : pos -> option (list ascii) -> option outcome) {struct r} : option outcome :=
  match r with
  | Eps => k p cap
  | Chr f =>
      match advance p with
      | Some (c, p') => if f c then k p' cap else None
      | None => None
      end
  | Cat r1 r2 => run r1 p cap (fun p' cap' => run r2 p' cap' k)
  | Alt r1 r2 =>
      match run r1 p cap k with
      | Some o => Some o
      | None => run r2 p cap k
      end
  | Star greedy r1 => iterate (run r1) greedy k (List.length (rest p)) p cap
  | NotAhead r1 =>
      match run r1 p cap (fun p' cap' => Some (p', cap')) with
      | Some _ => None
      | None => k p cap
      end
  | WordB => if xorb (word_before p) (word_after p) then k p cap else None
  | EndOfInput =>
      match rest p with
      | [] => k p cap
      | _ :: _ => None
      end
  | Group r1 =>
      run r1 p cap (fun p' _ =>
        k p' (Some (firstn (List.length (rest p) - List.length (rest p')) (rest p))))
  end.

(** A match of [r] starting exactly at [p]. *)
Definition match_at (r : regex) (p : pos) : option outcome :=
  run r p None (fun p' cap' => Some (p', cap')).

(** Result of [s.match(r)] without the [g] flag: the matched text [m[0]]
    and the capture [m[1]]. *)
Record found : Type := mkFound { whole : string; group1 : option string }.

(** Leftmost match at or after [p]. *)
Fixpoint search (r : regex) (fuel : nat) (p : pos) : option found :=
  match match_at r p with
  | Some (p', cap) =>
      Some (mkFound
              (str (firstn (List.length (rest p) - List.length (rest p')) (rest p)))
              (option_map str cap))
  | None =>
      match fuel, advance p with
      | S fuel', Some (_, p') => search r fuel' p'
      | _, _ => None
      end
  end.

(** [s.match(r)] *)
Definition exec (r : regex) (s : string) : option found :=
  search r (String.length s) (start_of (chars s)).

(** [r.test(s)] *)
Definition test (r : regex) (s : string) : bool :=
  match exec r s with
  | Some _ => true
  | None => false
  end.

(** [s.replace(r, '')] with the [g] flag: every match, found left to right
    in what follows the previous one, is deleted.  The patterns of this
    program never match the empty string. *)
Fixpoint delete_all (r : regex) (fuel : nat) (p : pos) : list ascii :=
  match fuel with
  | O => rest p
  | S fuel' =>
      match match_at r p with
      | Some (p', _) =>
          if List.length (rest p') <? List.length (rest p)
          then delete_all r fuel' p'
          else match advance p with
               | Some (c, p1) => c :: delete_all r fuel' p1
               | None => []
               end
      | None =>
          match advance p with
          | Some (c, p1) => c :: delete_all r fuel' p1
          | None => []
          end
      end
  end.

Definition remove (r : regex) (s : string) : string :=
  str (delete_all r (String.length s) (start_of (chars s))).

(** [s.split(r)] for a pattern that never matches the empty string. *)
Fixpoint split_go (r : regex) (fuel : nat) (p : pos) (cur : list ascii) : list string :=
  match fuel with
  | O => [str (rev cur)]
  | S fuel' =>
      match rest p with
      | [] => [str (rev cur)]
      | c :: _ =>
          match match_at r p with
          | Some (p', _) =>
              if List.length (rest p') <? List.length (rest p)
              then str (rev cur) :: split_go r fuel' p' []
              else split_go r fuel' (mkPos (Some c) (tl (rest p))) (c :: cur)
          | None => split_go r fuel' (mkPos (Some c) (tl (rest p))) (c :: cur)
          end
      end
  end.

Definition split (r : regex) (s : string) : list string :=
  split_go r (S (String.length s)) (start_of (chars s)) [].

(** *** Pattern syntax *)

Definition any : regex := Chr (fun _ => true).               (* [\s\S] *)
Definition chr (c : ascii) : regex := Chr (Ascii.eqb c).
Definition chr_i (c : ascii) : regex :=                      (* with the i flag *)
  Chr (fun x => Ascii.eqb (lower_char x) (lower_char c)).
Definition none_of (l : list ascii) : regex :=               (* [^...] *)
  Chr (fun x => negb (existsb (Ascii.eqb x) l)).
Definition space : regex := Chr is_space.                    (* \s *)
Definition word : regex := Chr is_word.                      (* \w *)
Definition dot : regex :=                                    (* . *)
  Chr (fun x => negb ((code x =? 10) || (code x =? 13))).
Definition star (r : regex) : regex := Star true r.          (* r* *)
Definition star_lazy (r : regex) : regex := Star false r.    (* r*? *)
Definition plus (r : regex) : regex := Cat r (Star true r).  (* r+ *)
Definition opt (r : regex) : regex := Alt r Eps.             (* r? *)

Fixpoint seq (l : list regex) : regex :=
  match l with
  | [] => Eps
  | [r] => r
  | r :: l' => Cat r (seq l')
  end.

Fixpoint alt (l : list regex) : regex :=
  match l with
  | [] => NotAhead Eps
  | [r] => r
  | r :: l' => Alt r (alt l')
  end.

Definition lit_i (s : string) : regex := seq (map chr_i (chars s)).

End Regex.

Import JS.

(* ====================================================================== *)
(** ** Environment: configuration and imported libraries *)
(* ====================================================================== *)

(** Options passed to html-to-text's [convert]. *)
Record convert_options : Type := mkOptions
  { wordwrap : nat;        (* wordwrap *)
    ignoreHref : bool }.   (* selectors: [{ selector: 'a', options: { ignoreHref: true } }] *)

Class Env : Type := mkEnv
  { (** [process.env.SITE_URL], defaulted and without trailing slashes *)
    SITE_URL : string;
    (** [Number(process.env.MAX_JOBS || 1000)], an integer count *)
    MAX_JOBS : Z;
    (** [!!process.env.OPENAI_API_KEY]; the client [openai] is non-null
        exactly when it holds *)
    HAS_OPENAI : bool;
    (** [process.env.TARGET_PROFESSION], [""] when unset *)
    env_TARGET_PROFESSION : string;
    (** [Number(process.env.AI_PROCESS_LIMIT || 0)], an integer count *)
    AI_PROCESS_LIMIT : Z;
    (** [process.env.PROFESSION_KEYWORDS], [""] when unset *)
    env_PROFESSION_KEYWORDS : string;
    (** [new URL(FEED_URL).hostname] *)
    FEED_HOST : string;

    (** [slugify(s, { lower: true, strict: true })] *)
    slugify : string -> string;
    (** html-to-text: [convert(html, options)] *)
    convert : convert_options -> string -> string;
    (** [new URL(u).hostname]; raises on a string that is not a URL *)
    URL_hostname : string -> result string;
    (** [new Date(d).getTime()]: milliseconds, [None] for NaN *)
    Date_getTime : string -> option Z;
    (** [JSON.parse(t)] on a text that starts with a bracket: the items of
        the array, or a SyntaxError *)
    JSON_parse : string -> result (list json);

    (** The profession label does not name a member of [Object.prototype]:
        for [constructor] or [__proto__] the lookup
        [PROFESSION_TAGS[profKey]] gives a value without [filter]. *)
    profession_not_inherited :
      mem (toLowerCase (or_else env_TARGET_PROFESSION "motorista"))
          Object_prototype_keys = false }.

Section Pipeline.
Context {E : Env}.

(** [const TARGET_PROFESSION = process.env.TARGET_PROFESSION || 'motorista'] *)
Definition TARGET_PROFESSION : string := or_else env_TARGET_PROFESSION "motorista".

Definition default_PROFESSION_KEYWORDS : string :=
  "motorista de caminhão, caminhoneiro, condutor de caminhão, motorista profissional, condutor profissional, motorista de longa distância, condutor de longa distância, motorista internacional, condutor internacional, motorista de estrada, condutor rodoviário, motorista de carreta, condutor de carreta, motorista de caminhão articulado, motorista CE, condutor CE, motorista categoria C, condutor categoria C, motorista de caminhão basculante, motorista de caminhão-tanque, motorista de caminhão frigorífico, motorista entregador, motorista de caminhão basculante, motorista de cegonha, motorista de transporte de cargas, condutor de caminhão guindaste, motorista de transporte especial, motorista entregador de cargas pesadas, condutor entregador, motorista de utilitário, motorista de veículo leve, condutor de veículo leve".

(** Keywords for profession matching (lowercase). *)
Definition PROFESSION_KEYWORDS : list string :=
  filter truthy
    (map trim
       (JS.split ","
          (toLowerCase (or_else env_PROFESSION_KEYWORDS default_PROFESSION_KEYWORDS)))).

(* ====================================================================== *)
(** ** Helpers *)
(* ====================================================================== *)

(** [const mkSlug = (s) => slugify(String(s || 'job'), ...).slice(0, 120)] *)
Definition mkSlug (s : string) : string :=
  slice0 120 (slugify (or_else s "job")).

(** [Math.floor(new Date(d).getTime() / 1000)]; [None] is NaN. *)
Definition unixtime (d : string) : option Z :=
  option_map (fun ms => (ms / 1000)%Z) (Date_getTime d).

Definition re_spaces : Regex.regex := Regex.plus Regex.space.        (* \s+ *)

Definition truncateWords (txt : string) (n : nat) : string :=
  let words := Regex.split re_spaces txt in
  if List.length words <=? n then txt
  else join " " (firstn n words) +:+ "…".

Fixpoint uniqNormTags_loop (tags : list json) (seen out : list string)
  : result (list string) :=
  match tags with
  | [] => Ok out
  | t :: tags' =>
      if negb (json_truthy t) then uniqNormTags_loop tags' seen out
      else
        bind (to_String t) (fun s =>
        let t := toLowerCase (trim s) in
        if negb (truthy t) then uniqNormTags_loop tags' seen out
        else if mem t seen then uniqNormTags_loop tags' seen out
        else uniqNormTags_loop tags' (t :: seen) (out ++ [t]))
  end.

Definition uniqNormTags (tags : list json) : result (list string) :=
  bind (uniqNormTags_loop tags [] []) (fun out => Ok (firstn 8 out)).

Definition tagSlug (t : string) : string := mkSlug t.

(** The six patterns of [sanitizeHtml], all with the flags [gi].  In the
    comments a pattern is shown with blanks between its parts and the double
    quote is written [\x22]. *)
Definition re_script : Regex.regex :=
  (* <script \b [^<]* (?: (?!<\/script>) < [^<]* )* <\/script> *)
  Regex.seq
    [ Regex.lit_i "<script"; Regex.WordB; Regex.star (Regex.none_of ["<"%char]);
      Regex.star (Regex.seq [ Regex.NotAhead (Regex.lit_i "</script>");
                              Regex.chr "<"; Regex.star (Regex.none_of ["<"%char]) ]);
      Regex.lit_i "</script>" ].

Definition re_embedding_tag : Regex.regex :=
  (* < \/? (?:iframe|object|embed|link|style|noscript) \b [^>]* > *)
  Regex.seq
    [ Regex.chr "<"; Regex.opt (Regex.chr "/");
      Regex.alt (map Regex.lit_i ["iframe"; "object"; "embed"; "link"; "style"; "noscript"]);
      Regex.WordB; Regex.star (Regex.none_of [">"%char]); Regex.chr ">" ].

Definition quote : Regex.regex :=                                   (* [\x22'] *)
  Regex.Chr (fun c => Ascii.eqb c dquote || Ascii.eqb c "'").
Definition not_quote : Regex.regex :=                               (* [^\x22'] *)
  Regex.none_of [dquote; "'"%char].
Definition not_space_gt : Regex.regex :=                            (* [^\s>] *)
  Regex.Chr (fun c => negb (is_space c || Ascii.eqb c ">")).

Definition re_on_quoted : Regex.regex :=
  (* \s on \w+ \s* = \s* [\x22'] [^\x22']* [\x22'] *)
  Regex.seq
    [ Regex.space; Regex.lit_i "on"; Regex.plus Regex.word; Regex.star Regex.space;
      Regex.chr "="; Regex.star Regex.space; quote; Regex.star not_quote; quote ].

Definition re_on_bare : Regex.regex :=
  (* \s on \w+ \s* = \s* [^\s>]+ *)
  Regex.seq
    [ Regex.space; Regex.lit_i "on"; Regex.plus Regex.word; Regex.star Regex.space;
      Regex.chr "="; Regex.star Regex.space; Regex.plus not_space_gt ].

Definition re_js_uri_quoted : Regex.regex :=
  (* \s (href|src) \s* = \s* [\x22'] \s* javascript: [^\x22']* [\x22'] *)
  Regex.seq
    [ Regex.space; Regex.Alt (Regex.lit_i "href") (Regex.lit_i "src");
      Regex.star Regex.space; Regex.chr "="; Regex.star Regex.space; quote;
      Regex.star Regex.space; Regex.lit_i "javascript:"; Regex.star not_quote; quote ].

Definition re_js_uri_bare : Regex.regex :=
  (* \s (href|src) \s* = \s* javascript: [^\s>]+ *)
  Regex.seq
    [ Regex.space; Regex.Alt (Regex.lit_i "href") (Regex.lit_i "src");
      Regex.star Regex.space; Regex.chr "="; Regex.star Regex.space;
      Regex.lit_i "javascript:"; Regex.plus not_space_gt ].

(** Security: Sanitize HTML to prevent XSS (lightweight) *)
Definition sanitizeHtml (html : string) : string :=
  if negb (truthy html) then ""
  else
    Regex.remove re_js_uri_bare
      (Regex.remove re_js_uri_quoted
         (Regex.remove re_on_bare
            (Regex.remove re_on_quoted
               (Regex.remove re_embedding_tag
                  (Regex.remove re_script html))))).

(** [< \/? name [^>]* >] *)
Definition re_tag (name : string) : Regex.regex :=
  Regex.seq [ Regex.chr "<"; Regex.opt (Regex.chr "/"); Regex.lit_i name;
              Regex.star (Regex.none_of [">"%char]); Regex.chr ">" ].

Definition re_doctype : Regex.regex :=                     (* <!DOCTYPE [^>]* > *)
  Regex.seq [ Regex.lit_i "<!DOCTYPE"; Regex.star (Regex.none_of [">"%char]); Regex.chr ">" ].

Definition re_meta : Regex.regex :=                        (* <meta [^>]* > *)
  Regex.seq [ Regex.lit_i "<meta"; Regex.star (Regex.none_of [">"%char]); Regex.chr ">" ].

Definition re_title : Regex.regex :=                       (* <title [^>]* > .*? <\/title> *)
  Regex.seq [ Regex.lit_i "<title"; Regex.star (Regex.none_of [">"%char]); Regex.chr ">";
              Regex.star_lazy Regex.dot; Regex.lit_i "</title>" ].

(** Strip full HTML document tags (DOCTYPE, html, head, body) *)
Definition stripDocumentTags (html : string) : string :=
  if negb (truthy html) then ""
  else
    trim
      (Regex.remove re_title
         (Regex.remove re_meta
            (Regex.remove (re_tag "body")
               (Regex.remove (re_tag "head")
                  (Regex.remove (re_tag "html")
                     (Regex.remove re_doctype html)))))).

Definition escape_char (c : ascii) : string :=
  if Ascii.eqb c "&" then "&amp;"
  else if Ascii.eqb c "<" then "&lt;"
  else if Ascii.eqb c ">" then "&gt;"
  else if Ascii.eqb c dquote then "&quot;"
  else if Ascii.eqb c "'" then "&#39;"
  else String c "".

(** HTML escaping for text content *)
Fixpoint escapeHtml (s : string) : string :=
  match s with
  | EmptyString => ""
  | String c s' => escape_char c +:+ escapeHtml s'
  end.

(** Check if job matches target profession *)
Definition matchesProfession (title company description : string) : bool :=
  let text := toLowerCase (title +:+ " " +:+ company +:+ " " +:+ description) in
  existsb (fun keyword => includes text keyword) PROFESSION_KEYWORDS.

Definition PROFESSION_TAGS : list (string * list string) :=
  [ ("warehouse",
      [ "armazém"; "trabalhador de armazém"; "associado de armazém"; "operador de armazém";
        "trabalhador geral"; "repositor"; "separador"; "embalador"; "separador de pedidos";
        "carregador"; "descarregador"; "trabalhador de doca"; "operador de empilhadeira";
        "operador de empilhadeira elétrica"; "manuseador de materiais"; "assistente de expedição";
        "assistente de recebimento"; "especialista em controle de inventário";
        "supervisor de armazém"; "gerente de armazém"; "associado de logística";
        "associado de distribuição"; "associado da cadeia de suprimentos";
        "estoquista"; "almoxarife"; "auxiliar de armazém"; "operador de paleteira";
        "operador de empilhadeira retrátil"; "contador cíclico"; "inspector de recebimento" ]);
    ("truck driver",
      [ "categoria e"; "categoria a"; "cnh"; "longa distância"; "regional"; "local";
        "caminhão-tanque"; "carroceria plana"; "otr"; "cargas perigosas (hazmat)" ]);
    ("software engineer",
      [ "javascript"; "python"; "java"; "react"; "node"; "backend"; "frontend";
        "full stack"; "devops" ]);
    ("nurse",
      [ "enfermeiro(a)"; "técnico(a) de enfermagem"; "uti"; "emergência"; "pediatria";
        "cirúrgico"; "cuidados intensivos"; "oncologia" ]);
    ("electrician",
      [ "comercial"; "residencial"; "industrial"; "aprendiz"; "eletricista qualificado";
        "mestre eletricista" ]);
    ("mechanic",
      [ "automotivo"; "diesel"; "equipamentos pesados"; "marítimo"; "aeronaves";
        "certificação ase" ]);
    ("welder",
      [ "mig"; "tig"; "eletrodo revestido"; "flux core"; "soldagem de tubos"; "estrutural";
        "aço inoxidável" ]);
    ("warehouse+",
      [ "empilhadeira"; "empilhadeira retrátil"; "separador"; "embalador"; "expedição";
        "recebimento"; "inventário" ]) ].

(** [PROFESSION_TAGS[profKey] || PROFESSION_TAGS[' Warehouse'] || []], then
    [.filter]: an array is truthy even when empty; an inherited member is
    truthy and has no [filter]. *)
Definition profTags (profKey : string) : result (list string) :=
  match get PROFESSION_TAGS profKey with
  | Own tags => Ok tags
  | Inherited _ => Throw "TypeError: profTags.filter is not a function"
  | Absent =>
      match get PROFESSION_TAGS " Warehouse" with
      | Own tags => Ok tags
      | Inherited _ => Throw "TypeError: profTags.filter is not a function"
      | Absent => Ok []
      end
  end.

Definition re_remote : Regex.regex :=
  Regex.alt (map Regex.lit_i ["remote"; "homeoffice"; "home office"; "work from home"; "telecommute"]).
Definition re_full_time : Regex.regex :=
  Regex.alt (map Regex.lit_i ["vollzeit"; "full time"; "full-time"]).
Definition re_part_time : Regex.regex :=
  Regex.alt (map Regex.lit_i ["teilzeit"; "part time"; "part-time"]).
Definition re_permanent : Regex.regex :=
  Regex.alt (map Regex.lit_i ["festanstellung"; "unbefristet"; "permanent"]).
Definition re_contract : Regex.regex :=
  Regex.alt (map Regex.lit_i ["befristet"; "temporary"; "zeitarbeit"; "contract"]).

(** The tags pushed after the vocabulary hits, in the order of the source. *)
Definition signal_tags (text : string) : list string :=
  (if Regex.test re_remote text then ["remote"] else []) ++
  (if Regex.test re_full_time text then ["full-time"] else []) ++
  (if Regex.test re_part_time text then ["part-time"] else []) ++
  (if Regex.test re_permanent text then ["permanent"] else []) ++
  (if Regex.test re_contract text then ["contract"] else []).

(** The argument object [{ title, company, html }]. *)
Record job_text : Type := mkJobText
  { jt_title : string; jt_company : string; jt_html : string }.

(** The text [extractTags] searches. *)
Definition tag_text (j : job_text) : string :=
  toLowerCase
    (jt_title j +:+ " " +:+ jt_company j +:+ " " +:+
     slice0 1000 (convert (mkOptions 120 false) (jt_html j))).

(** The array [found] when [uniqNormTags] is called. *)
Definition found_tags (vocabulary : list string) (j : job_text) : list string :=
  let text := tag_text j in
  filter (fun tag => includes text tag) vocabulary
  ++ signal_tags text
  ++ [toLowerCase TARGET_PROFESSION].

Definition extractTags (j : job_text) : result (list string) :=
  let profKey := toLowerCase TARGET_PROFESSION in
  bind (profTags profKey) (fun vocabulary =>
  uniqNormTags (map JString (found_tags vocabulary j))).

(** The value of [map[tld] || 'US']: a string, or a member inherited from
    [Object.prototype]. *)
Inductive country : Type :=
| Code (s : string)
| PrototypeMember (key : string).

Definition tld_map : list (string * string) :=
  [ ("de", "DE"); ("at", "AT"); ("br", "BR"); ("ch", "CH"); ("li", "LI");
    ("uk", "GB"); ("gb", "GB"); ("ie", "IE");
    ("us", "US"); ("ca", "CA"); ("au", "AU"); ("nz", "NZ");
    ("nl", "NL"); ("be", "BE"); ("fr", "FR"); ("es", "ES"); ("pt", "PT"); ("it", "IT");
    ("pl", "PL"); ("cz", "CZ"); ("sk", "SK"); ("hu", "HU"); ("ro", "RO"); ("bg", "BG");
    ("ua", "UA"); ("rs", "RS"); ("hr", "HR"); ("si", "SI");
    ("dk", "DK"); ("se", "SE"); ("no", "NO"); ("fi", "FI"); ("is", "IS");
    ("ee", "EE"); ("lv", "LV"); ("lt", "LT") ].

(** Infer ISO country from SITE_URL host TLD (fallback to 'US' if unknown) *)
Definition getCountryFromHost (siteUrl : string) : country :=
  match URL_hostname siteUrl with
  | Ok hostname =>
      let host := toLowerCase hostname in
      let tld := last (JS.split "." host) "" in            (* host.split('.').pop() *)
      match get tld_map tld with                           (* map[tld] || 'US' *)
      | Own c => if truthy c then Code c else Code "US"
      | Inherited key => PrototypeMember key
      | Absent => Code "US"
      end
  | Throw _ => Code "US"                                   (* catch { return 'US' } *)
  end.

(** The [address] and [Place] objects, without their constant ["@type"]. *)
Record PostalAddress : Type := mkAddress
  { addressLocality : option string;     (* absent when no city was found *)
    addressCountry : country }.

Record Place : Type := mkPlace { address : PostalAddress }.

Definition citiesBR : list string :=
  [ "são paulo"; "sao paulo"; "sp";
    "rio de janeiro"; "rj";
    "brasilia"; "df";
    "salvador"; "ssa";
    "fortaleza"; "ce";
    "belo horizonte"; "bh"; "mg";
    "manaus"; "am";
    "curitiba"; "pr";
    "recife"; "pe";
    "porto alegre"; "rs";
    "goiânia"; "goiania"; "go";
    "belém"; "belem"; "pa";
    "são luís"; "sao luis"; "ma";
    "maceió"; "maceio"; "al";
    "natal"; "rn";
    "terezina"; "teresina"; "pi";
    "joão pessoa"; "joao pessoa"; "pb";
    "campo grande"; "ms";
    "cuiabá"; "cuiaba"; "mt";
    "florianópolis"; "florianopolis"; "sc";
    "aracaju"; "se";
    "palmas"; "to" ].

(** [city[0].toUpperCase() + city.slice(1)] *)
Definition capitalize (city : string) : string :=
  toUpperCase (slice0 1 city) +:+ slice1 city.

(** Always return a valid JobPosting.jobLocation array. *)
Definition inferJobLocations (html title siteUrl : string) : list Place :=
  let country := getCountryFromHost siteUrl in
  let text := toLowerCase (convert (mkOptions 1000 false) html +:+ " " +:+ title) in
  let city := find (fun c => includes text c) citiesBR in
  let address :=
    match city with
    | Some c => mkAddress (Some (capitalize c)) country
    | None => mkAddress None country
    end in
  [ mkPlace address ].

(* ====================================================================== *)
(** ** ContentRewriter *)
(* ====================================================================== *)

(** The value [{ short, html, tags, usedAI }]. *)
Record rewritten : Type := mkRewritten
  { short : string; html : string; tags : list string; usedAI : bool }.

Definition nl : string := String (ascii_of_nat 10) "".
Definition re_newlines : Regex.regex := Regex.plus (Regex.chr (ascii_of_nat 10)).  (* \n+ *)

(** The template literal of [fallbackHTML], before and after
    [${paragraphs || '<p>Detalhes fornecidos pelo empregador.</p>'}]. *)
Definition fallback_head : string :=
  nl +:+ "<section><h2>Sobre a Vaga</h2>".
Definition fallback_tail : string :=
  "</section>

<section><h2>Responsabilidades</h2>
  <ul>
    <li>Executar as atividades principais conforme descrito.</li>
  </ul>
</section>

<section><h2>Requisitos</h2>
  <ul>
    <li>Experiência relevante ou disposição para aprender.</li>
  </ul>
</section>

<section><h2>Benefícios</h2>
  <ul>
    <li>Benefícios conforme descrição da vaga.</li>
  </ul>
</section>

<section><h2>Remuneração</h2>
  <p>A ser discutida.</p>
</section>

<section><h2>Local e Horário</h2>
  <p>Conforme descrição da vaga.</p>
</section>

<section><h2>Como se Candidatar</h2>
  <p>Use o botão “Candidatar-se”.</p>
</section>

" +:+ nl.

Definition fallbackHTML (plain : string) : string :=
  let paragraphs :=
    join nl
      (map (fun p => "<p>" +:+ escapeHtml p +:+ "</p>")
         (firstn 6 (filter truthy (Regex.split re_newlines plain)))) in
  trim (fallback_head +:+
        or_else paragraphs "<p>Detalhes fornecidos pelo empregador.</p>" +:+
        fallback_tail).

(** [convert(html || '', { wordwrap: 120, selectors: ... }).slice(0, 9000)] *)
Definition plain_of (j : job_text) : string :=
  slice0 9000 (convert (mkOptions 120 true) (jt_html j)).

(** The closure [fallback] of [rewriteJobRich]. *)
Definition fallback (j : job_text) : result rewritten :=
  let plain := plain_of j in
  bind (extractTags j) (fun tags =>
  Ok (mkRewritten (truncateWords plain 45) (sanitizeHtml (fallbackHTML plain)) tags false)).

Definition re_description : Regex.regex :=
  (* ===DESCRIPTION=== \s* ([\s\S]*?) \s* ===HTML===, flag i *)
  Regex.seq [ Regex.lit_i "===DESCRIPTION==="; Regex.star Regex.space;
              Regex.Group (Regex.star_lazy Regex.any); Regex.star Regex.space;
              Regex.lit_i "===HTML===" ].

Definition re_html : Regex.regex :=
  (* ===HTML=== \s* ([\s\S]*?) \s* ===TAGS===, flag i *)
  Regex.seq [ Regex.lit_i "===HTML==="; Regex.star Regex.space;
              Regex.Group (Regex.star_lazy Regex.any); Regex.star Regex.space;
              Regex.lit_i "===TAGS===" ].

Definition re_tags : Regex.regex :=
  (* ===TAGS=== \s* ([\s\S]* ) $, flag i *)
  Regex.seq [ Regex.lit_i "===TAGS==="; Regex.star Regex.space;
              Regex.Group (Regex.star Regex.any); Regex.EndOfInput ].

Definition re_array : Regex.regex :=
  (* \[ [\s\S]* \] *)
  Regex.seq [ Regex.chr "["; Regex.star Regex.any; Regex.chr "]" ].

(** [m?.[1] || ''] *)
Definition group1_or_empty (m : option Regex.found) : string :=
  match m with
  | Some f => match Regex.group1 f with Some s => s | None => "" end
  | None => ""
  end.

Definition single_section (short : string) : string :=
  "<section><h2>Sobre a Vaga</h2><p>" +:+ escapeHtml short +:+ "</p></section>".

(** The body of the [try] block, from the model's text [out] on. *)
Definition parse_reply (j : job_text) (out : string) : result rewritten :=
  let descMatch := Regex.exec re_description out in
  let htmlMatch := Regex.exec re_html out in
  let tagsMatch := Regex.exec re_tags out in
  let short := trim (group1_or_empty descMatch) in
  let short := if negb (truthy short)
               then slice0 300 (convert (mkOptions 120 false) out) else short in
  let short := slice0 600 (trim (convert (mkOptions 120 false) short)) in
  let htmlOut := trim (group1_or_empty htmlMatch) in
  let htmlOut := if negb (truthy htmlOut) then single_section short else htmlOut in
  let htmlOut := stripDocumentTags htmlOut in
  let htmlOut := if String.length htmlOut <? 50 then single_section short else htmlOut in
  let tagsParsed : option (list json) :=
    match Regex.exec re_array (group1_or_empty tagsMatch) with
    | Some m =>
        match JSON_parse (Regex.whole m) with
        | Ok items => Some items
        | Throw _ => None                       (* catch { /* noop */ } *)
        end
    | None => None
    end in
  bind (match tagsParsed with
        | Some items => uniqNormTags items
        | None => bind (extractTags j) (fun t => uniqNormTags (map JString t))
        end) (fun tags =>
  Ok (mkRewritten short (sanitizeHtml htmlOut) tags true)).

(** [reply] is the outcome of awaiting [openai.chat.completions.create]:
    [Throw] when the call fails, otherwise the text
    [resp.choices?.[0]?.message?.content || ''].  The guard is
    [!HAS_OPENAI || !useAI || !openai], and [openai] is null exactly when
    [HAS_OPENAI] is false. *)
Definition rewriteJobRich (reply : result string) (j : job_text) (useAI : bool)
  : result rewritten :=
  if negb HAS_OPENAI || negb useAI || negb HAS_OPENAI then fallback j
  else try_catch (bind reply (parse_reply j)) (fun _ => fallback j).

End Pipeline.

(* ====================================================================== *)
(** ** Persisted schema and prepared statements *)
(* ====================================================================== *)

(** The parameter object bound by [stmtInsertJob]: the columns of [jobs]
    that the pipeline writes. *)
Module Job.
Record t : Type := mk
  { guid : string;
    source : string;
    title : string;
    company : string;
    description_html : string;
    description_short : string;
    url : string;
    published_at : option Z;       (* unix seconds; [None] is NULL (from NaN) *)
    slug : string;
    tags_csv : string }.
End Job.

(** A row of [jobs]: the AUTOINCREMENT [id] and the written columns.  The
    column [created_at] is not represented; the pipeline never reads it. *)
Record job_row : Type := mkRow { id : Z; cols : Job.t }.

(** A row of [tags]. *)
Record tag_row : Type := mkTag { tag_id : Z; name : string; tag_slug : string }.

(** The database: the three tables in insertion order and, for the two
    AUTOINCREMENT keys, the largest key handed out so far. *)
Record DB : Type := mkDB
  { jobs : list job_row;
    jobs_seq : Z;
    tags_table : list tag_row;
    tags_seq : Z;
    job_tags : list (Z * Z) }.   (* (job_id, tag_id) *)

Definition empty_db : DB := mkDB [] 0 [] 0 [].

Definition has_guid (g : string) (rows : list job_row) : bool :=
  existsb (fun r => String.eqb (Job.guid (cols r)) g) rows.

Definition has_slug (s : string) (rows : list job_row) : bool :=
  existsb (fun r => String.eqb (Job.slug (cols r)) s) rows.

Definition max_id (rows : list job_row) : Z :=
  fold_right (fun r m => Z.max (id r) m) 0%Z rows.

(** [INSERT OR IGNORE INTO jobs (...) VALUES (...)]: a row whose [guid] or
    [slug] is already stored violates a UNIQUE constraint and is dropped;
    otherwise the row gets a key larger than every key used before. *)
Definition stmtInsertJob (job : Job.t) (db : DB) : DB :=
  if has_guid (Job.guid job) (jobs db) || has_slug (Job.slug job) (jobs db) then db
  else
    let new_id := (Z.max (jobs_seq db) (max_id (jobs db)) + 1)%Z in
    mkDB (jobs db ++ [mkRow new_id job]) new_id
         (tags_table db) (tags_seq db) (job_tags db).

(** [SELECT id FROM jobs WHERE guid=? LIMIT 1] *)
Definition stmtHasGuid (g : string) (db : DB) : option Z :=
  option_map id (find (fun r => String.eqb (Job.guid (cols r)) g) (jobs db)).

(** [INSERT OR IGNORE INTO tags (name, slug) VALUES (?, ?)] *)
Definition stmtInsertTag (n s : string) (db : DB) : DB :=
  if existsb (fun t => String.eqb (name t) n || String.eqb (tag_slug t) s) (tags_table db)
  then db
  else
    let new_id :=
      (Z.max (tags_seq db) (fold_right (fun t m => Z.max (tag_id t) m) 0 (tags_table db)) + 1)%Z in
    mkDB (jobs db) (jobs_seq db) (tags_table db ++ [mkTag new_id n s]) new_id (job_tags db).

(** [SELECT * FROM tags WHERE name=? LIMIT 1] *)
Definition stmtGetTagByName (n : string) (db : DB) : option tag_row :=
  find (fun t => String.eqb (name t) n) (tags_table db).

(** [INSERT OR IGNORE INTO job_tags (job_id, tag_id) VALUES (?, ?)] *)
Definition stmtInsertJobTag (job_id t_id : Z) (db : DB) : DB :=
  if existsb (fun jt => Z.eqb (fst jt) job_id && Z.eqb (snd jt) t_id) (job_tags db) then db
  else mkDB (jobs db) (jobs_seq db) (tags_table db) (tags_seq db)
            (job_tags db ++ [(job_id, t_id)]).

(** [published_at DESC, id DESC]: does [a] come before [b]?  NULL sorts
    below every number. *)
Definition newer (a b : job_row) : bool :=
  match Job.published_at (cols a), Job.published_at (cols b) with
  | Some x, Some y => (y <? x)%Z || ((x =? y)%Z && (id b <? id a)%Z)
  | Some _, None => true
  | None, Some _ => false
  | None, None => (id b <? id a)%Z
  end.

Fixpoint insert_sorted (r : job_row) (l : list job_row) : list job_row :=
  match l with
  | [] => [r]
  | x :: l' => if newer r x then r :: l else x :: insert_sorted r l'
  end.

(** [SELECT id FROM jobs ORDER BY published_at DESC, id DESC] *)
Definition by_recency (rows : list job_row) : list job_row :=
  fold_right insert_sorted [] rows.

(** [DELETE FROM jobs WHERE id IN (SELECT id FROM jobs ORDER BY published_at
    DESC, id DESC LIMIT -1 OFFSET ?)]; a negative offset counts as zero. *)
Definition stmtDeleteOld (offset : Z) (db : DB) : DB :=
  let doomed := map id (skipn (Z.to_nat offset) (by_recency (jobs db))) in
  mkDB (filter (fun r => negb (existsb (Z.eqb (id r)) doomed)) (jobs db))
       (jobs_seq db) (tags_table db) (tags_seq db) (job_tags db).

(** [getCachedCount(0)]: with a zero time-to-live a cached value would have
    to be stamped after the current second to be used, so the count is read
    from the table. *)
Definition getCachedCount (db : DB) : Z := Z.of_nat (List.length (jobs db)).

(* ====================================================================== *)
(** ** Feed processing *)
(* ====================================================================== *)

(** The events of the sax stream. *)
Inductive sax_event : Type :=
| opentag (name : string)
| text (t : string)
| cdata (t : string)
| closetag (name : string).

(** What a run reads from outside: the clock and the AI service. *)
Record world : Type := mkWorld
  { (** [new Date().toISOString()] while the n-th parser event is handled *)
    iso_now : nat -> string;
    (** outcome of the model call made for the i-th matched job *)
    ai_reply : nat -> result string }.

(** [currentItem] *)
Module Item.
Record t : Type := mk
  { title : string; description : string; company : string;
    link : string; guid : string; pubDate : string }.
End Item.

(** An element of [batch]. *)
Module Raw.
Record t : Type := mk
  { rawTitle : string; rawCompany : string; rawDescription : string;
    guid : string; source : string; url : string; published_at : option Z }.
End Raw.

(** The variables the parser callbacks close over. *)
Record parser_state : Type := mkParser
  { currentItem : option Item.t;
    currentTag : string;
    currentText : string;
    processed : nat;
    matched : nat;
    skipped : nat;
    batch : list Raw.t }.

Definition parser_init : parser_state := mkParser None "" "" 0 0 0 [].

Section Feed.
Context {E : Env}.

Definition is_item_tag (tag : string) : bool :=
  String.eqb tag "job" || String.eqb tag "item".

(** [parser.on('opentag', ...)] *)
Definition on_opentag (now : string) (node_name : string) (st : parser_state)
  : parser_state :=
  let tag := toLowerCase node_name in
  mkParser
    (if is_item_tag tag then Some (Item.mk "" "" "" "" "" now) else currentItem st)
    tag "" (processed st) (matched st) (skipped st) (batch st).

(** [parser.on('text', ...)] and [parser.on('cdata', ...)] *)
Definition on_text (t : string) (st : parser_state) : parser_state :=
  mkParser (currentItem st) (currentTag st) (currentText st +:+ t)
           (processed st) (matched st) (skipped st) (batch st).

(** The [switch] of the close-tag handler. *)
Definition assign_field (tagName txt : string) (it : Item.t) : Item.t :=
  let v := trim txt in
  if String.eqb tagName "title" then
    Item.mk v (Item.description it) (Item.company it) (Item.link it) (Item.guid it) (Item.pubDate it)
  else if String.eqb tagName "description" then
    Item.mk (Item.title it) v (Item.company it) (Item.link it) (Item.guid it) (Item.pubDate it)
  else if String.eqb tagName "company" then
    Item.mk (Item.title it) (Item.description it) v (Item.link it) (Item.guid it) (Item.pubDate it)
  else if String.eqb tagName "url" || String.eqb tagName "link" then
    Item.mk (Item.title it) (Item.description it) (Item.company it) v (Item.guid it) (Item.pubDate it)
  else if String.eqb tagName "guid" || String.eqb tagName "referencenumber" then
    if negb (truthy (Item.guid it)) then
      Item.mk (Item.title it) (Item.description it) (Item.company it) (Item.link it) v (Item.pubDate it)
    else it
  else if String.eqb tagName "pubdate" || String.eqb tagName "date_updated" then
    Item.mk (Item.title it) (Item.description it) (Item.company it) (Item.link it) (Item.guid it) v
  else it.

(** [currentItem.guid || currentItem.link || `job-${processed}`] *)
Definition item_guid (it : Item.t) (n : nat) : string :=
  or_else (Item.guid it) (or_else (Item.link it) ("job-" +:+ nat_to_string n)).

(** [parser.on('closetag', ...)]; the handler reads the database through
    [stmtHasGuid] only. *)
Definition on_closetag (db : DB) (name : string) (st : parser_state) : parser_state :=
  let tagName := toLowerCase name in
  match currentItem st with
  | None => st
  | Some it0 =>
      let it := assign_field tagName (currentText st) it0 in
      if is_item_tag tagName then
        let n := S (processed st) in
        let guid := item_guid it n in
        match stmtHasGuid guid db with
        | Some _ =>
            mkParser None (currentTag st) (currentText st) n (matched st) (S (skipped st)) (batch st)
        | None =>
            if negb (matchesProfession (Item.title it) (Item.company it) (Item.description it))
            then
              mkParser None (currentTag st) (currentText st) n (matched st) (S (skipped st)) (batch st)
            else
              mkParser None (currentTag st) (currentText st) n (S (matched st)) (skipped st)
                (batch st ++
                 [ Raw.mk (Item.title it) (Item.company it) (Item.description it) guid
                          FEED_HOST (Item.link it) (unixtime (Item.pubDate it)) ])
        end
      else
        mkParser (Some it) (currentTag st) (currentText st)
                 (processed st) (matched st) (skipped st) (batch st)
  end.

Definition on_event (w : world) (db : DB) (tick : nat) (e : sax_event)
    (st : parser_state) : parser_state :=
  match e with
  | opentag n => on_opentag (iso_now w tick) n st
  | text t => on_text t st
  | cdata t => on_text t st
  | closetag n => on_closetag db n st
  end.

(** [stream.pipe(parser)]: the events in order, numbered from [tick]. *)
Fixpoint parse (w : world) (db : DB) (tick : nat) (events : list sax_event)
    (st : parser_state) : parser_state :=
  match events with
  | [] => st
  | e :: events' => parse w db (S tick) events' (on_event w db tick e st)
  end.

(** The body of the loop of [upsertTagsForJob]. *)
Definition upsert_tag (jobId : Z) (db : DB) (n : string) : DB :=
  let db := stmtInsertTag n (tagSlug n) db in
  match stmtGetTagByName n db with
  | Some t => stmtInsertJobTag jobId (tag_id t) db
  | None => db
  end.

Definition upsertTagsForJob (jobId : Z) (names : list string) (db : DB) : DB :=
  fold_left (upsert_tag jobId) names db.

(** The body of the loop of [insertBatch]. *)
Definition insert_job (db : DB) (job : Job.t) : DB :=
  let db := stmtInsertJob job db in
  match stmtHasGuid (Job.guid job) db with
  | Some inserted_id =>
      upsertTagsForJob inserted_id (filter truthy (JS.split ", " (Job.tags_csv job))) db
  | None => db
  end.

(** [const insertBatch = db.transaction((jobs) => { ... })] *)
Definition insertBatch (rows : list Job.t) (db : DB) : DB :=
  fold_left insert_job rows db.

Definition batchSize : nat := 100.

(** The variables of the enrichment loop. *)
Record loop_state : Type := mkLoop
  { aiEnhanced : Z;
    fallbackUsed : Z;
    processedBatch : list Job.t;
    store : DB }.

(** [(AI_PROCESS_LIMIT === 0) || (aiEnhanced < AI_PROCESS_LIMIT)] *)
Definition shouldUseAI (st : loop_state) : bool :=
  (AI_PROCESS_LIMIT =? 0)%Z || (aiEnhanced st <? AI_PROCESS_LIMIT)%Z.

Definition job_text_of (rawJob : Raw.t) : job_text :=
  mkJobText (Raw.rawTitle rawJob) (Raw.rawCompany rawJob) (Raw.rawDescription rawJob).

(** [mkSlug(`${rawTitle}-${rawCompany}`) || mkSlug(rawTitle) || mkSlug(guid)] *)
Definition job_slug (rawJob : Raw.t) : string :=
  or_else (mkSlug (Raw.rawTitle rawJob +:+ "-" +:+ Raw.rawCompany rawJob))
    (or_else (mkSlug (Raw.rawTitle rawJob)) (mkSlug (Raw.guid rawJob))).

(** The object pushed on [processedBatch]. *)
Definition normalized (rawJob : Raw.t) (r : rewritten) : Job.t :=
  Job.mk (Raw.guid rawJob) (Raw.source rawJob)
         (or_else (Raw.rawTitle rawJob) "Untitled")
         (or_else (Raw.rawCompany rawJob) "")
         (html r)
         (truncateWords (short r) 60)
         (or_else (Raw.url rawJob) "")
         (Raw.published_at rawJob)
         (job_slug rawJob)
         (join ", " (tags r)).

(** One turn of [for (let i = 0; i < batch.length; i++)]. *)
Definition enrich (w : world) (i : nat) (rawJob : Raw.t) (st : loop_state)
  : result loop_state :=
  bind (rewriteJobRich (ai_reply w i) (job_text_of rawJob) (shouldUseAI st)) (fun r =>
  let ai := if usedAI r then (aiEnhanced st + 1)%Z else aiEnhanced st in
  let fb := if usedAI r then fallbackUsed st else (fallbackUsed st + 1)%Z in
  let pending := processedBatch st ++ [normalized rawJob r] in
  if batchSize <=? List.length pending
  then Ok (mkLoop ai fb [] (insertBatch pending (store st)))
  else Ok (mkLoop ai fb pending (store st))).

Fixpoint enrich_from (w : world) (i : nat) (todo : list Raw.t) (st : loop_state)
  : result loop_state :=
  match todo with
  | [] => Ok st
  | rawJob :: todo' => bind (enrich w i rawJob st) (enrich_from w (S i) todo')
  end.

(** The [parser.on('end', ...)] handler.  An exception raised in it leaves
    the promise of the run unsettled: [Throw] stands for a run that does not
    complete. *)
Definition on_end (w : world) (matched_jobs : list Raw.t) (db : DB) : result loop_state :=
  bind (enrich_from w 0 matched_jobs (mkLoop 0 0 [] db)) (fun st =>
  match processedBatch st with
  | [] => Ok st
  | pending => Ok (mkLoop (aiEnhanced st) (fallbackUsed st) [] (insertBatch pending (store st)))
  end).

(** RetentionTrimmer: the end of [processFeed]. *)
Definition retention (db : DB) : DB :=
  if (MAX_JOBS <? getCachedCount db)%Z then stmtDeleteOld MAX_JOBS db else db.

(** Fetch, parse, enrich and store: the run before the retention step. *)
Definition ingest (w : world) (events : list sax_event) (db : DB) : result DB :=
  let st := parse w db 0 events parser_init in
  bind (on_end w (batch st) db) (fun l => Ok (store l)).

(** A run of [processFeed] that passes the guards on [FEED_RUNNING] and
    [FEED_URL], over the events the fetched feed gives rise to. *)
Definition processFeed (w : world) (events : list sax_event) (db : DB) : result DB :=
  bind (ingest w events db) (fun db' => Ok (retention db')).

End Feed.

(* ====================================================================== *)
(** ** A concrete environment for the examples *)
(* ====================================================================== *)

Module Demo.

(** slugify on text made of ASCII letters, digits, blanks and hyphens: the
    replacement character counts as a blank, other characters are removed
    (strict), the result is trimmed, runs of blanks become one hyphen and
    letters are lowered. *)
Definition keep_char (c : ascii) : string :=
  if Ascii.eqb c "-" then " "
  else if is_upper c || is_lower c || is_digit c || is_space c then String c ""
  else "".

Fixpoint keep (s : string) : string :=
  match s with
  | EmptyString => ""
  | String c s' => keep_char c +:+ keep s'
  end.

Definition slugify (s : string) : string :=
  toLowerCase (join "-" (Regex.split re_spaces (trim (keep s)))).

(** html-to-text on one line of text without markup, entities or repeated
    blanks, shorter than the wrap width: the text itself. *)
Definition convert (_ : convert_options) (s : string) : string := s.

Fixpoint until_delim (s : string) : string :=
  match s with
  | EmptyString => ""
  | String c s' =>
      if Ascii.eqb c "/" || Ascii.eqb c ":" || Ascii.eqb c "?" || Ascii.eqb c "#"
      then "" else String c (until_delim s')
  end.

(** The URL parser on [http://host...] and [https://host...]; anything else
    is not a URL. *)
Definition URL_hostname (u : string) : result string :=
  if startsWith "http://" u then Ok (toLowerCase (until_delim (drop 7 u)))
  else if startsWith "https://" u then Ok (toLowerCase (until_delim (drop 8 u)))
  else Throw "TypeError: Invalid URL".

(** The Date parser on the time stamps of the examples. *)
Definition Date_getTime (d : string) : option Z :=
  if String.eqb d "2024-01-01T00:00:00Z" then Some 1704067200000%Z
  else if String.eqb d "2024-01-02T00:00:00Z" then Some 1704153600000%Z
  else None.

(** JSON.parse on the empty array; any other text of the examples is not
    JSON. *)
Definition JSON_parse (t : string) : result (list json) :=
  if String.eqb t "[]" then Ok []
  else Throw "SyntaxError: Unexpected token".

(** An environment with the given retention bound, API key, profession
    label and AI limit, and the default keyword list. *)
Definition env (max_jobs : Z) (has_key : bool) (profession : string) (limit : Z)
    (ok : mem (toLowerCase (or_else profession "motorista")) Object_prototype_keys = false)
  : Env :=
  mkEnv "https://vagas.example.br" max_jobs has_key profession limit ""
        "feed.example.com" slugify convert URL_hostname Date_getTime JSON_parse ok.

(** The defaults of the program, with an API key. *)
Definition standard : Env := env 1000 true "" 0 eq_refl.

(** No API key. *)
Definition offline : Env := env 1000 false "" 0 eq_refl.

(** At most one stored job. *)
Definition tiny : Env := env 1 false "" 0 eq_refl.



(** A profession label made of blanks. *)
Definition blank : Env := env 1000 false "  " 0 eq_refl.

(** A feed item as sax reports it. *)
Definition item (guid title company description pubdate : string) : list sax_event :=
  [ opentag "item";
    opentag "guid"; text guid; closetag "guid";
    opentag "title"; text title; closetag "title";
    opentag "company"; text company; closetag "company";
    opentag "description"; text description; closetag "description";
    opentag "pubDate"; text pubdate; closetag "pubDate";
    closetag "item" ].

(** A world whose clock shows one instant and whose AI service is down. *)
Definition quiet : world :=
  mkWorld (fun _ => "2024-01-02T00:00:00Z") (fun _ => Throw "Error: connect ECONNREFUSED").

(** Two matched jobs with the same title and company. *)
Definition first_posting : Raw.t :=
  Raw.mk "Motorista CE" "Acme" "Vaga para motorista" "g1" "feed.example.com" ""
         (Some 1704067200%Z).

Definition second_posting : Raw.t :=
  Raw.mk "Motorista CE" "Acme" "Vaga para motorista" "g2" "feed.example.com" ""
         (Some 1704153600%Z).

(** A value of the rewriter. *)
Definition plain_rewrite : rewritten :=
  mkRewritten "Vaga para motorista" "<p>Vaga para motorista</p>" ["motorista"] false.


End Demo.

(* ====================================================================== *)
(** ** Vocabulary of the properties *)
(* ====================================================================== *)

(** The tag bound of section 8: at most eight tags, none empty, no two equal
    when case is ignored, each one trimmed and in lower case. *)
Definition tags_ok (l : list string) : Prop :=
  List.length l <= 8 /\
  ~ In "" l /\
  NoDup (map toLowerCase l) /\
  Forall (fun t => trim t = t /\ toLowerCase t = t) l.

(** The normal form of a tag: not empty, trimmed, in lower case. *)
Definition normal (t : string) : Prop :=
  t <> "" /\ trim t = t /\ toLowerCase t = t.

(** A string that does not start with a blank. *)
Definition starts_solid (s : string) : Prop :=
  match s with
  | EmptyString => True
  | String c _ => is_space c = false
  end.

(** One turn of the loop of [uniqNormTags] on a string. *)
Definition add_tag (out : list string) (s : string) : list string :=
  let t := toLowerCase (trim s) in
  if truthy s && truthy t && negb (mem t out) then out ++ [t] else out.

(** What [uniqNormTags] keeps of a list of strings before the cut to eight. *)
Definition distinct_tags (l : list string) : list string :=
  match @uniqNormTags_loop (map JString l) [] [] with
  | Ok out => out
  | Throw _ => []
  end.

(** The tags [extractTags] pushes before the profession label. *)
Definition tags_before {E : Env} (vocabulary : list string) (j : job_text) : list string :=
  filter (fun tag => includes (tag_text j) tag) vocabulary ++ signal_tags (tag_text j).


(** Every row of [job_tags] refers to a stored job. *)
Definition referenced (db : DB) : bool :=
  forallb (fun jt => existsb (fun r => Z.eqb (id r) (fst jt)) (jobs db)) (job_tags db).

(** A stored guid or slug that makes [stmtInsertJob] ignore the row. *)
Definition shadowed (guid slug : string) (db : DB) : bool :=
  has_guid guid (jobs db) || has_slug slug (jobs db).

(** What the enrichment loop observes for each job, in order: whether the
    AI path was requested and whether the rewrite used it. *)
Fixpoint observations {E : Env} (w : world) (i : nat) (todo : list Raw.t)
    (st : loop_state) : list (bool * bool) :=
  match todo with
  | [] => []
  | rawJob :: todo' =>
      match rewriteJobRich (ai_reply w i) (job_text_of rawJob) (shouldUseAI st),
            enrich w i rawJob st with
      | Ok r, Ok st' => (shouldUseAI st, usedAI r) :: observations w (S i) todo' st'
      | _, _ => []
      end
  end.

Definition count_true (l : list bool) : Z :=
  Z.of_nat (List.length (filter (fun b => b) l)).

(** The reply used to exercise the sanitizer: the three sections of the
    output contract, with an iframe tag written inside the name of a script
    tag. *)
Definition nested_tag_reply : string :=
  "===DESCRIPTION=== Vaga para motorista de caminhao com experiencia. " +:+
  "===HTML=== <section><h2>Sobre a Vaga</h2><p>Vaga para motorista.</p>" +:+
  "<scr<iframe>ipt>alert(1)</script></section> ===TAGS=== []".


(** Its HTML section. *)
Definition nested_tag_html : string :=
  "<section><h2>Sobre a Vaga</h2><p>Vaga para motorista.</p>" +:+
  "<scr<iframe>ipt>alert(1)</script></section>".

Definition two_drivers : list sax_event :=
  Demo.item "g1" "Motorista CE" "Acme" "Vaga para motorista" "2024-01-01T00:00:00Z" ++
  Demo.item "g2" "Caminhoneiro" "Beta" "Vaga" "2024-01-01T00:00:00Z".

(** What the BatchWriter stores for that feed under the default settings. *)
Definition stored_two_drivers : DB :=
  match @ingest Demo.offline Demo.quiet two_drivers empty_db with
  | Ok db => db
  | Throw _ => empty_db
  end.

Definition same_title_twice : list sax_event :=
  Demo.item "g1" "Motorista CE" "Acme" "Vaga para motorista" "2024-01-01T00:00:00Z" ++
  Demo.item "g2" "Motorista CE" "Acme" "Vaga para motorista" "2024-01-02T00:00:00Z".

(** The database once the rows waiting in [processedBatch] are written. *)
Definition settled {E : Env} (st : loop_state) : DB :=
  insertBatch (processedBatch st) (store st).

(** A row carries the guid and the slug of the matched job it was made from. *)
Definition row_of {E : Env} (rawJob : Raw.t) (job : Job.t) : Prop :=
  Job.guid job = Raw.guid rawJob /\ Job.slug job = job_slug rawJob.

(** The counter [aiEnhanced] respects the configured limit. *)
Definition within_budget {E : Env} (st : loop_state) : Prop :=
  (0 <= aiEnhanced st)%Z /\
  ((0 < AI_PROCESS_LIMIT)%Z -> (aiEnhanced st <= AI_PROCESS_LIMIT)%Z).

(** Two items that agree except, possibly, on [pubDate]. *)
Definition same_item (a b : option Item.t) : Prop :=
  match a, b with
  | None, None => True
  | Some x, Some y =>
      Item.title x = Item.title y /\ Item.description x = Item.description y /\
      Item.company x = Item.company y /\ Item.link x = Item.link y /\
      Item.guid x = Item.guid y
  | _, _ => False
  end.

(** Two matched jobs with the same guid, title and company. *)
Definition same_key (a b : Raw.t) : Prop :=
  Raw.guid a = Raw.guid b /\ Raw.rawTitle a = Raw.rawTitle b /\
  Raw.rawCompany a = Raw.rawCompany b.

(** The parser state [b] of a run over a larger database follows the state
    [a] of a run over a smaller one, on the same events. *)
Definition follows (a b : parser_state) : Prop :=
  same_item (currentItem a) (currentItem b) /\
  currentText a = currentText b /\
  processed a = processed b /\
  forall y, In y (batch b) -> exists x, In x (batch a) /\ same_key x y.

(** Idempotent ingestion, as worded: a second run over the same feed
    leaves the rows of [jobs] as the first run left them. *)
Definition idempotent_ingestion {E : Env} (w1 w2 : world) (events : list sax_event)
    (db0 : DB) : Prop :=
  forall db1 db2,
    processFeed w1 events db0 = Ok db1 ->
    processFeed w2 events db1 = Ok db2 ->
    jobs db2 = jobs db1.

(** JobTag lifecycle, as worded: a run that starts without orphan rows in
    [job_tags] ends without them. *)
Definition eviction_cascades {E : Env} (w : world) (events : list sax_event)
    (db : DB) : Prop :=
  referenced db = true ->
  forall db', processFeed w events db = Ok db' -> referenced db' = true.

(** The tags of the fallback skeleton, after their opening bracket. *)
Definition plain_tags : list (list ascii) :=
  map chars [ "section>"; "/section>"; "h2>"; "/h2>"; "p>"; "/p>";
              "ul>"; "/ul>"; "li>"; "/li>" ].

Fixpoint prefix_of (b l : list ascii) : bool :=
  match b, l with
  | [], _ => true
  | x :: b', y :: l' => Ascii.eqb x y && prefix_of b' l'
  | _ :: _, [] => false
  end.

Definition opens_plain_tag (l : list ascii) : bool :=
  existsb (fun b => prefix_of b l) plain_tags.

(** Every opening bracket of the text begins one of the tags [section],
    [h2], [p], [ul], [li], opening or closing, written without attributes:
    the text holds no other element, no attribute and no document tag. *)
Fixpoint only_plain_tags (l : list ascii) : bool :=
  match l with
  | [] => true
  | c :: l' => (if Ascii.eqb c "<" then opens_plain_tag l' else true) && only_plain_tags l'
  end.

(** The characters at which a match of a pattern of [sanitizeHtml] begins. *)
Definition breaks (c : ascii) : bool := is_space c || Ascii.eqb c "<".

(** The class of the first character a pattern consumes, when the pattern
    is a sequence that starts with one. *)
Fixpoint first_class (r : Regex.regex) : option (ascii -> bool) :=
  match r with
  | Regex.Chr f => Some f
  | Regex.Cat r1 _ => first_class r1
  | _ => None
  end.

Definition begins_at_break (r : Regex.regex) : Prop :=
  exists f, first_class r = Some f /\ forall c, f c = true -> breaks c = true.

Definition suffix (l' l : list ascii) : Prop := exists pre, l = pre ++ l'.

(** The UNIQUE and PRIMARY KEY constraints of the schema. *)
Definition constraints (db : DB) : Prop :=
  NoDup (map id (jobs db)) /\
  NoDup (map (fun r => Job.guid (cols r)) (jobs db)) /\
  NoDup (map (fun r => Job.slug (cols r)) (jobs db)) /\
  NoDup (map tag_id (tags_table db)) /\
  NoDup (map name (tags_table db)) /\
  NoDup (map tag_slug (tags_table db)) /\
  NoDup (job_tags db).

(** [b] does not come before [a] in the order [published_at DESC, id DESC]. *)
Definition not_after (a b : job_row) : Prop := newer b a = false.

(** The tables of [db'] are those of [db] with rows added at the end. *)
Definition extends (db db' : DB) : Prop :=
  (exists added, jobs db' = jobs db ++ added) /\
  (exists added, tags_table db' = tags_table db ++ added) /\
  (exists added, job_tags db' = job_tags db ++ added).

(** What [upsertTagsForJob] leaves for a tag name: the tag row of that name
    linked to the job, or no row of that name because another tag holds its
    slug. *)
Definition linked_or_clash {E : Env} (jobId : Z) (n : string) (db : DB) : Prop :=
  match stmtGetTagByName n db with
  | Some t => In (jobId, tag_id t) (job_tags db)
  | None => exists t, In t (tags_table db) /\ tag_slug t = tagSlug n /\ name t <> n
  end.

(** A tag that the CSV column gives back as written: not empty and without
    the separator. *)
Definition csv_safe (t : string) : Prop := t <> "" /\ includes t ", " = false.

(** The counters of the parser agree with each other and with [batch]. *)
Definition counted (st : parser_state) : Prop :=
  processed st = matched st + skipped st /\ List.length (batch st) = matched st.

(** The closing tags of feed items among the events. *)
Definition closing_items (events : list sax_event) : nat :=
  List.length
    (filter (fun e => match e with
                      | closetag n => is_item_tag (toLowerCase n)
                      | _ => false
                      end) events).

(** What the close-tag handler checked before it pushed a job on [batch]. *)
Definition admitted {E : Env} (db : DB) (x : Raw.t) : Prop :=
  Raw.guid x <> "" /\
  stmtHasGuid (Raw.guid x) db = None /\
  matchesProfession (Raw.rawTitle x) (Raw.rawCompany x) (Raw.rawDescription x) = true /\
  Raw.source x = FEED_HOST.

(** [job] is the row the enrichment loop makes of the matched job [rawJob]
    in the world [w]. *)
Definition rewrite_of {E : Env} (w : world) (rawJob : Raw.t) (job : Job.t) : Prop :=
  exists i useAI r,
    rewriteJobRich (ai_reply w i) (job_text_of rawJob) useAI = Ok r /\
    job = normalized rawJob r.

(** The AI path is closed for a whole run: no API key, or a service that
    fails at every call. *)
Definition ai_unavailable {E : Env} (w : world) : Prop :=
  HAS_OPENAI = false \/ forall i, exists msg, ai_reply w i = Throw msg.

(** The characters [escapeHtml] replaces, the ampersand apart. *)
Definition markup (c : ascii) : bool :=
  Ascii.eqb c "<" || Ascii.eqb c ">" || Ascii.eqb c dquote || Ascii.eqb c "'".

(** [a] is what is left of [b] when some of its characters are deleted. *)
Inductive kept : list ascii -> list ascii -> Prop :=
| kept_nil : kept [] []
| kept_drop (c : ascii) (a b : list ascii) : kept a b -> kept a (c :: b)
| kept_take (c : ascii) (a b : list ascii) : kept a b -> kept (c :: a) (c :: b).



(** A pattern made of character classes, sequences and alternatives only. *)
Fixpoint simple (r : Regex.regex) : bool :=
  match r with
  | Regex.Eps | Regex.Chr _ => true
  | Regex.Cat r1 r2 | Regex.Alt r1 r2 => simple r1 && simple r2
  | _ => false
  end.

(** The position [p] in a subject that goes on with [x]. *)
Definition extend (p : Regex.pos) (x : list ascii) : Regex.pos :=
  Regex.mkPos (Regex.before p) (Regex.rest p ++ x).

(** [/^https?:\/\//i], matched at the start of the subject. *)
Definition re_http : Regex.regex :=
  Regex.seq [ Regex.lit_i "http"; Regex.opt (Regex.chr_i "s"); Regex.lit_i "://" ].

Definition is_absolute (p : string) : bool :=
  match Regex.match_at re_http (Regex.start_of (chars p)) with
  | Some _ => true
  | None => false
  end.

(** Canonical URL helper (handles leading/trailing slashes) *)
Definition canonical {E : Env} (path : string) : string :=
  if is_absolute path then path
  else SITE_URL +:+ (if startsWith "/" path then "" else "/") +:+ path.

(* ====================================================================== *)
(** ** The listing pages *)
(* ====================================================================== *)

(** A value of [Number(s)] that the listing handlers can tell apart: NaN or
    an integer.  Numbers with a fraction are outside the model. *)
Inductive number : Type :=
| NaN
| Num (z : Z).

(** [!n] *)
Definition falsy (n : number) : bool :=
  match n with
  | NaN => true
  | Num z => (z =? 0)%Z
  end.

Definition number_eqb (a b : number) : bool :=
  match a, b with
  | NaN, NaN => true
  | Num x, Num y => (x =? y)%Z
  | _, _ => false
  end.

(** [String(z)] for an integer below 2^53 in absolute value. *)
Definition Z_to_string (z : Z) : string := NilZero.string_of_int (Z.to_int z).

(** A column value inside a template literal: an integer, or [null]. *)
Definition show_column (v : option Z) : string :=
  match v with
  | Some z => Z_to_string z
  | None => "null"
  end.

(** [WHERE published_at < ? OR (published_at = ? AND id < ?)]: a comparison
    with NULL is not true. *)
Definition before_cursor (pub1 pub2 id0 : Z) (r : job_row) : bool :=
  match Job.published_at (cols r) with
  | Some p => (p <? pub1)%Z || ((p =? pub2)%Z && (id r <? id0)%Z)
  | None => false
  end.

(** [stmtPageFirst]: [SELECT ... FROM jobs ORDER BY published_at DESC, id
    DESC LIMIT ?], for a limit that is not negative.  The rows are kept
    whole; the statement reads six of their columns. *)
Definition stmtPageFirst (limit : nat) (db : DB) : list job_row :=
  firstn limit (by_recency (jobs db)).

(** [stmtPageCursor]: the same with the WHERE clause of [before_cursor]. *)
Definition stmtPageCursor (pub1 pub2 id0 : Z) (limit : nat) (db : DB) : list job_row :=
  firstn limit (by_recency (filter (before_cursor pub1 pub2 id0) (jobs db))).

Definition pageSize : nat := 50.

(** [hasMore ? `${last.published_at}-${last.id}` : null] *)
Definition cursor_of (r : job_row) : string :=
  show_column (Job.published_at (cols r)) +:+ "-" +:+ Z_to_string (id r).

Definition nextCursor (rows : list job_row) : option string :=
  if List.length rows =? pageSize
  then option_map cursor_of (nth_error rows (List.length rows - 1))
  else None.

(** What the handler of the home page answers, as far as the listing goes:
    status 400, or the rows of the page and the cursor of the next link. *)
Inductive response : Type :=
| Invalid_cursor
| Listing (rows : list job_row) (next : option string).

Section Pages.
(** The global [Number] applied to a string. *)
Variable Number : string -> number.

(** [app.get('/', ...)] for the query parameter [cursor], [''] when it is
    missing. *)
Definition home (cursor : string) (db : DB) : response :=
  if negb (truthy cursor) then
    let rows := stmtPageFirst pageSize db in
    Listing rows (nextCursor rows)
  else
    match map Number (JS.split "-" cursor) with
    | pub :: id0 :: _ =>
        if falsy pub || falsy id0 then Invalid_cursor
        else
          match pub, id0 with
          | Num p, Num i =>
              let rows := stmtPageCursor p p i pageSize db in
              Listing rows (nextCursor rows)
          | _, _ => Invalid_cursor
          end
    | _ => Invalid_cursor                        (* [id] is undefined *)
    end.

(** The rows a visitor sees who starts at [cursor] and follows the next
    links, at most [fuel] pages. *)
Fixpoint pages (fuel : nat) (cursor : string) (db : DB) : option (list job_row) :=
  match fuel with
  | O => None
  | S fuel' =>
      match home cursor db with
      | Invalid_cursor => None
      | Listing rows None => Some rows
      | Listing rows (Some next) => option_map (app rows) (pages fuel' next db)
      end
  end.

(** A row whose cursor is read back as written: a date and an id that are
    positive, below 2^53, and printed in digits that [Number] reads. *)
Definition readable (r : job_row) : bool :=
  match Job.published_at (cols r) with
  | Some p =>
      (0 <? p)%Z && (p <? 9007199254740992)%Z &&
      (0 <? id r)%Z && (id r <? 9007199254740992)%Z &&
      number_eqb (Number (Z_to_string p)) (Num p) &&
      number_eqb (Number (Z_to_string (id r))) (Num (id r))
  | None => false
  end.

End Pages.

(** [Number] on a string of digits; the other strings of the examples are
    not numbers. *)
Definition digits_Number (s : string) : number :=
  if forallb is_digit (chars s)
  then Num (fold_left (fun acc c => (acc * 10 + Z.of_nat (code c - 48))%Z) (chars s) 0%Z)
  else NaN.

(** A row with a date. *)
Definition dated (r : job_row) : bool :=
  match Job.published_at (cols r) with
  | Some _ => true
  | None => false
  end.

(** No two numbers of the list are equal. *)
Fixpoint distinct (l : list Z) : bool :=
  match l with
  | [] => true
  | x :: l' => negb (existsb (Z.eqb x) l') && distinct l'
  end.

(** A table of 120 jobs published on seven different days. *)
Definition listed_job (n : nat) : job_row :=
  mkRow (Z.of_nat n)
        (Job.mk ("g" +:+ nat_to_string n) "feed.example.com" "Motorista CE" "Acme" "" "" ""
                (Some (Z.of_nat (1000 + n mod 7))) ("motorista-" +:+ nat_to_string n) "").

Definition long_listing : DB := mkDB (map listed_job (seq 1 120)) 120 [] 0 [].

(** A job whose [pubDate] was not a date. *)
Definition undated_job : job_row :=
  mkRow 3 (Job.mk "g3" "feed.example.com" "Motorista CE" "Acme" "" "" "" None "motorista-3" "").

(* ====================================================================== *)
(** ** parseMeta *)
(* ====================================================================== *)

Module Meta.

Inductive employment : Type := FULL_TIME | PART_TIME | CONTRACTOR | INTERN | TEMPORARY.
Inductive period : Type := HOUR | DAY | WEEK | MONTH | YEAR.
Inductive currency : Type := BRL | EUR | USD | GBP | CHF.

(** The object [{ currency, min, max, unit }]; [None] is [null]. *)
Record salary : Type := mkSalary
  { salary_currency : currency;
    salary_min : option number;
    salary_max : option number;
    salary_unit : period }.

(** The value of [parseMeta]. *)
Record t : Type := mk
  { employmentType : employment;
    isRemote : bool;
    salary_of : option salary;
    experienceRequirements : option string;
    experienceInPlaceOfEducation : bool }.

End Meta.

(** An alternation of literals with the flag [i]; where the source writes
    it in parentheses and only tests it, the group is not read. *)
Definition words (l : list string) : Regex.regex := Regex.alt (map Regex.lit_i l).























Section ParseMeta.
Context {E : Env}.










End ParseMeta.






(** The events of a child element of an item that holds text only. *)
Definition child (f : string * string) : list sax_event :=
  [ opentag (fst f); text (snd f); closetag (fst f) ].

(** The events of an item whose children hold text only. *)
Definition flat_item (fields : list (string * string)) : list sax_event :=
  opentag "item" :: List.concat (map child fields) ++ [ closetag "item" ].

(** The fields of the children, assigned in order. *)
Definition read_children (fields : list (string * string)) (it : Item.t) : Item.t :=
  fold_left (fun it f => assign_field (toLowerCase (fst f)) (snd f) it) fields it.



(** Every row of [job_tags] refers to a row of [tags], and every tag row
    carries the slug [tagSlug] gives for its name. *)
Definition tags_sound {E : Env} (db : DB) : Prop :=
  (forall jt, In jt (job_tags db) -> exists t, In t (tags_table db) /\ tag_id t = snd jt) /\
  Forall (fun t => tag_slug t = tagSlug (name t)) (tags_table db).

(* ====================================================================== *)
(** ** Strings *)
(* ====================================================================== *)

Section StringFacts.

Lemma lower_char_idem (c : ascii) : lower_char (lower_char c) = lower_char c.
Proof. destruct c as [[] [] [] [] [] [] [] []]; reflexivity. Qed.

Lemma is_space_lower_char (c : ascii) : is_space (lower_char c) = is_space c.
Proof. destruct c as [[] [] [] [] [] [] [] []]; reflexivity. Qed.

Lemma toLowerCase_idem (s : string) : toLowerCase (toLowerCase s) = toLowerCase s.
Proof.
  induction s as [|c s IH]; simpl; [reflexivity|].
  now rewrite lower_char_idem, IH.
Qed.

Lemma trimStart_toLowerCase (s : string) :
  trimStart (toLowerCase s) = toLowerCase (trimStart s).
Proof.
  induction s as [|c s IH]; simpl; [reflexivity|].
  rewrite is_space_lower_char. destruct (is_space c); [exact IH | reflexivity].
Qed.

Lemma trimEnd_toLowerCase (s : string) :
  trimEnd (toLowerCase s) = toLowerCase (trimEnd s).
Proof.
  induction s as [|c s IH]; simpl; [reflexivity|].
  rewrite IH, is_space_lower_char.
  destruct (trimEnd s) as [|d r] eqn:Hr; simpl.
  - destruct (is_space c); reflexivity.
  - reflexivity.
Qed.

Lemma trim_toLowerCase (s : string) : trim (toLowerCase s) = toLowerCase (trim s).
Proof. unfold trim. now rewrite trimStart_toLowerCase, trimEnd_toLowerCase. Qed.

Lemma trimEnd_idem (s : string) : trimEnd (trimEnd s) = trimEnd s.
Proof.
  induction s as [|c s IH]; simpl; [reflexivity|].
  destruct (trimEnd s) as [|d r] eqn:Hr.
  - destruct (is_space c) eqn:Hc; simpl; [reflexivity | now rewrite Hc].
  - simpl in *. now rewrite IH.
Qed.

Lemma trimStart_solid (s : string) : starts_solid (trimStart s).
Proof.
  induction s as [|c s IH]; simpl; [exact I|].
  destruct (is_space c) eqn:Hc; [exact IH | exact Hc].
Qed.

Lemma trimStart_of_solid (s : string) : starts_solid s -> trimStart s = s.
Proof. destruct s as [|c s]; simpl; [reflexivity|]. now intros ->. Qed.

Lemma trimEnd_solid (s : string) : starts_solid s -> starts_solid (trimEnd s).
Proof.
  destruct s as [|c s]; simpl; [trivial|]. intros Hc.
  destruct (trimEnd s); [rewrite Hc|]; exact Hc.
Qed.

Lemma trim_idem (s : string) : trim (trim s) = trim s.
Proof.
  unfold trim.
  rewrite (trimStart_of_solid (trimEnd (trimStart s))).
  - apply trimEnd_idem.
  - apply trimEnd_solid, trimStart_solid.
Qed.

(** The normal form [String(t).trim().toLowerCase()] is trimmed and in
    lower case. *)
Lemma normal_form_trimmed (s : string) :
  trim (toLowerCase (trim s)) = toLowerCase (trim s).
Proof. now rewrite trim_toLowerCase, trim_idem. Qed.

Lemma truthy_true (s : string) : truthy s = true <-> s <> "".
Proof. destruct s; simpl; split; congruence. Qed.

Lemma mem_In (x : string) (l : list string) : mem x l = true <-> In x l.
Proof.
  unfold mem. rewrite existsb_exists. split.
  - intros [y [Hy Heq]]. apply String.eqb_eq in Heq. now subst.
  - intros H. exists x. split; [exact H | apply String.eqb_refl].
Qed.

Lemma mem_false (x : string) (l : list string) : mem x l = false <-> ~ In x l.
Proof.
  rewrite <- mem_In. destruct (mem x l); split; congruence.
Qed.

End StringFacts.

(* ====================================================================== *)
(** ** Tags *)
(* ====================================================================== *)

Section TagFacts.
Context {E : Env}.

Lemma normal_form_normal (s : string) :
  truthy (toLowerCase (trim s)) = true -> normal (toLowerCase (trim s)).
Proof.
  intros H. repeat split.
  - now apply truthy_true.
  - apply normal_form_trimmed.
  - apply toLowerCase_idem.
Qed.

Lemma NoDup_snoc (x : string) (l : list string) :
  NoDup l -> ~ In x l -> NoDup (l ++ [x]).
Proof.
  intros Hl Hx. apply NoDup_app; [exact Hl | repeat constructor; simpl; tauto |].
  intros y Hy [<-|[]]. tauto.
Qed.

(** The loop keeps [out] free of duplicates and in normal form, as long as
    [seen] holds the elements of [out]. *)
Lemma uniqNormTags_loop_inv (tags : list json) :
  forall seen out res,
    uniqNormTags_loop tags seen out = Ok res ->
    (forall x, In x seen <-> In x out) ->
    NoDup out -> Forall normal out ->
    NoDup res /\ Forall normal res.
Proof.
  induction tags as [|t tags IH]; simpl; intros seen out res Hrun Hseen Hnd Hnf.
  - injection Hrun as <-. now split.
  - destruct (json_truthy t); simpl in Hrun; [|now apply (IH seen out)].
    destruct (to_String t) as [s|m]; simpl in Hrun; [|discriminate].
    destruct (truthy (toLowerCase (trim s))) eqn:Ht; simpl in Hrun;
      [|now apply (IH seen out)].
    destruct (mem (toLowerCase (trim s)) seen) eqn:Hm; [now apply (IH seen out)|].
    apply mem_false in Hm.
    apply (IH _ _ _ Hrun).
    + intros x. simpl. rewrite in_app_iff, Hseen. simpl. tauto.
    + apply NoDup_snoc; [exact Hnd | now rewrite <- Hseen].
    + apply Forall_app. split; [exact Hnf|].
      constructor; [now apply normal_form_normal | constructor].
Qed.

Lemma NoDup_firstn (n : nat) (l : list string) : NoDup l -> NoDup (firstn n l).
Proof.
  intros H. rewrite <- (firstn_skipn n l) in H. now apply NoDup_app_remove_r in H.
Qed.

Lemma Forall_firstn (P : string -> Prop) (n : nat) (l : list string) :
  Forall P l -> Forall P (firstn n l).
Proof.
  intros H. rewrite <- (firstn_skipn n l) in H. now apply Forall_app in H.
Qed.

Lemma normal_tags_ok (l : list string) :
  List.length l <= 8 -> NoDup l -> Forall normal l -> tags_ok l.
Proof.
  intros Hlen Hnd Hnf. unfold tags_ok. repeat split.
  - exact Hlen.
  - intros Hin. rewrite Forall_forall in Hnf. now destruct (Hnf _ Hin) as [Hne _].
  - replace (map toLowerCase l) with l; [exact Hnd|].
    rewrite <- (map_id l) at 1. apply map_ext_in. intros t Ht.
    rewrite Forall_forall in Hnf. destruct (Hnf _ Ht) as (_ & _ & Hl). now rewrite Hl.
  - eapply Forall_impl; [|exact Hnf]. intros t (_ & Ht & Hl). now split.
Qed.

(** Whatever [uniqNormTags] returns meets the tag bound. *)
Lemma uniqNormTags_ok (tags : list json) (res : list string) :
  uniqNormTags tags = Ok res -> tags_ok res.
Proof.
  unfold uniqNormTags. intros H.
  destruct (uniqNormTags_loop tags [] []) as [out|m] eqn:Hloop;
    unfold bind in H; [|discriminate].
  assert (Hres : res = firstn 8 out) by congruence. subst res. clear H.
  destruct (uniqNormTags_loop_inv tags [] [] out Hloop) as [Hnd Hnf];
    [tauto | constructor | constructor |].
  apply normal_tags_ok.
  - apply firstn_le_length.
  - now apply NoDup_firstn.
  - now apply Forall_firstn.
Qed.

(** On strings the loop never raises and is a left fold of [add_tag]. *)
Lemma uniqNormTags_loop_strings (l : list string) :
  forall seen out,
    (forall x, In x seen <-> In x out) ->
    uniqNormTags_loop (map JString l) seen out = Ok (fold_left add_tag l out).
Proof.
  induction l as [|s l IH]; simpl; intros seen out Hseen; [reflexivity|].
  unfold add_tag at 2.
  destruct (truthy s); simpl; [|now apply IH].
  destruct (truthy (toLowerCase (trim s))); simpl; [|now apply IH].
  assert (Hmem : mem (toLowerCase (trim s)) seen = mem (toLowerCase (trim s)) out).
  { destruct (mem (toLowerCase (trim s)) out) eqn:Ho.
    - apply mem_In. apply Hseen. now apply mem_In.
    - apply mem_false. rewrite Hseen. now apply mem_false. }
  rewrite Hmem. destruct (mem (toLowerCase (trim s)) out); simpl; [now apply IH|].
  apply IH. intros x. simpl. rewrite in_app_iff, Hseen. simpl. tauto.
Qed.

Lemma uniqNormTags_strings (l : list string) :
  uniqNormTags (map JString l) = Ok (firstn 8 (fold_left add_tag l [])).
Proof.
  unfold uniqNormTags. rewrite (uniqNormTags_loop_strings l [] []); [reflexivity | tauto].
Qed.

Lemma distinct_tags_fold (l : list string) : distinct_tags l = fold_left add_tag l [].
Proof.
  unfold distinct_tags. now rewrite (uniqNormTags_loop_strings l [] []).
Qed.

(** With a profession label that is not a member of [Object.prototype] the
    vocabulary lookup gives an array. *)
Lemma profTags_ok : exists v, profTags (toLowerCase TARGET_PROFESSION) = Ok v.
Proof.
  unfold profTags, get, TARGET_PROFESSION.
  destruct (assoc _ PROFESSION_TAGS) as [v|]; [now exists v|].
  rewrite profession_not_inherited. now exists [].
Qed.

Lemma extractTags_strings (j : job_text) (v : list string) :
  profTags (toLowerCase TARGET_PROFESSION) = Ok v ->
  extractTags j = Ok (firstn 8 (fold_left add_tag (found_tags v j) [])).
Proof.
  intros Hv. unfold extractTags. rewrite Hv. simpl. apply uniqNormTags_strings.
Qed.

(** [extractTags] returns, and what it returns meets the tag bound. *)
Lemma extractTags_ok (j : job_text) : exists ts, extractTags j = Ok ts /\ tags_ok ts.
Proof.
  destruct profTags_ok as [v Hv].
  exists (firstn 8 (fold_left add_tag (found_tags v j) [])).
  split; [now apply extractTags_strings|].
  apply (uniqNormTags_ok (map JString (found_tags v j))), uniqNormTags_strings.
Qed.

Lemma fallback_ok (j : job_text) :
  exists r, fallback j = Ok r /\ usedAI r = false /\ tags_ok (tags r).
Proof.
  destruct (extractTags_ok j) as (ts & Hts & Hok).
  unfold fallback. rewrite Hts. simpl. eexists. split; [reflexivity|]. now split.
Qed.

Lemma parse_reply_tags (j : job_text) (out : string) (r : rewritten) :
  parse_reply j out = Ok r -> usedAI r = true /\ tags_ok (tags r).
Proof.
  unfold parse_reply.
  match goal with
  | |- bind ?c _ = _ -> _ => destruct c as [ts|m] eqn:Hc
  end; simpl; [|discriminate].
  intros H. injection H as <-. simpl. split; [reflexivity|].
  destruct (Regex.exec re_array _) as [m|].
  - destruct (JSON_parse _) as [items|];
      [now apply (uniqNormTags_ok items)|].
    destruct (extractTags j) as [t|]; simpl in Hc; [|discriminate].
    now apply (uniqNormTags_ok (map JString t)).
  - destruct (extractTags j) as [t|]; simpl in Hc; [|discriminate].
    now apply (uniqNormTags_ok (map JString t)).
Qed.

(** [rewriteJobRich] never raises; its tags meet the bound, and it reports
    [usedAI] only when the AI path was requested. *)
Lemma rewriteJobRich_ok (reply : result string) (j : job_text) (useAI : bool) :
  exists r, rewriteJobRich reply j useAI = Ok r /\ tags_ok (tags r) /\
            (usedAI r = true -> useAI = true /\ HAS_OPENAI = true).
Proof.
  destruct (fallback_ok j) as (rf & Hf & Hu & Hok).
  assert (Hfb : forall c, c = fallback j ->
            exists r, c = Ok r /\ tags_ok (tags r) /\
                      (usedAI r = true -> useAI = true /\ HAS_OPENAI = true)).
  { intros c ->. exists rf. split; [exact Hf|]. split; [exact Hok|]. congruence. }
  unfold rewriteJobRich.
  destruct HAS_OPENAI eqn:Hkey, useAI; simpl; try (now apply Hfb).
  destruct reply as [out|m]; simpl; [|now apply Hfb].
  destruct (parse_reply j out) as [r|m] eqn:Hp; simpl; [|now apply Hfb].
  exists r. destruct (parse_reply_tags _ _ _ Hp) as [_ Ht].
  split; [reflexivity|]. split; [exact Ht|]. now split.
Qed.


End TagFacts.

Section ProfessionTag.
Context {E : Env}.

Lemma add_tag_length (out : list string) (s : string) :
  List.length (add_tag out s) <= S (List.length out).
Proof.
  unfold add_tag. destruct (_ && _ && _); [|lia].
  rewrite length_app. simpl. lia.
Qed.

Lemma fold_add_tag_length (l : list string) :
  forall out, List.length (fold_left add_tag l out) <= List.length l + List.length out.
Proof.
  induction l as [|s l IH]; simpl; intros out; [lia|].
  specialize (IH (add_tag out s)). pose proof (add_tag_length out s). lia.
Qed.

Lemma signal_tags_length (t : string) : List.length (signal_tags t) <= 5.
Proof.
  unfold signal_tags. repeat rewrite length_app.
  repeat match goal with |- context [if ?b then _ else _] => destruct b end;
    simpl; lia.
Qed.

(** A profession without vocabulary entry: at most the five signal tags come
    before the profession label. *)
Lemma no_vocabulary_room (j : job_text) :
  get PROFESSION_TAGS (toLowerCase TARGET_PROFESSION) = Absent ->
  profTags (toLowerCase TARGET_PROFESSION) = Ok [] /\
  List.length (distinct_tags (tags_before [] j)) < 8.
Proof.
  intros Hget. split.
  - unfold profTags. rewrite Hget. reflexivity.
  - rewrite distinct_tags_fold.
    pose proof (fold_add_tag_length (tags_before [] j) []).
    unfold tags_before in *. simpl in *.
    pose proof (signal_tags_length (tag_text j)). lia.
Qed.

Lemma found_tags_split (v : list string) (j : job_text) :
  found_tags v j = tags_before v j ++ [toLowerCase TARGET_PROFESSION].
Proof. unfold found_tags, tags_before. now rewrite app_assoc. Qed.

(** The label survives the cut to eight when fewer than eight distinct tags
    come before it. *)
Lemma label_kept_when_room (j : job_text) (v : list string) :
  profTags (toLowerCase TARGET_PROFESSION) = Ok v ->
  trim (toLowerCase TARGET_PROFESSION) <> "" ->
  List.length (distinct_tags (tags_before v j)) < 8 ->
  exists ts, extractTags j = Ok ts /\ ts <> [] /\
             In (trim (toLowerCase TARGET_PROFESSION)) ts.
Proof.
  intros Hv Hne Hroom.
  set (p := trim (toLowerCase TARGET_PROFESSION)) in *.
  exists (firstn 8 (fold_left add_tag (found_tags v j) [])).
  split; [now apply extractTags_strings|].
  rewrite found_tags_split, fold_left_app, <- distinct_tags_fold. cbn [fold_left].
  set (pre := distinct_tags (tags_before v j)) in *.
  assert (Hp : toLowerCase (trim (toLowerCase TARGET_PROFESSION)) = p).
  { unfold p. now rewrite <- trim_toLowerCase, toLowerCase_idem. }
  assert (Hin : In p (firstn 8 (add_tag pre (toLowerCase TARGET_PROFESSION)))).
  { unfold add_tag. rewrite Hp.
    assert (Ht : truthy p = true) by now apply truthy_true.
    assert (Ht0 : truthy (toLowerCase TARGET_PROFESSION) = true).
    { apply truthy_true. intros H0. apply Hne. unfold p. now rewrite H0. }
    rewrite Ht, Ht0. cbn [andb].
    destruct (mem p pre) eqn:Hm; cbn [negb].
    - rewrite firstn_all2 by lia. now apply mem_In.
    - rewrite firstn_all2 by (rewrite length_app; simpl; lia).
      apply in_or_app. right. now left. }
  split; [|exact Hin].
  intros Hnil. rewrite Hnil in Hin. exact Hin.
Qed.

(** A profession without vocabulary entry always gets its tag, provided the
    label is not made of blanks. *)
Lemma label_kept_without_vocabulary (j : job_text) :
  get PROFESSION_TAGS (toLowerCase TARGET_PROFESSION) = Absent ->
  trim (toLowerCase TARGET_PROFESSION) <> "" ->
  exists ts, extractTags j = Ok ts /\ ts <> [] /\
             In (trim (toLowerCase TARGET_PROFESSION)) ts.
Proof.
  intros Habs Hne. destruct (no_vocabulary_room j Habs) as [Hv Hroom].
  now apply (label_kept_when_room j []).
Qed.


End ProfessionTag.



(** A label made of blanks is dropped by the normalization. *)
Example blank_label_no_tag :
  @extractTags Demo.blank (mkJobText "Motorista CE" "Acme" "Vaga") = Ok [].
Proof. vm_compute. reflexivity. Qed.

(* ====================================================================== *)
(** ** Location *)
(* ====================================================================== *)

Section Location.
Context {E : Env}.

(** The list always holds exactly one place. *)
Lemma inferJobLocations_single (html title siteUrl : string) :
  exists city, inferJobLocations html title siteUrl =
               [mkPlace (mkAddress city (getCountryFromHost siteUrl))].
Proof.
  unfold inferJobLocations. destruct (find _ citiesBR); eexists; reflexivity.
Qed.

Lemma assoc_In {A} (key : string) (l : list (string * A)) (v : A) :
  assoc key l = Some v -> In v (map snd l).
Proof.
  induction l as [|[k x] l IH]; simpl; [discriminate|].
  destruct (String.eqb k key); [intros H; injection H as <-; now left | auto].
Qed.

Lemma tld_map_codes (tld c : string) : assoc tld tld_map = Some c -> truthy c = true.
Proof.
  intros H. apply assoc_In in H. revert c H. apply forallb_forall. reflexivity.
Qed.

(** Off the members of [Object.prototype] the country is a non-empty string:
    an entry of the table or the fallback. *)
Lemma getCountryFromHost_code (siteUrl : string) :
  (forall host, URL_hostname siteUrl = Ok host ->
     mem (last (JS.split "." (toLowerCase host)) "") Object_prototype_keys = false) ->
  exists c, getCountryFromHost siteUrl = Code c /\ c <> "".
Proof.
  intros Hplain. unfold getCountryFromHost.
  destruct (URL_hostname siteUrl) as [host|m].
  - specialize (Hplain host eq_refl). unfold get. rewrite Hplain.
    destruct (assoc _ tld_map) as [c|] eqn:Hc.
    + rewrite (tld_map_codes _ _ Hc). exists c. split; [reflexivity|].
      apply truthy_true. exact (tld_map_codes _ _ Hc).
    + exists "US". split; [reflexivity | discriminate].
  - exists "US". split; [reflexivity | discriminate].
Qed.

(** C3 -- Location, at a host whose last label is [constructor]: the lookup
    [map[tld]] finds [Object.prototype.constructor], a function, which is
    truthy, so the fallback is not taken and [addressCountry] is that
    function, not a country code. *)
Theorem country_is_inherited_member (html title siteUrl host : string) :
  URL_hostname siteUrl = Ok host ->
  last (JS.split "." (toLowerCase host)) "" = "constructor" ->
  exists city, inferJobLocations html title siteUrl =
               [mkPlace (mkAddress city (PrototypeMember "constructor"))].
Proof.
  intros Hhost Htld.
  destruct (inferJobLocations_single html title siteUrl) as [city Hcity].
  exists city. rewrite Hcity. do 3 f_equal.
  unfold getCountryFromHost. rewrite Hhost, Htld. reflexivity.
Qed.

End Location.

(** Witness of [country_is_inherited_member]. *)
Lemma country_is_inherited_member_witness :
  exists city,
    @inferJobLocations Demo.standard "" "" "https://vagas.constructor" =
    [mkPlace (mkAddress city (PrototypeMember "constructor"))].
Proof.
  apply (@country_is_inherited_member Demo.standard "" "" "https://vagas.constructor"
           "vagas.constructor").
  - reflexivity.
  - reflexivity.
Defined.

(* ====================================================================== *)
(** ** ContentRewriter *)
(* ====================================================================== *)

Section Rewriter.
Context {E : Env}.

Lemma nested_reply_html :
  trim (group1_or_empty (Regex.exec re_html nested_tag_reply)) = nested_tag_html.
Proof. vm_compute. reflexivity. Qed.

Lemma nested_reply_strip : stripDocumentTags nested_tag_html = nested_tag_html.
Proof. vm_compute. reflexivity. Qed.

Lemma nested_reply_tags :
  Regex.exec re_array (group1_or_empty (Regex.exec re_tags nested_tag_reply)) =
  Some (Regex.mkFound "[]" None).
Proof. vm_compute. reflexivity. Qed.

Lemma nested_reply_sanitized :
  sanitizeHtml nested_tag_html =
  "<section><h2>Sobre a Vaga</h2><p>Vaga para motorista.</p><script>alert(1)</script></section>".
Proof. vm_compute. reflexivity. Qed.

(** Two more texts the six replacements let through: a closing tag written
    with a blank, and an event handler that appears once the attribute
    before its value is deleted. *)
Example sanitizeHtml_closing_tag_with_blank :
  sanitizeHtml "<p>x</p><script>alert(1)</script >" = "<p>x</p><script>alert(1)</script >".
Proof. vm_compute. reflexivity. Qed.

Example sanitizeHtml_handler_reassembled :
  sanitizeHtml "<a onclick onfoo=bar =alert(1)>x</a>" = "<a onclick =alert(1)>x</a>".
Proof. vm_compute. reflexivity. Qed.

(** A document tag that appears only after [sanitizeHtml] has run, that is,
    after [stripDocumentTags]. *)
Example body_tag_reassembled :
  sanitizeHtml (stripDocumentTags "<bo<iframe>dy><p>x</p>") = "<body><p>x</p>".
Proof. vm_compute. reflexivity. Qed.

(** C4 -- Sanitization, at a reply whose HTML section holds
    [<scr<iframe>ipt>alert(1)</script>]: the script pattern runs first and
    finds no script tag, the next pattern deletes [<iframe>], and the
    description returned with [usedAI = true] contains the script element
    [<script>alert(1)</script>]. *)
Theorem sanitizer_leaves_script (j : job_text) :
  HAS_OPENAI = true ->
  JSON_parse "[]" = Ok [] ->
  exists r, rewriteJobRich (Ok nested_tag_reply) j true = Ok r /\
            usedAI r = true /\
            html r = "<section><h2>Sobre a Vaga</h2><p>Vaga para motorista.</p><script>alert(1)</script></section>".
Proof.
  intros Hkey Hjson.
  unfold rewriteJobRich. rewrite Hkey. cbn [negb orb try_catch bind].
  unfold parse_reply.
  rewrite nested_reply_html, nested_reply_tags.
  cbn [Regex.whole]. rewrite Hjson.
  change (truthy nested_tag_html) with true. cbn [negb].
  rewrite nested_reply_strip.
  change (String.length nested_tag_html <? 50) with false. cbv beta iota.
  rewrite nested_reply_sanitized.
  eexists. split; [reflexivity|]. split; reflexivity.
Qed.


(** A failed model call gives the deterministic fallback. *)
Lemma rewriteJobRich_on_error (j : job_text) (useAI : bool) (msg : string) :
  rewriteJobRich (Throw msg) j useAI = fallback j.
Proof.
  unfold rewriteJobRich. destruct (_ || _); reflexivity.
Qed.


End Rewriter.

(** Witness of [sanitizer_leaves_script]. *)
Lemma sanitizer_leaves_script_witness :
  exists r,
    @rewriteJobRich Demo.standard (Ok nested_tag_reply)
      (mkJobText "Motorista CE" "Acme" "Vaga para motorista") true = Ok r /\
    usedAI r = true /\
    html r = "<section><h2>Sobre a Vaga</h2><p>Vaga para motorista.</p><script>alert(1)</script></section>".
Proof.
  apply (@sanitizer_leaves_script Demo.standard
           (mkJobText "Motorista CE" "Acme" "Vaga para motorista")).
  - reflexivity.
  - reflexivity.
Defined.


(* ====================================================================== *)
(** ** Tables *)
(* ====================================================================== *)

Section Tables.
Context {E : Env}.

Lemma stmtHasGuid_None (g : string) (db : DB) :
  stmtHasGuid g db = None <-> has_guid g (jobs db) = false.
Proof.
  unfold stmtHasGuid, has_guid.
  induction (jobs db) as [|r rows IH]; simpl; [tauto|].
  destruct (String.eqb (Job.guid (cols r)) g); simpl; [split; discriminate | exact IH].
Qed.

Lemma has_guid_app (g : string) (a b : list job_row) :
  has_guid g (a ++ b) = has_guid g a || has_guid g b.
Proof. apply existsb_app. Qed.

Lemma has_slug_app (s : string) (a b : list job_row) :
  has_slug s (a ++ b) = has_slug s a || has_slug s b.
Proof. apply existsb_app. Qed.

Lemma upsert_tag_jobs (jobId : Z) (db : DB) (n : string) :
  jobs (upsert_tag jobId db n) = jobs db /\
  incl (job_tags db) (job_tags (upsert_tag jobId db n)).
Proof.
  unfold upsert_tag, stmtInsertTag, stmtGetTagByName, stmtInsertJobTag.
  destruct (existsb _ (tags_table db)); simpl;
    destruct (find _ _); simpl; try destruct (existsb _ _); simpl;
    split; try reflexivity; try apply incl_refl; apply incl_appl, incl_refl.
Qed.

Lemma upsertTagsForJob_jobs (jobId : Z) (names : list string) :
  forall db, jobs (upsertTagsForJob jobId names db) = jobs db /\
             incl (job_tags db) (job_tags (upsertTagsForJob jobId names db)).
Proof.
  unfold upsertTagsForJob.
  induction names as [|n names IH]; simpl; intros db.
  - split; [reflexivity | apply incl_refl].
  - destruct (IH (upsert_tag jobId db n)) as [Hj Ht].
    destruct (upsert_tag_jobs jobId db n) as [Hj' Ht'].
    split; [congruence | eapply incl_tran; eassumption].
Qed.

(** The tag bookkeeping leaves [jobs] alone. *)
Lemma insert_job_jobs (db : DB) (job : Job.t) :
  jobs (insert_job db job) = jobs (stmtInsertJob job db).
Proof.
  unfold insert_job. destruct (stmtHasGuid _ _); [|reflexivity].
  apply upsertTagsForJob_jobs.
Qed.

Lemma stmtInsertJob_ignored (job : Job.t) (db : DB) :
  shadowed (Job.guid job) (Job.slug job) db = true -> stmtInsertJob job db = db.
Proof. unfold shadowed, stmtInsertJob. now intros ->. Qed.

Lemma stmtInsertJob_rows (job : Job.t) (db : DB) :
  jobs (stmtInsertJob job db) = jobs db \/
  exists i, jobs (stmtInsertJob job db) = jobs db ++ [mkRow i job].
Proof.
  unfold stmtInsertJob. destruct (_ || _); [now left|]. right. eexists. reflexivity.
Qed.

(** A row ignored for its slug changes nothing at all. *)
Lemma insert_job_ignored (db : DB) (job : Job.t) :
  has_guid (Job.guid job) (jobs db) = false ->
  has_slug (Job.slug job) (jobs db) = true ->
  insert_job db job = db.
Proof.
  intros Hg Hs. unfold insert_job.
  rewrite stmtInsertJob_ignored by (unfold shadowed; rewrite Hs; apply orb_true_r).
  apply stmtHasGuid_None in Hg. now rewrite Hg.
Qed.

Lemma insert_job_keeps (db : DB) (job : Job.t) :
  (forall g, has_guid g (jobs db) = true -> has_guid g (jobs (insert_job db job)) = true) /\
  (forall s, has_slug s (jobs db) = true -> has_slug s (jobs (insert_job db job)) = true).
Proof.
  rewrite insert_job_jobs.
  destruct (stmtInsertJob_rows job db) as [-> | [i ->]]; [tauto|].
  split; intros x Hx; [rewrite has_guid_app | rewrite has_slug_app]; now rewrite Hx.
Qed.

(** After its insertion was attempted, a row's guid or slug is stored. *)
Lemma insert_job_shadowed (db : DB) (job : Job.t) :
  shadowed (Job.guid job) (Job.slug job) (insert_job db job) = true.
Proof.
  unfold shadowed. rewrite insert_job_jobs. unfold stmtInsertJob.
  destruct (has_guid _ (jobs db) || has_slug _ (jobs db)) eqn:Hs; [exact Hs|].
  simpl. rewrite has_guid_app. simpl. now rewrite String.eqb_refl, orb_true_r.
Qed.

Lemma insertBatch_keeps (rows : list Job.t) :
  forall db,
    (forall g, has_guid g (jobs db) = true -> has_guid g (jobs (insertBatch rows db)) = true) /\
    (forall s, has_slug s (jobs db) = true -> has_slug s (jobs (insertBatch rows db)) = true).
Proof.
  unfold insertBatch.
  induction rows as [|job rows IH]; simpl; intros db; [tauto|].
  destruct (IH (insert_job db job)) as [Hg Hs].
  destruct (insert_job_keeps db job) as [Hg' Hs'].
  split; auto.
Qed.

Lemma shadowed_keeps (rows : list Job.t) (g s : string) (db : DB) :
  shadowed g s db = true -> shadowed g s (insertBatch rows db) = true.
Proof.
  unfold shadowed. intros H. destruct (insertBatch_keeps rows db) as [Hg Hs].
  apply orb_true_iff in H. apply orb_true_iff. destruct H; auto.
Qed.

Lemma insertBatch_shadowed (rows : list Job.t) :
  forall db job, In job rows ->
    shadowed (Job.guid job) (Job.slug job) (insertBatch rows db) = true.
Proof.
  induction rows as [|x rows IH]; simpl; intros db job Hin; [contradiction|].
  destruct Hin as [<- | Hin].
  - apply (shadowed_keeps rows), insert_job_shadowed.
  - now apply IH.
Qed.

(** Rows that are all ignored for their slug leave the database as it was. *)
Lemma insertBatch_ignored (rows : list Job.t) (db : DB) :
  (forall job, In job rows ->
     has_guid (Job.guid job) (jobs db) = false /\
     has_slug (Job.slug job) (jobs db) = true) ->
  insertBatch rows db = db.
Proof.
  unfold insertBatch.
  induction rows as [|x rows IH]; simpl; intros H; [reflexivity|].
  destruct (H x (or_introl eq_refl)) as [Hg Hs].
  rewrite (insert_job_ignored db x Hg Hs). apply IH. auto.
Qed.

Lemma insertBatch_app (a b : list Job.t) (db : DB) :
  insertBatch (a ++ b) db = insertBatch b (insertBatch a db).
Proof. apply fold_left_app. Qed.

(** No statement of [insertBatch] deletes from [job_tags]. *)
Lemma insert_job_job_tags (db : DB) (job : Job.t) :
  incl (job_tags db) (job_tags (insert_job db job)).
Proof.
  unfold insert_job.
  assert (Hi : job_tags (stmtInsertJob job db) = job_tags db).
  { unfold stmtInsertJob. now destruct (_ || _). }
  destruct (stmtHasGuid _ _); rewrite <- Hi; [|apply incl_refl].
  apply upsertTagsForJob_jobs.
Qed.

Lemma insertBatch_job_tags (rows : list Job.t) :
  forall db, incl (job_tags db) (job_tags (insertBatch rows db)).
Proof.
  unfold insertBatch.
  induction rows as [|x rows IH]; simpl; intros db; [apply incl_refl|].
  eapply incl_tran; [apply insert_job_job_tags | apply IH].
Qed.

(** The retention step touches [jobs] only, and only by deleting. *)
Lemma retention_tables (db : DB) :
  job_tags (retention db) = job_tags db /\
  tags_table (retention db) = tags_table db /\
  incl (jobs (retention db)) (jobs db).
Proof.
  unfold retention, stmtDeleteOld.
  destruct (_ <? _)%Z; simpl; repeat split; try apply incl_refl.
  intros r Hr. now apply filter_In in Hr.
Qed.

Lemma retention_idle (db : DB) :
  (Z.of_nat (List.length (jobs db)) <= MAX_JOBS)%Z -> retention db = db.
Proof.
  intros H. unfold retention, getCachedCount.
  destruct (Z.ltb_spec MAX_JOBS (Z.of_nat (List.length (jobs db)))); [lia | reflexivity].
Qed.

End Tables.

(* ====================================================================== *)
(** ** The enrichment loop *)
(* ====================================================================== *)

Section Loop.
Context {E : Env}.

(** What one turn does, given the value the rewriter returned. *)
Lemma enrich_step (w : world) (i : nat) (rawJob : Raw.t) (st : loop_state) :
  exists r st',
    rewriteJobRich (ai_reply w i) (job_text_of rawJob) (shouldUseAI st) = Ok r /\
    enrich w i rawJob st = Ok st' /\
    (usedAI r = true -> shouldUseAI st = true) /\
    aiEnhanced st' = (if usedAI r then aiEnhanced st + 1 else aiEnhanced st)%Z /\
    fallbackUsed st' = (if usedAI r then fallbackUsed st else fallbackUsed st + 1)%Z /\
    settled st' = insert_job (settled st) (normalized rawJob r).
Proof.
  destruct (rewriteJobRich_ok (ai_reply w i) (job_text_of rawJob) (shouldUseAI st))
    as (r & Hr & _ & Hused).
  unfold enrich. rewrite Hr. cbn [bind].
  destruct (batchSize <=? _); eexists r, _;
    (split; [reflexivity|]); (split; [reflexivity|]);
    (split; [intros H; now apply Hused|]); cbn [aiEnhanced fallbackUsed];
    (split; [reflexivity|]); (split; [reflexivity|]);
    unfold settled; cbn [processedBatch store].
  - now rewrite insertBatch_app.
  - now rewrite insertBatch_app.
Qed.

Lemma enrich_within_budget (w : world) (i : nat) (rawJob : Raw.t) (st st' : loop_state) :
  enrich w i rawJob st = Ok st' -> within_budget st -> within_budget st'.
Proof.
  intros Hst [H0 HL].
  destruct (enrich_step w i rawJob st) as (r & st2 & _ & Hst2 & Hreq & Hai & _).
  rewrite Hst in Hst2. injection Hst2 as <-.
  unfold within_budget. rewrite Hai.
  destruct (usedAI r); [|now split].
  specialize (Hreq eq_refl). unfold shouldUseAI in Hreq.
  apply orb_true_iff in Hreq. split; [lia|]. intros Hpos.
  destruct Hreq as [Hz | Hlt]; [apply Z.eqb_eq in Hz | apply Z.ltb_lt in Hlt]; lia.
Qed.

(** The loop runs to its end from every state; its counters are those of
    the observations, and the database it leaves, once the waiting rows are
    written, is the one obtained by inserting one row per job in order. *)
Lemma enrich_from_spec (w : world) (todo : list Raw.t) :
  forall i st, within_budget st ->
    exists st' rows,
      enrich_from w i todo st = Ok st' /\
      within_budget st' /\
      List.length (observations w i todo st) = List.length todo /\
      aiEnhanced st' = (aiEnhanced st + count_true (map snd (observations w i todo st)))%Z /\
      (aiEnhanced st' + fallbackUsed st' =
       aiEnhanced st + fallbackUsed st + Z.of_nat (List.length todo))%Z /\
      (AI_PROCESS_LIMIT = 0%Z ->
       Forall (fun o => fst o = true) (observations w i todo st)) /\
      Forall2 row_of todo rows /\
      settled st' = insertBatch rows (settled st).
Proof.
  induction todo as [|rawJob todo IH]; intros i st Hb.
  - exists st, []. cbn. repeat split; try tauto; try lia; try apply Hb; constructor.
  - destruct (enrich_step w i rawJob st) as (r & st1 & Hr & Hst1 & Hreq & Hai & Hfb & Hset).
    pose proof (enrich_within_budget _ _ _ _ _ Hst1 Hb) as Hb1.
    destruct (IH (S i) st1 Hb1) as (st' & rows & Hrun & Hb' & Hlen & Hcount & Hsum & Hzero & Hrows & Hdb).
    exists st', (normalized rawJob r :: rows).
    cbn [enrich_from observations]. rewrite Hst1, Hr. cbn [bind].
    split; [exact Hrun|]. split; [exact Hb'|].
    split; [cbn; now rewrite Hlen|].
    split.
    { rewrite Hcount, Hai. cbn [map snd]. unfold count_true. cbn [filter].
      destruct (usedAI r); cbn [List.length]; lia. }
    split.
    { rewrite Hsum, Hai, Hfb. cbn [List.length]. destruct (usedAI r); lia. }
    split.
    { intros Hz. constructor; [|now apply Hzero].
      cbn. unfold shouldUseAI. rewrite Hz. reflexivity. }
    split.
    { constructor; [|exact Hrows]. split; reflexivity. }
    rewrite Hdb, Hset. reflexivity.
Qed.

Lemma initial_within_budget (db : DB) : within_budget (mkLoop 0 0 [] db).
Proof. unfold within_budget. cbn. split; lia. Qed.


(** The end handler completes and leaves the database obtained by inserting
    one row per matched job, in order. *)
Lemma on_end_spec (w : world) (matched_jobs : list Raw.t) (db : DB) :
  exists st rows,
    on_end w matched_jobs db = Ok st /\
    Forall2 row_of matched_jobs rows /\
    store st = insertBatch rows db.
Proof.
  destruct (enrich_from_spec w matched_jobs 0 (mkLoop 0 0 [] db) (initial_within_budget db))
    as (st & rows & Hrun & _ & _ & _ & _ & _ & Hrows & Hdb).
  unfold on_end. rewrite Hrun. cbn [bind].
  unfold settled in Hdb. cbn [processedBatch store insertBatch fold_left] in Hdb.
  destruct (processedBatch st) as [|x pending] eqn:Hp.
  - exists st, rows. split; [reflexivity|]. split; [exact Hrows|].
    rewrite <- Hdb. reflexivity.
  - eexists _, rows. split; [reflexivity|]. split; [exact Hrows|].
    cbn [store]. rewrite <- Hdb. reflexivity.
Qed.

Lemma row_of_In (todo : list Raw.t) (rows : list Job.t) :
  Forall2 row_of todo rows ->
  (forall x, In x todo -> exists job, In job rows /\ row_of x job) /\
  (forall job, In job rows -> exists x, In x todo /\ row_of x job).
Proof.
  induction 1 as [|x job todo rows Hxy _ [IH1 IH2]]; split; simpl; try tauto.
  - intros z [<- | Hz]; [exists job; tauto|].
    destruct (IH1 z Hz) as (j' & Hj & Hr). exists j'. tauto.
  - intros z [<- | Hz]; [exists x; tauto|].
    destruct (IH2 z Hz) as (x' & Hx & Hr). exists x'. tauto.
Qed.




End Loop.


(* ====================================================================== *)
(** ** The parser callbacks *)
(* ====================================================================== *)

Section Parser.
Context {E : Env}.

(** Only jobs whose guid is not stored reach the batch. *)
Lemma on_event_fresh (w : world) (db : DB) (tick : nat) (e : sax_event) (st : parser_state) :
  Forall (fun x => stmtHasGuid (Raw.guid x) db = None) (batch st) ->
  Forall (fun x => stmtHasGuid (Raw.guid x) db = None) (batch (on_event w db tick e st)).
Proof.
  intros H. destruct e as [n|t|t|n]; cbn; try exact H.
  unfold on_closetag. destruct (currentItem st) as [it|]; [|exact H].
  destruct (is_item_tag _); [|exact H].
  destruct (stmtHasGuid _ db) eqn:Hg; [exact H|].
  destruct (negb _); [exact H|].
  cbn. apply Forall_app. split; [exact H|]. constructor; [exact Hg | constructor].
Qed.

Lemma parse_fresh (w : world) (db : DB) (events : list sax_event) :
  forall tick st,
    Forall (fun x => stmtHasGuid (Raw.guid x) db = None) (batch st) ->
    Forall (fun x => stmtHasGuid (Raw.guid x) db = None) (batch (parse w db tick events st)).
Proof.
  induction events as [|e events IH]; intros tick st H; [exact H|].
  cbn. apply IH. now apply on_event_fresh.
Qed.

Lemma assign_field_same (tagName txt : string) (a b : Item.t) :
  same_item (Some a) (Some b) ->
  same_item (Some (assign_field tagName txt a)) (Some (assign_field tagName txt b)).
Proof.
  intros (Ht & Hd & Hc & Hl & Hg). unfold assign_field. rewrite Hg.
  repeat match goal with
         | |- context [if ?c then _ else _] => destruct c
         end; cbn; tauto.
Qed.

(** One event keeps the run over the larger database behind the run over
    the smaller one. *)
Lemma on_event_follows (w1 w2 : world) (db1 db2 : DB) (t1 t2 : nat) (e : sax_event)
    (a b : parser_state) :
  (forall g, stmtHasGuid g db2 = None -> stmtHasGuid g db1 = None) ->
  follows a b ->
  follows (on_event w1 db1 t1 e a) (on_event w2 db2 t2 e b).
Proof.
  intros Hdb (Hitem & Htext & Hcount & Hbatch).
  destruct e as [n|t|t|n]; cbn.
  - unfold on_opentag, follows. cbn.
    destruct (is_item_tag _); cbn; repeat split; auto.
  - unfold on_text, follows. cbn. rewrite Htext. repeat split; auto.
  - unfold on_text, follows. cbn. rewrite Htext. repeat split; auto.
  - unfold on_closetag.
    destruct (currentItem a) as [ia|] eqn:Ha, (currentItem b) as [ib|] eqn:Hb;
      cbn in Hitem; try contradiction.
    2:{ unfold follows. rewrite Ha, Hb. cbn. tauto. }
    rewrite <- Htext, <- Hcount.
    pose proof (assign_field_same (toLowerCase n) (currentText a) ia ib Hitem) as Hsame.
    set (xa := assign_field (toLowerCase n) (currentText a) ia) in *.
    set (xb := assign_field (toLowerCase n) (currentText a) ib) in *.
    destruct Hsame as (Ht & Hd & Hc & Hl & Hg).
    destruct (is_item_tag _).
    2:{ unfold follows. cbn. tauto. }
    assert (Hguid : item_guid xb (S (processed a)) = item_guid xa (S (processed a))).
    { unfold item_guid. now rewrite Hg, Hl. }
    rewrite Hguid, <- Ht, <- Hc, <- Hd.
    destruct (stmtHasGuid _ db2) eqn:H2.
    { (* stored already for the second run: skipped there *)
      unfold follows.
      destruct (stmtHasGuid _ db1); [|destruct (negb _)]; cbn;
        repeat split; try tauto.
      intros y Hy. destruct (Hbatch y Hy) as (x & Hx & Hk).
      exists x. split; [apply in_or_app; now left | exact Hk]. }
    rewrite (Hdb _ H2).
    destruct (negb _); unfold follows; cbn; repeat split; try tauto.
    intros y Hy. apply in_app_or in Hy. destruct Hy as [Hy | [<- | []]].
    + destruct (Hbatch y Hy) as (x & Hx & Hk).
      exists x. split; [apply in_or_app; now left | exact Hk].
    + eexists. split; [apply in_or_app; right; now left|].
      unfold same_key. cbn. tauto.
Qed.

Lemma parse_follows (w1 w2 : world) (db1 db2 : DB) (events : list sax_event) :
  (forall g, stmtHasGuid g db2 = None -> stmtHasGuid g db1 = None) ->
  forall t1 t2 a b,
    follows a b ->
    follows (parse w1 db1 t1 events a) (parse w2 db2 t2 events b).
Proof.
  intros Hdb. induction events as [|e events IH]; intros t1 t2 a b H; [exact H|].
  cbn. apply IH. now apply on_event_follows.
Qed.

Lemma same_key_slug (x y : Raw.t) : same_key x y -> job_slug x = job_slug y.
Proof. intros (Hg & Ht & Hc). unfold job_slug. now rewrite Hg, Ht, Hc. Qed.

End Parser.

(* ====================================================================== *)
(** ** Runs of the pipeline *)
(* ====================================================================== *)

Section Runs.
Context {E : Env}.

Lemma follows_init : follows parser_init parser_init.
Proof. unfold follows, parser_init. cbn. repeat split; auto. intros y []. Qed.

(** What [ingest] returns is the database with one row per matched job
    inserted in order. *)
Lemma ingest_spec (w : world) (events : list sax_event) (db : DB) :
  exists rows,
    ingest w events db = Ok (insertBatch rows db) /\
    Forall2 row_of (batch (parse w db 0 events parser_init)) rows.
Proof.
  destruct (on_end_spec w (batch (parse w db 0 events parser_init)) db)
    as (st & rows & Hend & Hrows & Hdb).
  exists rows. unfold ingest. rewrite Hend. cbn [bind]. now rewrite Hdb.
Qed.

(** C1, amended -- Idempotent ingestion.  If the first run ends with at most
    [MAX_JOBS] stored jobs, so that its retention step evicts nothing, then
    a second run over the same feed, whatever the clock and the AI service
    do, completes and leaves the tables [jobs], [tags] and [job_tags] as the
    first run left them: each matched job is skipped by the existence check
    or its insert is ignored. *)
Theorem second_run_changes_nothing (w1 w2 : world) (events : list sax_event)
    (db0 db1 : DB) :
  ingest w1 events db0 = Ok db1 ->
  (Z.of_nat (List.length (jobs db1)) <= MAX_JOBS)%Z ->
  processFeed w1 events db0 = Ok db1 /\
  exists db2,
    processFeed w2 events db1 = Ok db2 /\
    jobs db2 = jobs db1 /\ tags_table db2 = tags_table db1 /\ job_tags db2 = job_tags db1.
Proof.
  intros Hrun1 Hroom.
  split.
  { unfold processFeed. rewrite Hrun1. cbn [bind]. now rewrite retention_idle. }
  destruct (ingest_spec w1 events db0) as (rows1 & Hi1 & Hrows1).
  rewrite Hrun1 in Hi1. injection Hi1 as Hdb1.
  destruct (ingest_spec w2 events db1) as (rows2 & Hi2 & Hrows2).
  assert (Hsame : insertBatch rows2 db1 = db1).
  { apply insertBatch_ignored. intros job Hjob.
    destruct (row_of_In _ _ Hrows2) as [_ Hback].
    destruct (Hback job Hjob) as (y & Hy & Hgy & Hsy).
    pose proof (parse_fresh w2 db1 events 0 parser_init (Forall_nil _)) as Hfresh.
    rewrite Forall_forall in Hfresh. specialize (Hfresh y Hy).
    apply stmtHasGuid_None in Hfresh.
    split; [now rewrite Hgy|].
    assert (Hgrow : forall g, stmtHasGuid g db1 = None -> stmtHasGuid g db0 = None).
    { intros g Hg. apply stmtHasGuid_None. apply stmtHasGuid_None in Hg.
      destruct (has_guid g (jobs db0)) eqn:H0; [|reflexivity].
      destruct (insertBatch_keeps rows1 db0) as [Hkeep _].
      apply Hkeep in H0. rewrite <- Hdb1 in H0. congruence. }
    destruct (parse_follows w1 w2 db0 db1 events Hgrow 0 0 _ _ follows_init)
      as (_ & _ & _ & Hsub).
    destruct (Hsub y Hy) as (x & Hx & Hkey).
    destruct (row_of_In _ _ Hrows1) as [Hforth _].
    destruct (Hforth x Hx) as (job1 & Hjob1 & Hgx & Hsx).
    pose proof (insertBatch_shadowed rows1 db0 job1 Hjob1) as Hsh.
    rewrite <- Hdb1 in Hsh. unfold shadowed in Hsh.
    destruct Hkey as (Hkg & Hkt & Hkc).
    rewrite Hgx, Hkg, Hfresh in Hsh. cbn [orb] in Hsh.
    rewrite Hsy, <- (same_key_slug x y), <- Hsx; [exact Hsh|].
    now repeat split. }
  rewrite Hsame in Hi2.
  exists db1. unfold processFeed. rewrite Hi2. cbn [bind].
  rewrite retention_idle by exact Hroom. now repeat split.
Qed.

Lemma insert_job_slug (db : DB) (job : Job.t) :
  has_guid (Job.guid job) (jobs db) = false ->
  has_slug (Job.slug job) (jobs (insert_job db job)) = true.
Proof.
  intros Hg. rewrite insert_job_jobs. unfold stmtInsertJob. rewrite Hg. cbn [orb].
  destruct (has_slug _ (jobs db)) eqn:Hs; [exact Hs|].
  cbn [jobs]. rewrite has_slug_app. cbn. now rewrite String.eqb_refl, orb_true_r.
Qed.

Lemma insert_job_other_guid (db : DB) (job : Job.t) (g : string) :
  g <> Job.guid job ->
  has_guid g (jobs db) = false ->
  has_guid g (jobs (insert_job db job)) = false.
Proof.
  intros Hne Hg. rewrite insert_job_jobs.
  destruct (stmtInsertJob_rows job db) as [-> | [i ->]]; [exact Hg|].
  rewrite has_guid_app, Hg. cbn.
  destruct (String.eqb_spec (Job.guid job) g); [congruence | reflexivity].
Qed.

(** C6 -- Slug uniqueness, on the code: two matched jobs with the same title
    and company are given the same slug whenever the slug of
    [title-company] is not empty, whatever their guids and time stamps; the
    insert of the second one is then ignored, so the table holds the same
    rows as if the second job had not been there, and no row with its guid. *)
Theorem same_title_same_slug (x y : Raw.t) (rx ry : rewritten) (db : DB) :
  Raw.rawTitle x = Raw.rawTitle y ->
  Raw.rawCompany x = Raw.rawCompany y ->
  Raw.guid x <> Raw.guid y ->
  mkSlug (Raw.rawTitle x +:+ "-" +:+ Raw.rawCompany x) <> "" ->
  has_guid (Raw.guid x) (jobs db) = false ->
  has_guid (Raw.guid y) (jobs db) = false ->
  job_slug x = job_slug y /\
  jobs (insertBatch [normalized x rx; normalized y ry] db) =
  jobs (insertBatch [normalized x rx] db) /\
  has_guid (Raw.guid y) (jobs (insertBatch [normalized x rx; normalized y ry] db)) = false.
Proof.
  intros Ht Hc Hg Hslug Hx Hy.
  assert (Hsame : job_slug x = job_slug y).
  { unfold job_slug, or_else. rewrite <- Ht, <- Hc.
    apply truthy_true in Hslug. now rewrite Hslug. }
  split; [exact Hsame|].
  unfold insertBatch. cbn [fold_left].
  set (d := insert_job db (normalized x rx)).
  assert (Hs : has_slug (Job.slug (normalized y ry)) (jobs d) = true).
  { cbn [normalized Job.slug]. rewrite <- Hsame.
    apply (insert_job_slug db (normalized x rx)). exact Hx. }
  assert (Hgy : has_guid (Job.guid (normalized y ry)) (jobs d) = false).
  { apply insert_job_other_guid; [cbn; congruence | exact Hy]. }
  rewrite (insert_job_ignored d (normalized y ry) Hgy Hs).
  split; [reflexivity | exact Hgy].
Qed.

(** C7, amended -- JobTag lifecycle.  Every run completes and ends with the
    retention step applied to what the BatchWriter stored.  That step
    deletes rows of [jobs] only: [job_tags] is left as the BatchWriter left
    it, and every [job_tags] row present before the run is still present
    after it, whether or not its job was evicted. *)
Theorem job_tags_outlive_eviction (w : world) (events : list sax_event) (db : DB) :
  exists stored final,
    ingest w events db = Ok stored /\
    processFeed w events db = Ok final /\
    final = retention stored /\
    job_tags final = job_tags stored /\
    incl (jobs final) (jobs stored) /\
    incl (job_tags db) (job_tags final).
Proof.
  destruct (ingest_spec w events db) as (rows & Hi & _).
  exists (insertBatch rows db), (retention (insertBatch rows db)).
  destruct (retention_tables (insertBatch rows db)) as (Hjt & _ & Hjobs).
  split; [exact Hi|].
  split; [unfold processFeed; now rewrite Hi|].
  split; [reflexivity|]. split; [exact Hjt|]. split; [exact Hjobs|].
  rewrite Hjt. apply insertBatch_job_tags.
Qed.

End Runs.

(** Witness of [second_run_changes_nothing]: the default bound of 1000 jobs
    and a feed of two. *)
Lemma second_run_changes_nothing_witness :
  @processFeed Demo.offline Demo.quiet two_drivers empty_db = Ok stored_two_drivers /\
  exists db2,
    @processFeed Demo.offline Demo.quiet two_drivers stored_two_drivers = Ok db2 /\
    jobs db2 = jobs stored_two_drivers /\
    tags_table db2 = tags_table stored_two_drivers /\
    job_tags db2 = job_tags stored_two_drivers.
Proof.
  apply (@second_run_changes_nothing Demo.offline Demo.quiet Demo.quiet
           two_drivers empty_db stored_two_drivers).
  - vm_compute. reflexivity.
  - vm_compute. discriminate.
Defined.

(** C1, as worded, fails: with [MAX_JOBS = 1] and two matched items of the
    same publication time, the first run keeps the job stored last; the
    second run stores the evicted job again, under a new id, and the
    retention step now keeps that one. *)
Lemma second_run_swaps_rows :
  ~ @idempotent_ingestion Demo.tiny Demo.quiet Demo.quiet two_drivers empty_db.
Proof.
  intros H.
  destruct (@processFeed Demo.tiny Demo.quiet two_drivers empty_db) as [db1|m] eqn:H1;
    [|vm_compute in H1; discriminate H1].
  destruct (@processFeed Demo.tiny Demo.quiet two_drivers db1) as [db2|m] eqn:H2.
  - specialize (H db1 db2 H1 H2).
    vm_compute in H1. injection H1 as <-.
    vm_compute in H2. injection H2 as <-.
    vm_compute in H. discriminate H.
  - vm_compute in H1. injection H1 as <-. vm_compute in H2. discriminate H2.
Qed.

(** The two tables of that counterexample, by guid and id. *)
Example tiny_store_after_two_runs :
  exists db1 db2,
    @processFeed Demo.tiny Demo.quiet two_drivers empty_db = Ok db1 /\
    @processFeed Demo.tiny Demo.quiet two_drivers db1 = Ok db2 /\
    map (fun r => (id r, Job.guid (cols r))) (jobs db1) = [(2%Z, "g2")] /\
    map (fun r => (id r, Job.guid (cols r))) (jobs db2) = [(3%Z, "g1")].
Proof.
  destruct (@processFeed Demo.tiny Demo.quiet two_drivers empty_db) as [db1|m] eqn:H1;
    [|vm_compute in H1; discriminate H1].
  vm_compute in H1. injection H1 as <-.
  eexists _, _. split; [reflexivity|].
  split; [vm_compute; reflexivity|]. split; reflexivity.
Qed.

(** Witness of [same_title_same_slug]. *)
Lemma same_title_same_slug_witness :
  @job_slug Demo.offline Demo.first_posting = @job_slug Demo.offline Demo.second_posting /\
  jobs (@insertBatch Demo.offline
          [ @normalized Demo.offline Demo.first_posting Demo.plain_rewrite;
            @normalized Demo.offline Demo.second_posting Demo.plain_rewrite ] empty_db) =
  jobs (@insertBatch Demo.offline
          [ @normalized Demo.offline Demo.first_posting Demo.plain_rewrite ] empty_db) /\
  has_guid (Raw.guid Demo.second_posting)
    (jobs (@insertBatch Demo.offline
             [ @normalized Demo.offline Demo.first_posting Demo.plain_rewrite;
               @normalized Demo.offline Demo.second_posting Demo.plain_rewrite ] empty_db)) = false.
Proof.
  apply (@same_title_same_slug Demo.offline Demo.first_posting Demo.second_posting
           Demo.plain_rewrite Demo.plain_rewrite empty_db).
  - reflexivity.
  - reflexivity.
  - cbn. discriminate.
  - vm_compute. discriminate.
  - reflexivity.
  - reflexivity.
Defined.

(** The whole pipeline on a feed of two items with the same title and
    company: one row is stored, the one of the first item. *)
Example same_title_twice_one_job :
  exists db,
    @processFeed Demo.offline Demo.quiet same_title_twice empty_db = Ok db /\
    map (fun r => (Job.guid (cols r), Job.slug (cols r))) (jobs db) =
    [("g1", "motorista-ce-acme")].
Proof.
  eexists. split; [vm_compute; reflexivity | reflexivity].
Qed.

(** C7, as worded, fails: with [MAX_JOBS = 1] the run over two matched items
    evicts the job with id 1 and leaves its row [(1, 1)] in [job_tags]. *)
Lemma evicted_job_keeps_its_tags :
  ~ @eviction_cascades Demo.tiny Demo.quiet two_drivers empty_db.
Proof.
  intros H.
  destruct (@processFeed Demo.tiny Demo.quiet two_drivers empty_db) as [db1|m] eqn:H1;
    [|vm_compute in H1; discriminate H1].
  specialize (H eq_refl db1 H1).
  vm_compute in H1. injection H1 as <-.
  vm_compute in H. discriminate H.
Qed.

(** The tables of that counterexample. *)
Example tiny_store_orphan_row :
  exists db,
    @processFeed Demo.tiny Demo.quiet two_drivers empty_db = Ok db /\
    map id (jobs db) = [2%Z] /\
    job_tags db = [(1%Z, 1%Z); (2%Z, 1%Z)].
Proof.
  eexists. split; [vm_compute; reflexivity | split; reflexivity].
Qed.

(* ====================================================================== *)
(** ** The sanitizer on the fallback skeleton *)
(* ====================================================================== *)

Section Sanitizer.
Context {E : Env}.

Lemma suffix_refl (l : list ascii) : suffix l l.
Proof. now exists []. Qed.

Lemma suffix_trans (a b c : list ascii) : suffix a b -> suffix b c -> suffix a c.
Proof. intros [p ->] [q ->]. exists (q ++ p). now rewrite app_assoc. Qed.

Lemma advance_rest (p p1 : Regex.pos) (c : ascii) :
  Regex.advance p = Some (c, p1) -> Regex.rest p = c :: Regex.rest p1.
Proof.
  unfold Regex.advance. destruct (Regex.rest p) as [|x l]; [discriminate|].
  intros H. injection H as <- <-. reflexivity.
Qed.

(** Wherever the matcher calls its continuation, it has moved forward in
    the subject. *)
Lemma run_suffix (r : Regex.regex) :
  forall p cap k o,
    Regex.run r p cap k = Some o ->
    exists p' cap', k p' cap' = Some o /\ suffix (Regex.rest p') (Regex.rest p).
Proof.
  induction r as [|f|r1 IH1 r2 IH2|r1 IH1 r2 IH2|g r1 IH1|r1 IH1| | |r1 IH1];
    intros p cap k o H; cbn [Regex.run] in H.
  - exists p, cap. split; [exact H | apply suffix_refl].
  - destruct (Regex.advance p) as [[c p1]|] eqn:Ha; [|discriminate].
    destruct (f c); [|discriminate].
    exists p1, cap. split; [exact H|]. exists [c]. now apply advance_rest.
  - destruct (IH1 _ _ _ _ H) as (p1 & c1 & H1 & S1).
    destruct (IH2 _ _ _ _ H1) as (p2 & c2 & H2 & S2).
    exists p2, c2. split; [exact H2 | eapply suffix_trans; eassumption].
  - destruct (Regex.run r1 p cap k) eqn:H1.
    + injection H as <-. now apply IH1 in H1.
    + now apply IH2 in H.
  - revert o H. generalize (List.length (Regex.rest p)). intros fuel.
    revert p cap. induction fuel as [|fuel IHf]; intros p cap o H;
      cbn [Regex.iterate] in H.
    + exists p, cap. split; [exact H | apply suffix_refl].
    + assert (Hmore : forall x,
                Regex.run r1 p cap
                  (fun p' cap' =>
                     if List.length (Regex.rest p') <? List.length (Regex.rest p)
                     then Regex.iterate (Regex.run r1) g k fuel p' cap'
                     else None) = Some x ->
                exists p' cap', k p' cap' = Some x /\ suffix (Regex.rest p') (Regex.rest p)).
      { intros x Hx. apply IH1 in Hx. destruct Hx as (p1 & c1 & H1 & S1).
        destruct (_ <? _); [|discriminate].
        apply IHf in H1. destruct H1 as (p2 & c2 & H2 & S2).
        exists p2, c2. split; [exact H2 | eapply suffix_trans; eassumption]. }
      destruct g.
      * match type of H with
        | match ?m with _ => _ end = _ => destruct m eqn:Hm
        end.
        -- injection H as <-. now apply Hmore.
        -- exists p, cap. split; [exact H | apply suffix_refl].
      * destruct (k p cap) eqn:Hk.
        -- injection H as <-. exists p, cap. split; [exact Hk | apply suffix_refl].
        -- now apply Hmore.
  - destruct (Regex.run r1 p cap _); [discriminate|].
    exists p, cap. split; [exact H | apply suffix_refl].
  - destruct (xorb _ _); [|discriminate].
    exists p, cap. split; [exact H | apply suffix_refl].
  - destruct (Regex.rest p) eqn:Hr; [|discriminate].
    exists p, cap. split; [exact H|]. rewrite Hr. apply suffix_refl.
  - apply IH1 in H. destruct H as (p1 & c1 & H1 & S1).
    eexists p1, _. split; [exact H1 | exact S1].
Qed.

Lemma match_at_suffix (r : Regex.regex) (p p' : Regex.pos) (cap : option (list ascii)) :
  Regex.match_at r p = Some (p', cap) -> suffix (Regex.rest p') (Regex.rest p).
Proof.
  unfold Regex.match_at. intros H. apply run_suffix in H.
  destruct H as (p1 & c1 & H1 & S1). now injection H1 as <- <-.
Qed.

(** A pattern that starts with a character class matches only where the
    subject has a character of that class. *)
Lemma run_first (r : Regex.regex) :
  forall f, first_class r = Some f ->
  forall p cap k o, Regex.run r p cap k = Some o ->
  exists c l, Regex.rest p = c :: l /\ f c = true.
Proof.
  induction r as [|f0|r1 IH1 r2 IH2|r1 IH1 r2 IH2|g r1 IH1|r1 IH1| | |r1 IH1];
    intros f Hf p cap k o H; cbn in Hf; try discriminate.
  - injection Hf as <-. cbn [Regex.run] in H.
    destruct (Regex.advance p) as [[c p1]|] eqn:Ha; [|discriminate].
    destruct (f0 c) eqn:Hc; [|discriminate].
    exists c, (Regex.rest p1). split; [now apply advance_rest | exact Hc].
  - cbn [Regex.run] in H. exact (IH1 f Hf _ _ _ _ H).
Qed.

Lemma only_plain_tags_suffix (l' l : list ascii) :
  suffix l' l -> only_plain_tags l = true -> only_plain_tags l' = true.
Proof.
  intros [pre ->]. induction pre as [|c pre IH]; cbn [app only_plain_tags]; [trivial|].
  intros H. apply andb_true_iff in H. now apply IH.
Qed.

Lemma plain_tags_unbroken :
  forall b, In b plain_tags -> forallb (fun x => negb (breaks x)) b = true.
Proof. apply forallb_forall. reflexivity. Qed.

(** Deleting the matches of a pattern that begins at a blank or at an
    opening bracket keeps the text within the plain tags, and keeps in place
    whatever the text starts with up to the first such character. *)
Lemma delete_all_plain (r : Regex.regex) :
  begins_at_break r ->
  forall fuel p,
    only_plain_tags (Regex.rest p) = true ->
    only_plain_tags (Regex.delete_all r fuel p) = true /\
    forall b, forallb (fun x => negb (breaks x)) b = true ->
              prefix_of b (Regex.rest p) = true ->
              prefix_of b (Regex.delete_all r fuel p) = true.
Proof.
  intros (f & Hf & Hbreak).
  induction fuel as [|fuel IH]; intros p Hp; cbn [Regex.delete_all]; [now split|].
  assert (Hemit :
    match Regex.advance p with
    | Some (c, p1) =>
        only_plain_tags (c :: Regex.delete_all r fuel p1) = true /\
        forall b, forallb (fun x => negb (breaks x)) b = true ->
                  prefix_of b (Regex.rest p) = true ->
                  prefix_of b (c :: Regex.delete_all r fuel p1) = true
    | None =>
        forall b, prefix_of b (Regex.rest p) = true -> prefix_of b [] = true
    end).
  { destruct (Regex.advance p) as [[c p1]|] eqn:Ha.
    - pose proof (advance_rest _ _ _ Ha) as Hr. rewrite Hr in Hp |- *.
      cbn [only_plain_tags] in Hp. apply andb_true_iff in Hp. destruct Hp as [Hc Hl].
      destruct (IH p1 Hl) as [Hclean Hkeep].
      split.
      + cbn [only_plain_tags]. rewrite Hclean, andb_true_r.
        destruct (Ascii.eqb c "<"); [|reflexivity].
        unfold opens_plain_tag in *. apply existsb_exists in Hc.
        destruct Hc as (b & Hb & Hpre). apply existsb_exists. exists b.
        split; [exact Hb|]. apply Hkeep; [now apply plain_tags_unbroken | exact Hpre].
      + intros [|x b] Hb Hpre; [reflexivity|].
        cbn in Hb, Hpre |- *. apply andb_true_iff in Hb, Hpre.
        destruct Hb as [_ Hb], Hpre as [-> Hpre]. now apply Hkeep.
    - unfold Regex.advance in Ha. destruct (Regex.rest p); [trivial | discriminate]. }
  destruct (Regex.match_at r p) as [[p' cap]|] eqn:Hm.
  2:{ destruct (Regex.advance p) as [[c p1]|]; [exact Hemit|].
      split; [reflexivity|]. intros b _. apply Hemit. }
  destruct (_ <? _).
  2:{ destruct (Regex.advance p) as [[c p1]|]; [exact Hemit|].
      split; [reflexivity|]. intros b _. apply Hemit. }
  pose proof (match_at_suffix _ _ _ _ Hm) as Hsuf.
  destruct (IH p' (only_plain_tags_suffix _ _ Hsuf Hp)) as [Hclean Hkeep].
  split; [exact Hclean|].
  intros [|x b] Hb Hpre; [reflexivity|].
  unfold Regex.match_at in Hm.
  destruct (run_first r f Hf _ _ _ _ Hm) as (c & l & Hr & Hc).
  rewrite Hr in Hpre. cbn in Hb, Hpre.
  apply andb_true_iff in Hb, Hpre. destruct Hb as [Hx _], Hpre as [Hxc _].
  apply Ascii.eqb_eq in Hxc. subst x.
  rewrite (Hbreak c Hc) in Hx. discriminate.
Qed.

Lemma remove_plain (r : Regex.regex) (s : string) :
  begins_at_break r ->
  only_plain_tags (chars s) = true ->
  only_plain_tags (chars (Regex.remove r s)) = true.
Proof.
  intros Hr Hs. unfold Regex.remove, chars, str.
  rewrite list_ascii_of_string_of_list_ascii.
  now apply (delete_all_plain r Hr).
Qed.

Ltac first_char_breaks :=
  eexists; split; [reflexivity|];
  let c := fresh "c" in
  intros c; destruct c as [[] [] [] [] [] [] [] []]; vm_compute;
  intros; (reflexivity || discriminate).

Lemma re_script_begins : begins_at_break re_script.
Proof. first_char_breaks. Qed.

Lemma re_embedding_tag_begins : begins_at_break re_embedding_tag.
Proof. first_char_breaks. Qed.

Lemma re_on_quoted_begins : begins_at_break re_on_quoted.
Proof. first_char_breaks. Qed.

Lemma re_on_bare_begins : begins_at_break re_on_bare.
Proof. first_char_breaks. Qed.

Lemma re_js_uri_quoted_begins : begins_at_break re_js_uri_quoted.
Proof. first_char_breaks. Qed.

Lemma re_js_uri_bare_begins : begins_at_break re_js_uri_bare.
Proof. first_char_breaks. Qed.

(** On a text within the plain tags [sanitizeHtml] stays within them. *)
Lemma sanitizeHtml_plain (s : string) :
  only_plain_tags (chars s) = true -> only_plain_tags (chars (sanitizeHtml s)) = true.
Proof.
  intros H. unfold sanitizeHtml. destruct (negb (truthy s)); [reflexivity|].
  apply remove_plain; [apply re_js_uri_bare_begins|].
  apply remove_plain; [apply re_js_uri_quoted_begins|].
  apply remove_plain; [apply re_on_bare_begins|].
  apply remove_plain; [apply re_on_quoted_begins|].
  apply remove_plain; [apply re_embedding_tag_begins|].
  apply remove_plain; [apply re_script_begins | exact H].
Qed.

Lemma chars_app (a b : string) : chars (a +:+ b) = chars a ++ chars b.
Proof. unfold chars. induction a as [|c a IH]; cbn; [reflexivity | now rewrite IH]. Qed.

Lemma prefix_of_app (b l x : list ascii) :
  prefix_of b l = true -> prefix_of b (l ++ x) = true.
Proof.
  revert l. induction b as [|c b IH]; intros [|d l]; cbn; try easy.
  intros H. apply andb_true_iff in H. destruct H as [-> H]. now apply IH.
Qed.

Lemma only_plain_tags_app (a b : list ascii) :
  only_plain_tags a = true -> only_plain_tags b = true -> only_plain_tags (a ++ b) = true.
Proof.
  intros Ha Hb. induction a as [|c a IH]; cbn [app only_plain_tags]; [exact Hb|].
  cbn [only_plain_tags] in Ha. apply andb_true_iff in Ha. destruct Ha as [Hc Ha].
  rewrite (IH Ha), andb_true_r.
  destruct (Ascii.eqb c "<"); [|reflexivity].
  unfold opens_plain_tag in *. apply existsb_exists in Hc.
  destruct Hc as (t & Ht & Hpre). apply existsb_exists. exists t.
  split; [exact Ht | now apply prefix_of_app].
Qed.

Lemma plain_app (a b : string) :
  only_plain_tags (chars a) = true -> only_plain_tags (chars b) = true ->
  only_plain_tags (chars (a +:+ b)) = true.
Proof. intros. rewrite chars_app. now apply only_plain_tags_app. Qed.

Lemma chars_cons (c : ascii) (s : string) : chars (String c s) = c :: chars s.
Proof. reflexivity. Qed.

Lemma escape_char_plain (c : ascii) : only_plain_tags (chars (escape_char c)) = true.
Proof.
  unfold escape_char.
  destruct (Ascii.eqb c "&"); [reflexivity|].
  destruct (Ascii.eqb c "<") eqn:Hlt; [reflexivity|].
  destruct (Ascii.eqb c ">"); [reflexivity|].
  destruct (Ascii.eqb c dquote); [reflexivity|].
  destruct (Ascii.eqb c "'"); [reflexivity|].
  rewrite chars_cons. cbn [only_plain_tags chars list_ascii_of_string].
  now rewrite Hlt.
Qed.

Lemma escapeHtml_plain (s : string) : only_plain_tags (chars (escapeHtml s)) = true.
Proof.
  induction s as [|c s IH]; cbn [escapeHtml]; [reflexivity|].
  apply plain_app; [apply escape_char_plain | exact IH].
Qed.

Lemma join_plain (sep : string) (l : list string) :
  only_plain_tags (chars sep) = true ->
  Forall (fun x => only_plain_tags (chars x) = true) l ->
  only_plain_tags (chars (join sep l)) = true.
Proof.
  intros Hsep. induction 1 as [|x l Hx Hl IH]; [reflexivity|].
  cbn [join]. destruct l as [|y l]; [exact Hx|].
  apply plain_app; [exact Hx|]. apply plain_app; [exact Hsep | exact IH].
Qed.

Lemma trimStart_plain (s : string) :
  only_plain_tags (chars s) = true -> only_plain_tags (chars (trimStart s)) = true.
Proof.
  induction s as [|c s IH]; [trivial|].
  cbn [trimStart]. intros H. destruct (is_space c); [|exact H].
  rewrite chars_cons in H. cbn [only_plain_tags] in H.
  apply andb_true_iff in H. now apply IH.
Qed.

Lemma trimEnd_solid_head (c : ascii) (s : string) :
  is_space c = false -> trimEnd (String c s) = String c (trimEnd s).
Proof. intros Hc. cbn. destruct (trimEnd s); [now rewrite Hc | reflexivity]. Qed.

Lemma prefix_of_trimEnd (b : list ascii) :
  forallb (fun x => negb (breaks x)) b = true ->
  forall s, prefix_of b (chars s) = true -> prefix_of b (chars (trimEnd s)) = true.
Proof.
  induction b as [|x b IH]; intros Hb [|c s] Hpre; try easy.
  rewrite chars_cons in Hpre. cbn [forallb prefix_of] in Hb, Hpre.
  apply andb_true_iff in Hb, Hpre.
  destruct Hb as [Hx Hb], Hpre as [Hxc Hpre]. apply Ascii.eqb_eq in Hxc. subst c.
  unfold breaks in Hx. apply negb_true_iff, orb_false_iff in Hx.
  rewrite trimEnd_solid_head by tauto.
  rewrite chars_cons. cbn [prefix_of]. rewrite Ascii.eqb_refl. now apply IH.
Qed.

Lemma trimEnd_plain (s : string) :
  only_plain_tags (chars s) = true -> only_plain_tags (chars (trimEnd s)) = true.
Proof.
  induction s as [|c s IH]; [trivial|].
  intros H. rewrite chars_cons in H. cbn [only_plain_tags] in H.
  apply andb_true_iff in H. destruct H as [Hc Hs].
  specialize (IH Hs).
  assert (Hkeep : only_plain_tags (chars (String c (trimEnd s))) = true).
  { rewrite chars_cons. cbn [only_plain_tags]. rewrite IH, andb_true_r.
    destruct (Ascii.eqb c "<"); [|reflexivity].
    unfold opens_plain_tag in *. apply existsb_exists in Hc.
    destruct Hc as (t & Ht & Hpre). apply existsb_exists. exists t.
    split; [exact Ht|]. apply prefix_of_trimEnd; [now apply plain_tags_unbroken | exact Hpre]. }
  destruct (is_space c) eqn:Hsp.
  - cbn [trimEnd]. rewrite Hsp.
    destruct (trimEnd s) eqn:Ht; [reflexivity | exact Hkeep].
  - rewrite trimEnd_solid_head by exact Hsp. exact Hkeep.
Qed.

Lemma trim_plain (s : string) :
  only_plain_tags (chars s) = true -> only_plain_tags (chars (trim s)) = true.
Proof. intros H. unfold trim. now apply trimEnd_plain, trimStart_plain. Qed.

Lemma fallbackHTML_plain (plain : string) :
  only_plain_tags (chars (fallbackHTML plain)) = true.
Proof.
  unfold fallbackHTML. apply trim_plain.
  apply plain_app; [reflexivity|].
  apply plain_app; [|reflexivity].
  unfold or_else. destruct (truthy _); [|reflexivity].
  apply join_plain; [reflexivity|].
  apply Forall_forall. intros x Hx. apply in_map_iff in Hx.
  destruct Hx as (p0 & <- & _).
  apply plain_app; [reflexivity|].
  apply plain_app; [apply escapeHtml_plain | reflexivity].
Qed.

(** On the fallback path the description holds the tags of the skeleton and
    nothing else that opens with a bracket: no script element, no embedding
    tag, no attribute, no document tag. *)
Lemma fallback_html_plain (j : job_text) (r : rewritten) :
  fallback j = Ok r -> only_plain_tags (chars (html r)) = true.
Proof.
  unfold fallback. destruct (extractTags j) as [ts|m]; cbn [bind]; [|discriminate].
  intros H. injection H as <-. cbn [html].
  apply sanitizeHtml_plain, fallbackHTML_plain.
Qed.

End Sanitizer.

(* ====================================================================== *)
(** ** Further properties: the tables *)
(* ====================================================================== *)

Section TableInvariants.
Context {E : Env}.

Lemma not_In_map_existsb {A} (f : A -> string) (x : string) (l : list A) :
  existsb (fun a => String.eqb (f a) x) l = false -> ~ In x (map f l).
Proof.
  intros H Hin. apply in_map_iff in Hin. destruct Hin as (a & <- & Ha).
  assert (existsb (fun a0 => String.eqb (f a0) (f a)) l = true).
  { apply existsb_exists. exists a. split; [exact Ha | apply String.eqb_refl]. }
  congruence.
Qed.

Lemma NoDup_snoc_any {A} (x : A) (l : list A) : NoDup l -> ~ In x l -> NoDup (l ++ [x]).
Proof.
  intros Hl Hx. apply NoDup_app; [exact Hl | repeat constructor; simpl; tauto |].
  intros y Hy [<-|[]]. tauto.
Qed.


Lemma max_id_bound (rows : list job_row) (r : job_row) :
  In r rows -> (id r <= max_id rows)%Z.
Proof.
  induction rows as [|x rows IH]; simpl; [contradiction|].
  intros [<- | Hin]; [lia|]. specialize (IH Hin). lia.
Qed.

Lemma fresh_id (rows : list job_row) (seq : Z) :
  ~ In (Z.max seq (max_id rows) + 1)%Z (map id rows).
Proof.
  intros Hin. apply in_map_iff in Hin. destruct Hin as (r & Hid & Hr).
  pose proof (max_id_bound rows r Hr). lia.
Qed.

Lemma fresh_tag_id (rows : list tag_row) (seq : Z) :
  ~ In (Z.max seq (fold_right (fun t m => Z.max (tag_id t) m) 0%Z rows) + 1)%Z
       (map tag_id rows).
Proof.
  assert (Hb : forall t, In t rows ->
            (tag_id t <= fold_right (fun t m => Z.max (tag_id t) m) 0%Z rows)%Z).
  { induction rows as [|x rows IH]; simpl; [contradiction|].
    intros t [<- | Hin]; [lia|]. specialize (IH t Hin). lia. }
  intros Hin. apply in_map_iff in Hin. destruct Hin as (t & Hid & Ht).
  specialize (Hb t Ht). lia.
Qed.

Lemma stmtInsertJob_constraints (job : Job.t) (db : DB) :
  constraints db -> constraints (stmtInsertJob job db).
Proof.
  intros (Hid & Hg & Hs & Hrest). unfold stmtInsertJob.
  destruct (has_guid _ _ || has_slug _ _) eqn:Hsh; [now repeat split|].
  apply orb_false_iff in Hsh. destruct Hsh as [Hng Hns].
  unfold constraints. cbn [jobs tags_table job_tags]. rewrite !map_app. cbn [map id cols].
  split; [apply NoDup_snoc_any; [exact Hid | apply fresh_id]|].
  split; [apply NoDup_snoc_any; [exact Hg | now apply not_In_map_existsb]|].
  split; [apply NoDup_snoc_any; [exact Hs | now apply not_In_map_existsb]|].
  exact Hrest.
Qed.

Lemma stmtInsertTag_constraints (n s : string) (db : DB) :
  constraints db -> constraints (stmtInsertTag n s db).
Proof.
  intros (Hid & Hg & Hs & Htid & Hn & Hts & Hjt). unfold stmtInsertTag.
  destruct (existsb _ (tags_table db)) eqn:Hex; [now repeat split|].
  assert (Hname : existsb (fun t => String.eqb (name t) n) (tags_table db) = false).
  { destruct (existsb (fun t => String.eqb (name t) n) (tags_table db)) eqn:H1; [|reflexivity].
    apply existsb_exists in H1. destruct H1 as (t & Ht & Heq).
    assert (existsb (fun t => String.eqb (name t) n || String.eqb (tag_slug t) s)
              (tags_table db) = true).
    { apply existsb_exists. exists t. split; [exact Ht | now rewrite Heq]. }
    congruence. }
  assert (Hslug : existsb (fun t => String.eqb (tag_slug t) s) (tags_table db) = false).
  { destruct (existsb (fun t => String.eqb (tag_slug t) s) (tags_table db)) eqn:H1; [|reflexivity].
    apply existsb_exists in H1. destruct H1 as (t & Ht & Heq).
    assert (existsb (fun t => String.eqb (name t) n || String.eqb (tag_slug t) s)
              (tags_table db) = true).
    { apply existsb_exists. exists t. split; [exact Ht | now rewrite Heq, orb_true_r]. }
    congruence. }
  unfold constraints. cbn [jobs tags_table job_tags]. rewrite !map_app.
  cbn [map tag_id name tag_slug].
  repeat split; try assumption.
  - apply NoDup_snoc_any; [exact Htid | apply fresh_tag_id].
  - apply NoDup_snoc_any; [exact Hn | now apply not_In_map_existsb].
  - apply NoDup_snoc_any; [exact Hts | now apply not_In_map_existsb].
Qed.

Lemma stmtInsertJobTag_constraints (j t : Z) (db : DB) :
  constraints db -> constraints (stmtInsertJobTag j t db).
Proof.
  intros (Hid & Hg & Hs & Htid & Hn & Hts & Hjt). unfold stmtInsertJobTag.
  destruct (existsb _ (job_tags db)) eqn:Hex; [now repeat split|].
  unfold constraints. cbn [jobs tags_table job_tags].
  repeat split; try assumption.
  apply NoDup_snoc_any; [exact Hjt|]. intros Hin.
  assert (existsb (fun jt => Z.eqb (fst jt) j && Z.eqb (snd jt) t) (job_tags db) = true).
  { apply existsb_exists. exists (j, t). split; [exact Hin|]. cbn. now rewrite !Z.eqb_refl. }
  congruence.
Qed.

Lemma upsertTagsForJob_constraints (jobId : Z) (names : list string) :
  forall db, constraints db -> constraints (upsertTagsForJob jobId names db).
Proof.
  unfold upsertTagsForJob.
  induction names as [|n names IH]; intros db H; [exact H|].
  cbn [fold_left]. apply IH. unfold upsert_tag.
  pose proof (stmtInsertTag_constraints n (tagSlug n) db H) as H1.
  destruct (stmtGetTagByName _ _); [now apply stmtInsertJobTag_constraints | exact H1].
Qed.

Lemma insert_job_constraints (db : DB) (job : Job.t) :
  constraints db -> constraints (insert_job db job).
Proof.
  intros H. unfold insert_job.
  pose proof (stmtInsertJob_constraints job db H) as H1.
  destruct (stmtHasGuid _ _); [now apply upsertTagsForJob_constraints | exact H1].
Qed.

Lemma insertBatch_constraints (rows : list Job.t) :
  forall db, constraints db -> constraints (insertBatch rows db).
Proof.
  unfold insertBatch.
  induction rows as [|job rows IH]; intros db H; [exact H|].
  cbn [fold_left]. apply IH. now apply insert_job_constraints.
Qed.

Lemma filtered_keys_distinct {Row Key} (keep : Row -> bool) (key : Row -> Key)
    (rows : list Row) (H : NoDup (map key rows)) :
  NoDup (map key (filter keep rows)).
Proof.
  induction rows as [|x l IH]; cbn; [constructor|].
  cbn in H. inversion H as [|? ? Hx Hl]; subst.
  destruct (keep x); cbn; [|now apply IH].
  constructor; [|now apply IH].
  intros Hin. apply Hx. apply in_map_iff in Hin. destruct Hin as (y & Hy & Hin).
  apply filter_In in Hin. apply in_map_iff. exists y. tauto.
Qed.

Lemma stmtDeleteOld_constraints (offset : Z) (db : DB) :
  constraints db -> constraints (stmtDeleteOld offset db).
Proof.
  intros (Hid & Hg & Hs & Hrest). unfold stmtDeleteOld, constraints.
  cbn [jobs tags_table job_tags].
  repeat split; try apply filtered_keys_distinct; try assumption; apply Hrest.
Qed.

Lemma retention_constraints (db : DB) : constraints db -> constraints (retention db).
Proof.
  intros H. unfold retention. destruct (_ <? _)%Z; [now apply stmtDeleteOld_constraints | exact H].
Qed.

(** X1 -- A run keeps the constraints of the schema: starting from tables in
    which the job ids, guids and slugs, the tag ids, names and slugs and the
    [job_tags] pairs are without duplicates, it completes and leaves tables
    with the same property. *)
Theorem run_keeps_constraints (w : world) (events : list sax_event) (db : DB) :
  constraints db ->
  exists db', processFeed w events db = Ok db' /\ constraints db'.
Proof.
  intros H. destruct (ingest_spec w events db) as (rows & Hi & _).
  exists (retention (insertBatch rows db)).
  split; [unfold processFeed; now rewrite Hi|].
  now apply retention_constraints, insertBatch_constraints.
Qed.

(** *** The order of the retention step *)

Lemma newer_asym (a b : job_row) : newer a b = true -> newer b a = false.
Proof.
  unfold newer.
  destruct (Job.published_at (cols a)) as [x|], (Job.published_at (cols b)) as [y|];
    try discriminate; try reflexivity; intros H.
  - apply orb_true_iff in H. apply orb_false_iff.
    destruct H as [H | H].
    + apply Z.ltb_lt in H. split; [apply Z.ltb_ge; lia|].
      apply andb_false_iff. left. apply Z.eqb_neq. lia.
    + apply andb_true_iff in H. destruct H as [H1 H2].
      apply Z.eqb_eq in H1. apply Z.ltb_lt in H2. subst.
      split; [apply Z.ltb_irrefl|]. apply andb_false_iff. right. apply Z.ltb_ge. lia.
  - apply Z.ltb_lt in H. apply Z.ltb_ge. lia.
Qed.

Lemma newer_cases (a b : job_row) :
  newer a b = true <->
  match Job.published_at (cols a), Job.published_at (cols b) with
  | Some x, Some y => (y < x \/ (x = y /\ id b < id a))%Z
  | Some _, None => True
  | None, Some _ => False
  | None, None => (id b < id a)%Z
  end.
Proof.
  unfold newer.
  destruct (Job.published_at (cols a)) as [x|], (Job.published_at (cols b)) as [y|].
  - rewrite orb_true_iff, andb_true_iff, !Z.ltb_lt, Z.eqb_eq. tauto.
  - tauto.
  - split; [discriminate | contradiction].
  - apply Z.ltb_lt.
Qed.

Lemma not_after_trans (a b c : job_row) : not_after a b -> not_after b c -> not_after a c.
Proof.
  unfold not_after. intros Hab Hbc.
  destruct (newer c a) eqn:Hca; [|reflexivity].
  apply newer_cases in Hca.
  assert (Hnab : ~ newer b a = true) by congruence.
  assert (Hnbc : ~ newer c b = true) by congruence.
  rewrite newer_cases in Hnab, Hnbc.
  destruct (Job.published_at (cols a)) as [x|], (Job.published_at (cols b)) as [y|],
           (Job.published_at (cols c)) as [z|]; try tauto; lia.
Qed.

Lemma insert_sorted_perm (r : job_row) (l : list job_row) :
  Permutation (r :: l) (insert_sorted r l).
Proof.
  induction l as [|x l IH]; cbn; [apply Permutation_refl|].
  destruct (newer r x); [apply Permutation_refl|].
  eapply perm_trans; [apply perm_swap|]. now apply perm_skip.
Qed.

Lemma by_recency_perm (rows : list job_row) : Permutation rows (by_recency rows).
Proof.
  unfold by_recency. induction rows as [|r rows IH]; cbn; [apply perm_nil|].
  eapply perm_trans; [apply perm_skip, IH | apply insert_sorted_perm].
Qed.

Lemma insert_sorted_sorted (r : job_row) (l : list job_row) :
  StronglySorted not_after l -> StronglySorted not_after (insert_sorted r l).
Proof.
  induction l as [|x l IH]; cbn; intros H.
  - repeat constructor.
  - inversion H as [|? ? Hl Hx]; subst.
    destruct (newer r x) eqn:Hrx.
    + constructor; [exact H|]. constructor.
      * unfold not_after. now apply newer_asym.
      * eapply Forall_impl; [|exact Hx]. intros y Hy.
        eapply not_after_trans; [|exact Hy]. unfold not_after. now apply newer_asym.
    + constructor; [now apply IH|].
      rewrite Forall_forall. intros y Hy.
      apply (Permutation_in _ (Permutation_sym (insert_sorted_perm r l))) in Hy.
      destruct Hy as [<- | Hy]; [exact Hrx|].
      rewrite Forall_forall in Hx. now apply Hx.
Qed.

Lemma by_recency_sorted (rows : list job_row) : StronglySorted not_after (by_recency rows).
Proof.
  unfold by_recency. induction rows as [|r rows IH]; cbn; [constructor|].
  now apply insert_sorted_sorted.
Qed.

Lemma sorted_split (a b : list job_row) :
  StronglySorted not_after (a ++ b) ->
  forall x y, In x a -> In y b -> not_after x y.
Proof.
  induction a as [|z a IH]; cbn; intros H x y Hx Hy; [contradiction|].
  inversion H as [|? ? Hl Hz]; subst.
  destruct Hx as [<- | Hx]; [|now apply IH].
  rewrite Forall_forall in Hz. apply Hz. apply in_or_app. now right.
Qed.




Lemma filter_all {A} (p : A -> bool) (l : list A) :
  (forall x, In x l -> p x = true) -> filter p l = l.
Proof.
  induction l as [|x l IH]; cbn; intros H; [reflexivity|].
  rewrite (H x (or_introl eq_refl)). f_equal. apply IH. auto.
Qed.

Lemma filter_none {A} (p : A -> bool) (l : list A) :
  (forall x, In x l -> p x = false) -> filter p l = [].
Proof.
  induction l as [|x l IH]; cbn; intros H; [reflexivity|].
  rewrite (H x (or_introl eq_refl)). apply IH. auto.
Qed.






(** *** Rows are only added *)

Lemma extends_refl (db : DB) : extends db db.
Proof. repeat split; exists []; now rewrite app_nil_r. Qed.

Lemma extends_trans (a b c : DB) : extends a b -> extends b c -> extends a c.
Proof.
  intros ((x1 & H1) & (x2 & H2) & (x3 & H3)) ((y1 & G1) & (y2 & G2) & (y3 & G3)).
  repeat split.
  - exists (x1 ++ y1). now rewrite G1, H1, app_assoc.
  - exists (x2 ++ y2). now rewrite G2, H2, app_assoc.
  - exists (x3 ++ y3). now rewrite G3, H3, app_assoc.
Qed.

Lemma stmtInsertJob_extends (job : Job.t) (db : DB) : extends db (stmtInsertJob job db).
Proof.
  unfold stmtInsertJob. destruct (_ || _); [apply extends_refl|].
  repeat split; cbn [jobs tags_table job_tags];
    [eexists; reflexivity | exists []; now rewrite app_nil_r ..].
Qed.

Lemma stmtInsertTag_extends (n s : string) (db : DB) : extends db (stmtInsertTag n s db).
Proof.
  unfold stmtInsertTag. destruct (existsb _ _); [apply extends_refl|].
  repeat split; cbn [jobs tags_table job_tags];
    [exists []; now rewrite app_nil_r | eexists; reflexivity | exists []; now rewrite app_nil_r].
Qed.

Lemma stmtInsertJobTag_extends (j t : Z) (db : DB) : extends db (stmtInsertJobTag j t db).
Proof.
  unfold stmtInsertJobTag. destruct (existsb _ _); [apply extends_refl|].
  repeat split; cbn [jobs tags_table job_tags];
    [exists []; now rewrite app_nil_r .. | eexists; reflexivity].
Qed.

Lemma upsert_tag_extends (jobId : Z) (db : DB) (n : string) :
  extends db (upsert_tag jobId db n).
Proof.
  unfold upsert_tag.
  pose proof (stmtInsertTag_extends n (tagSlug n) db) as H.
  destruct (stmtGetTagByName _ _); [|exact H].
  eapply extends_trans; [exact H | apply stmtInsertJobTag_extends].
Qed.

Lemma upsertTagsForJob_extends (jobId : Z) (names : list string) :
  forall db, extends db (upsertTagsForJob jobId names db).
Proof.
  unfold upsertTagsForJob.
  induction names as [|n names IH]; intros db; [apply extends_refl|].
  cbn [fold_left]. eapply extends_trans; [apply upsert_tag_extends | apply IH].
Qed.

Lemma insert_job_extends (db : DB) (job : Job.t) : extends db (insert_job db job).
Proof.
  unfold insert_job.
  pose proof (stmtInsertJob_extends job db) as H.
  destruct (stmtHasGuid _ _); [|exact H].
  eapply extends_trans; [exact H | apply upsertTagsForJob_extends].
Qed.

Lemma insertBatch_extends (rows : list Job.t) :
  forall db, extends db (insertBatch rows db).
Proof.
  unfold insertBatch.
  induction rows as [|job rows IH]; intros db; [apply extends_refl|].
  cbn [fold_left]. eapply extends_trans; [apply insert_job_extends | apply IH].
Qed.

(** X4 -- Ingestion only adds rows: parsing, enriching and storing a feed
    leaves every row of [jobs], [tags] and [job_tags] that was there before
    in place and unchanged, and puts the new rows after them. *)
Theorem ingest_only_appends (w : world) (events : list sax_event) (db : DB) :
  exists db' new_jobs new_tags new_links,
    ingest w events db = Ok db' /\
    jobs db' = jobs db ++ new_jobs /\
    tags_table db' = tags_table db ++ new_tags /\
    job_tags db' = job_tags db ++ new_links.
Proof.
  destruct (ingest_spec w events db) as (rows & Hi & _).
  destruct (insertBatch_extends rows db) as ((a & Ha) & (b & Hb) & (c & Hc)).
  exists (insertBatch rows db), a, b, c. auto.
Qed.

(** *** Tags of a stored job *)

Lemma find_app_some {A} (f : A -> bool) (l l' : list A) (x : A) :
  find f l = Some x -> find f (l ++ l') = Some x.
Proof.
  induction l as [|y l IH]; cbn; [discriminate|].
  destruct (f y); [trivial | exact IH].
Qed.

Lemma find_app_none {A} (f : A -> bool) (l l' : list A) :
  find f l = None -> find f (l ++ l') = find f l'.
Proof.
  induction l as [|y l IH]; cbn; [trivial|].
  destruct (f y); [discriminate | exact IH].
Qed.

Lemma lookup_extends (db db' : DB) (n : string) (t : tag_row) :
  extends db db' -> stmtGetTagByName n db = Some t -> stmtGetTagByName n db' = Some t.
Proof.
  intros (_ & (b & Hb) & _) H. unfold stmtGetTagByName in *. rewrite Hb.
  now apply find_app_some.
Qed.

Lemma lookup_none (n : string) (db : DB) :
  stmtGetTagByName n db = None -> forall t, In t (tags_table db) -> name t <> n.
Proof.
  unfold stmtGetTagByName. intros H t Ht Hn.
  apply (find_none _ _ H) in Ht. rewrite Hn, String.eqb_refl in Ht. discriminate.
Qed.

Lemma lookup_some (n : string) (db : DB) (t : tag_row) :
  stmtGetTagByName n db = Some t -> In t (tags_table db) /\ name t = n.
Proof.
  unfold stmtGetTagByName. intros H. apply find_some in H.
  destruct H as [H1 H2]. apply String.eqb_eq in H2. auto.
Qed.

Lemma stmtInsertJobTag_In (j t : Z) (db : DB) : In (j, t) (job_tags (stmtInsertJobTag j t db)).
Proof.
  unfold stmtInsertJobTag. destruct (existsb _ _) eqn:Hex.
  - apply existsb_exists in Hex. destruct Hex as ([a b] & Hin & Heq).
    cbn in Heq. apply andb_true_iff in Heq. destruct Heq as [H1 H2].
    apply Z.eqb_eq in H1. apply Z.eqb_eq in H2. now subst.
  - cbn [job_tags]. apply in_or_app. right. now left.
Qed.

Lemma upsert_tag_self (jobId : Z) (db : DB) (n : string) :
  linked_or_clash jobId n (upsert_tag jobId db n).
Proof.
  unfold linked_or_clash, upsert_tag.
  destruct (stmtGetTagByName n (stmtInsertTag n (tagSlug n) db)) as [t|] eqn:Hget.
  - rewrite (lookup_extends _ _ n t (stmtInsertJobTag_extends _ _ _) Hget).
    apply stmtInsertJobTag_In.
  - rewrite Hget.
    unfold stmtInsertTag in *. destruct (existsb _ (tags_table db)) eqn:Hex.
    + apply existsb_exists in Hex. destruct Hex as (t & Ht & Heq).
      pose proof (lookup_none n db Hget t Ht) as Hname.
      apply orb_true_iff in Heq. destruct Heq as [Heq | Heq]; apply String.eqb_eq in Heq;
        [contradiction|].
      exists t. auto.
    + unfold stmtGetTagByName in Hget. cbn [tags_table] in Hget.
      destruct (find (fun t => String.eqb (name t) n) (tags_table db)) eqn:Hf.
      * now rewrite (find_app_some _ _ _ _ Hf) in Hget.
      * rewrite (find_app_none _ _ _ Hf) in Hget. cbn in Hget.
        now rewrite String.eqb_refl in Hget.
Qed.

Lemma upsert_tag_other (jobId : Z) (db : DB) (m n : string) :
  linked_or_clash jobId n db -> linked_or_clash jobId n (upsert_tag jobId db m).
Proof.
  unfold linked_or_clash. intros H.
  pose proof (upsert_tag_extends jobId db m) as Hext.
  destruct (stmtGetTagByName n db) as [t|] eqn:Hget.
  - rewrite (lookup_extends _ _ n t Hext Hget).
    destruct Hext as (_ & _ & (c & Hc)). rewrite Hc. apply in_or_app. now left.
  - destruct H as (t & Ht & Hslug & Hname).
    assert (Hkeep : stmtGetTagByName n (upsert_tag jobId db m) = None).
    { unfold upsert_tag.
      assert (Hins : stmtGetTagByName n (stmtInsertTag m (tagSlug m) db) = None).
      { unfold stmtInsertTag. destruct (existsb _ (tags_table db)) eqn:Hex; [exact Hget|].
        unfold stmtGetTagByName in *. cbn [tags_table].
        rewrite (find_app_none _ _ _ Hget). cbn.
        destruct (String.eqb_spec m n) as [-> | Hmn]; [|reflexivity].
        exfalso.
        assert (existsb (fun t0 => String.eqb (name t0) n || String.eqb (tag_slug t0) (tagSlug n))
                  (tags_table db) = true).
        { apply existsb_exists. exists t. split; [exact Ht|].
          rewrite Hslug, String.eqb_refl. apply orb_true_r. }
        congruence. }
      destruct (stmtGetTagByName m (stmtInsertTag m (tagSlug m) db)); [|exact Hins].
      unfold stmtGetTagByName in *.
      unfold stmtInsertJobTag. now destruct (existsb _ (job_tags _)). }
    rewrite Hkeep. exists t. repeat split; try assumption.
    destruct Hext as (_ & (b & Hb) & _). rewrite Hb. apply in_or_app. now left.
Qed.

Lemma upsertTagsForJob_other (jobId : Z) (names : list string) (n : string) :
  forall db, linked_or_clash jobId n db ->
             linked_or_clash jobId n (upsertTagsForJob jobId names db).
Proof.
  unfold upsertTagsForJob.
  induction names as [|m names IH]; intros db H; [exact H|].
  cbn [fold_left]. apply IH. now apply upsert_tag_other.
Qed.

Lemma upsertTagsForJob_links (jobId : Z) (names : list string) (n : string) :
  forall db, In n names -> linked_or_clash jobId n (upsertTagsForJob jobId names db).
Proof.
  induction names as [|m names IH]; intros db Hin; [contradiction|].
  change (upsertTagsForJob jobId (m :: names) db)
    with (upsertTagsForJob jobId names (upsert_tag jobId db m)).
  destruct Hin as [-> | Hin].
  - apply upsertTagsForJob_other, upsert_tag_self.
  - now apply IH.
Qed.

(** *** The CSV column *)

Lemma str_chars (s : string) : str (chars s) = s.
Proof. apply string_of_list_ascii_of_string. Qed.

Lemma append_empty_r (s : string) : s +:+ "" = s.
Proof. induction s as [|c s IH]; cbn; [reflexivity | now rewrite IH]. Qed.

Lemma split_go_piece (t : string) :
  forall (R : string) (cur : list ascii),
    includes t ", " = false ->
    (R = "" \/ exists R', R = String "," R') ->
    JS.split_go ", " (t +:+ R) cur 0 = JS.split_go ", " R (rev (chars t) ++ cur) 0.
Proof.
  induction t as [|c t IH]; intros R cur Hinc HR; [reflexivity|].
  cbn [includes] in Hinc. apply orb_false_iff in Hinc. destruct Hinc as [Hsw Hinc].
  change (String c t +:+ R) with (String c (t +:+ R)).
  cbn [JS.split_go].
  assert (Hno : startsWith ", " (String c (t +:+ R)) = false).
  { cbn [startsWith] in *. destruct (Ascii.eqb "," c); [|reflexivity]. cbn [andb] in *.
    destruct t as [|d t].
    - cbn [append]. destruct HR as [-> | (R' & ->)]; reflexivity.
    - cbn [startsWith append] in *. destruct (Ascii.eqb " " d); [discriminate | reflexivity]. }
  rewrite Hno. rewrite (IH R (c :: cur) Hinc HR).
  unfold chars. cbn [list_ascii_of_string rev]. now rewrite <- app_assoc.
Qed.

Lemma split_join (ts : list string) :
  ts <> [] ->
  Forall (fun t => includes t ", " = false) ts ->
  JS.split ", " (join ", " ts) = ts.
Proof.
  unfold JS.split.
  induction ts as [|t ts IH]; intros Hne Hall; [congruence|].
  inversion Hall as [|? ? Ht Hts]; subst.
  destruct ts as [|u ts].
  - cbn [join]. rewrite <- (append_empty_r t) at 1.
    rewrite split_go_piece by auto. cbn [JS.split_go].
    now rewrite app_nil_r, rev_involutive, str_chars.
  - change (join ", " (t :: u :: ts)) with (t +:+ ", " +:+ join ", " (u :: ts)).
    rewrite split_go_piece; [|exact Ht | right; eexists; reflexivity].
    change (", " +:+ join ", " (u :: ts)) with (String "," (String " " (join ", " (u :: ts)))).
    cbn [JS.split_go startsWith Ascii.eqb Bool.eqb andb String.length Nat.sub].
    rewrite app_nil_r, rev_involutive, str_chars.
    f_equal. apply IH; [discriminate | exact Hts].
Qed.

Lemma split_join_filter (ts : list string) :
  Forall csv_safe ts ->
  filter truthy (JS.split ", " (join ", " ts)) = ts.
Proof.
  intros Hall. destruct ts as [|t ts]; [reflexivity|].
  rewrite split_join.
  - apply filter_all. intros x Hx. rewrite Forall_forall in Hall.
    apply truthy_true. now apply Hall.
  - discriminate.
  - eapply Forall_impl; [|exact Hall]. now intros x [_ Hx].
Qed.

(** X5 -- The CSV column gives the tags back: tags that are not empty and
    do not contain a comma followed by a blank, joined by [tags.join(', ')]
    and read by [tags_csv.split(', ').filter(Boolean)], come out as they
    went in. *)
Theorem tags_csv_round_trip (ts : list string) :
  Forall csv_safe ts ->
  filter truthy (JS.split ", " (join ", " ts)) = ts.
Proof. exact (split_join_filter ts). Qed.

Lemma stmtHasGuid_inserted (job : Job.t) (db : DB) :
  shadowed (Job.guid job) (Job.slug job) db = false ->
  stmtHasGuid (Job.guid job) (stmtInsertJob job db) =
    Some (Z.max (jobs_seq db) (max_id (jobs db)) + 1)%Z /\
  jobs (stmtInsertJob job db) =
    jobs db ++ [mkRow (Z.max (jobs_seq db) (max_id (jobs db)) + 1)%Z job].
Proof.
  unfold shadowed. intros Hsh. unfold stmtInsertJob. rewrite Hsh.
  split; [|reflexivity].
  apply orb_false_iff in Hsh. destruct Hsh as [Hg _].
  unfold stmtHasGuid. cbn [jobs].
  assert (Hf : find (fun r => String.eqb (Job.guid (cols r)) (Job.guid job)) (jobs db) = None).
  { destruct (find _ (jobs db)) eqn:Hf; [|reflexivity].
    apply find_some in Hf. destruct Hf as [Hin Heq].
    assert (has_guid (Job.guid job) (jobs db) = true).
    { apply existsb_exists. eexists. split; [exact Hin | exact Heq]. }
    congruence. }
  rewrite (find_app_none _ _ _ Hf). cbn. now rewrite String.eqb_refl.
Qed.

(** X6 -- A stored job is tagged.  When a rewritten job whose guid and slug
    are not stored yet is written by the body of [insertBatch], it becomes
    the last row of [jobs], [stmtHasGuid] finds its id and, for each of its
    tags, either the tag row of that name is linked to the job in
    [job_tags], or no tag row has that name because a tag with another name
    already holds the slug. *)
Theorem stored_job_is_tagged (db : DB) (rawJob : Raw.t) (r : rewritten) :
  shadowed (Raw.guid rawJob) (job_slug rawJob) db = false ->
  Forall csv_safe (tags r) ->
  exists i,
    stmtHasGuid (Raw.guid rawJob) (insert_job db (normalized rawJob r)) = Some i /\
    jobs (insert_job db (normalized rawJob r)) = jobs db ++ [mkRow i (normalized rawJob r)] /\
    forall t, In t (tags r) ->
      linked_or_clash i t (insert_job db (normalized rawJob r)).
Proof.
  intros Hsh Hsafe.
  destruct (stmtHasGuid_inserted (normalized rawJob r) db Hsh) as [Hid Hrows].
  cbn [Job.guid normalized] in Hid.
  set (i := (Z.max (jobs_seq db) (max_id (jobs db)) + 1)%Z) in *.
  exists i.
  assert (Hins : insert_job db (normalized rawJob r) =
                 upsertTagsForJob i (tags r) (stmtInsertJob (normalized rawJob r) db)).
  { unfold insert_job. cbn [Job.guid Job.tags_csv normalized]. rewrite Hid.
    now rewrite split_join_filter by exact Hsafe. }
  split; [|split].
  - rewrite Hins. unfold stmtHasGuid.
    destruct (upsertTagsForJob_jobs i (tags r) (stmtInsertJob (normalized rawJob r) db)) as [-> _].
    exact Hid.
  - rewrite insert_job_jobs. exact Hrows.
  - intros t Ht. rewrite Hins. now apply upsertTagsForJob_links.
Qed.

End TableInvariants.

(* ====================================================================== *)
(** ** Further properties: a run from the feed to the tables *)
(* ====================================================================== *)

Section RunFacts.
Context {E : Env}.

Lemma on_event_counted (w : world) (db : DB) (tick : nat) (e : sax_event) (st : parser_state) :
  counted st ->
  counted (on_event w db tick e st) /\
  processed (on_event w db tick e st) <= processed st + closing_items [e].
Proof.
  unfold counted, closing_items. intros [Hp Hb].
  destruct e as [n | t | t | n]; cbn [on_event on_opentag on_text filter List.length
    processed matched skipped batch]; try (split; [auto | lia]).
  unfold on_closetag.
  destruct (currentItem st) as [it|]; [|split; [auto | lia]].
  destruct (is_item_tag (toLowerCase n)); [|cbn; split; [auto | lia]].
  destruct (stmtHasGuid _ db); [cbn; split; [split; lia | lia]|].
  destruct (matchesProfession _ _ _); cbn [negb processed matched skipped batch List.length].
  - rewrite length_app. cbn [List.length]. split; [split; lia | lia].
  - split; [split; lia | lia].
Qed.

Lemma parse_counted (w : world) (db : DB) (events : list sax_event) :
  forall tick st,
    counted st ->
    counted (parse w db tick events st) /\
    processed (parse w db tick events st) <= processed st + closing_items events.
Proof.
  induction events as [|e events IH]; intros tick st H; cbn [parse].
  - split; [exact H | lia].
  - destruct (on_event_counted w db tick e st H) as [H1 H2].
    destruct (IH (S tick) _ H1) as [H3 H4].
    split; [exact H3|].
    change (e :: events) with ([e] ++ events).
    unfold closing_items in *. rewrite filter_app, length_app. lia.
Qed.

Lemma item_guid_truthy (it : Item.t) (n : nat) : item_guid it n <> "".
Proof.
  unfold item_guid, or_else.
  destruct (truthy (Item.guid it)) eqn:H1; [now apply truthy_true|].
  destruct (truthy (Item.link it)) eqn:H2; [now apply truthy_true|].
  discriminate.
Qed.

Lemma on_event_admitted (w : world) (db : DB) (tick : nat) (e : sax_event) (st : parser_state) :
  Forall (admitted db) (batch st) ->
  Forall (admitted db) (batch (on_event w db tick e st)).
Proof.
  intros H. destruct e as [n | t | t | n]; cbn [on_event on_opentag on_text batch]; try exact H.
  unfold on_closetag.
  destruct (currentItem st) as [it|]; [|exact H].
  destruct (is_item_tag (toLowerCase n)); [|exact H].
  destruct (stmtHasGuid _ db) eqn:Hg; [exact H|].
  destruct (matchesProfession _ _ _) eqn:Hm; cbn [negb batch]; [|exact H].
  apply Forall_app. split; [exact H|]. constructor; [|constructor].
  unfold admitted. cbn [Raw.guid Raw.rawTitle Raw.rawCompany Raw.rawDescription Raw.source].
  repeat split; try assumption. apply item_guid_truthy.
Qed.

Lemma parse_admitted (w : world) (db : DB) (events : list sax_event) :
  forall tick st,
    Forall (admitted db) (batch st) ->
    Forall (admitted db) (batch (parse w db tick events st)).
Proof.
  induction events as [|e events IH]; intros tick st H; cbn [parse]; [exact H|].
  apply IH. now apply on_event_admitted.
Qed.

Lemma batch_admitted (w : world) (db : DB) (events : list sax_event) :
  Forall (admitted db) (batch (parse w db 0 events parser_init)).
Proof. apply parse_admitted. constructor. Qed.

(** X7 -- The parser admits a job to the batch only after its checks: every
    matched job has a guid that is not empty and not stored, passed the
    profession filter on its title, company and description, and carries
    the host of the feed as its source. *)
Theorem batch_is_filtered (w : world) (db : DB) (events : list sax_event) :
  Forall (admitted db) (batch (parse w db 0 events parser_init)).
Proof. exact (batch_admitted w db events). Qed.

Lemma enrich_from_rewrites (w : world) (todo : list Raw.t) :
  forall i st,
    exists st' rows,
      enrich_from w i todo st = Ok st' /\
      Forall2 (rewrite_of w) todo rows /\
      settled st' = insertBatch rows (settled st) /\
      (aiEnhanced st' + fallbackUsed st' =
       aiEnhanced st + fallbackUsed st + Z.of_nat (List.length todo))%Z.
Proof.
  induction todo as [|rawJob todo IH]; intros i st.
  - exists st, []. cbn. repeat split; [constructor | lia].
  - destruct (enrich_step w i rawJob st) as (r & st1 & Hr & Hst1 & _ & Hai & Hfb & Hset).
    destruct (IH (S i) st1) as (st' & rows & Hrun & Hrows & Hdb & Hsum).
    exists st', (normalized rawJob r :: rows).
    cbn [enrich_from]. rewrite Hst1. cbn [bind].
    split; [exact Hrun|]. split; [|split].
    + constructor; [|exact Hrows]. exists i, (shouldUseAI st), r. auto.
    + rewrite Hdb, Hset. reflexivity.
    + rewrite Hsum, Hai, Hfb. cbn [List.length]. destruct (usedAI r); lia.
Qed.

Lemma on_end_rewrites (w : world) (matched_jobs : list Raw.t) (db : DB) :
  exists st rows,
    on_end w matched_jobs db = Ok st /\
    Forall2 (rewrite_of w) matched_jobs rows /\
    store st = insertBatch rows db /\
    (aiEnhanced st + fallbackUsed st = Z.of_nat (List.length matched_jobs))%Z.
Proof.
  destruct (enrich_from_rewrites w matched_jobs 0 (mkLoop 0 0 [] db))
    as (st & rows & Hrun & Hrows & Hdb & Hsum).
  unfold on_end. rewrite Hrun. cbn [bind].
  unfold settled in Hdb. cbn [processedBatch store insertBatch fold_left] in Hdb.
  cbn [aiEnhanced fallbackUsed] in Hsum.
  destruct (processedBatch st) as [|x pending] eqn:Hp.
  - exists st, rows. split; [reflexivity|]. split; [exact Hrows|].
    split; [now rewrite <- Hdb | lia].
  - eexists _, rows. split; [reflexivity|]. split; [exact Hrows|].
    cbn [store aiEnhanced fallbackUsed]. split; [now rewrite <- Hdb | lia].
Qed.

Lemma ingest_rewrites (w : world) (events : list sax_event) (db : DB) :
  exists rows,
    ingest w events db = Ok (insertBatch rows db) /\
    Forall2 (rewrite_of w) (batch (parse w db 0 events parser_init)) rows.
Proof.
  destruct (on_end_rewrites w (batch (parse w db 0 events parser_init)) db)
    as (st & rows & Hend & Hrows & Hdb & _).
  exists rows. unfold ingest. rewrite Hend. cbn [bind]. now rewrite Hdb.
Qed.

Lemma counted_init : counted parser_init.
Proof. split; reflexivity. Qed.

(** X8 -- The statistics of a run add up.  When the parser has read the
    feed, [processed = matched + skipped], [matched] is the length of the
    batch and [processed] is at most the number of closing item tags; the
    enrichment loop then completes with
    [aiEnhanced + fallbackUsed = matched]. *)
Theorem run_statistics (w : world) (events : list sax_event) (db : DB) :
  let st := parse w db 0 events parser_init in
  processed st = matched st + skipped st /\
  List.length (batch st) = matched st /\
  processed st <= closing_items events /\
  exists l, on_end w (batch st) db = Ok l /\
            (aiEnhanced l + fallbackUsed l = Z.of_nat (matched st))%Z.
Proof.
  cbv zeta.
  destruct (parse_counted w db events 0 parser_init counted_init) as [[Hp Hb] Hle].
  cbn [processed parser_init] in Hle.
  repeat split; try assumption.
  destruct (on_end_rewrites w (batch (parse w db 0 events parser_init)) db)
    as (l & rows & Hend & _ & _ & Hsum).
  exists l. split; [exact Hend|]. now rewrite <- Hb.
Qed.

Lemma Forall2_In_r {A B} (R : A -> B -> Prop) (l : list A) (l' : list B) :
  Forall2 R l l' -> forall y, In y l' -> exists x, In x l /\ R x y.
Proof.
  induction 1 as [|x y l l' Hxy _ IH]; intros z Hz; [contradiction|].
  destruct Hz as [<- | Hz].
  - exists x. split; [now left | exact Hxy].
  - destruct (IH z Hz) as (x' & Hin & HR). exists x'. split; [now right | exact HR].
Qed.

Lemma stmtInsertJob_added (job : Job.t) (db : DB) :
  exists added, jobs (stmtInsertJob job db) = jobs db ++ added /\
                Forall (fun r => cols r = job) added.
Proof.
  unfold stmtInsertJob. destruct (_ || _).
  - exists []. now rewrite app_nil_r.
  - eexists. split; [reflexivity|]. now repeat constructor.
Qed.

Lemma insertBatch_added (rows : list Job.t) :
  forall db, exists added,
    jobs (insertBatch rows db) = jobs db ++ added /\
    Forall (fun r => In (cols r) rows) added.
Proof.
  unfold insertBatch.
  induction rows as [|job rows IH]; intros db.
  - exists []. now rewrite app_nil_r.
  - cbn [fold_left].
    destruct (IH (insert_job db job)) as (added & Hj & Hall).
    destruct (stmtInsertJob_added job db) as (first & Hf & Hfall).
    exists (first ++ added). split.
    + rewrite Hj, insert_job_jobs, Hf. now rewrite app_assoc.
    + apply Forall_app. split.
      * eapply Forall_impl; [|exact Hfall]. intros r ->. now left.
      * eapply Forall_impl; [|exact Hall]. intros r Hr. now right.
Qed.

Lemma ingest_added (w : world) (events : list sax_event) (db : DB) :
  exists db' added,
    ingest w events db = Ok db' /\
    jobs db' = jobs db ++ added /\
    Forall (fun r => exists x, In x (batch (parse w db 0 events parser_init)) /\
                               rewrite_of w x (cols r)) added.
Proof.
  destruct (ingest_rewrites w events db) as (rows & Hi & Hrows).
  destruct (insertBatch_added rows db) as (added & Hj & Hall).
  exists (insertBatch rows db), added. split; [exact Hi|]. split; [exact Hj|].
  eapply Forall_impl; [|exact Hall]. intros r Hr.
  exact (Forall2_In_r _ _ _ Hrows _ Hr).
Qed.


Lemma rewriteJobRich_unavailable (w : world) (i : nat) (j : job_text) (useAI : bool) :
  ai_unavailable w -> rewriteJobRich (ai_reply w i) j useAI = fallback j.
Proof.
  intros [Hoff | Hdown].
  - unfold rewriteJobRich. now rewrite Hoff.
  - destruct (Hdown i) as (msg & ->). apply rewriteJobRich_on_error.
Qed.

(** X10 -- Without the AI service only the skeleton is stored.  In a run
    without an API key, or with a service that fails at every call, the
    description of every row added to [jobs] holds no other markup than the
    tags [section], [h2], [p], [ul] and [li] written without attributes. *)
Theorem descriptions_plain_without_ai (w : world) (events : list sax_event) (db : DB) :
  ai_unavailable w ->
  exists db' added,
    ingest w events db = Ok db' /\
    jobs db' = jobs db ++ added /\
    Forall (fun r => only_plain_tags (chars (Job.description_html (cols r))) = true) added.
Proof.
  intros Hoff.
  destruct (ingest_added w events db) as (db' & added & Hi & Hj & Hall).
  exists db', added. split; [exact Hi|]. split; [exact Hj|].
  eapply Forall_impl; [|exact Hall]. intros row (x & _ & (i & useAI & r & Hr & Hrow)).
  rewrite Hrow. cbn [normalized Job.description_html].
  rewrite (rewriteJobRich_unavailable w i _ useAI Hoff) in Hr.
  now apply (fallback_html_plain (job_text_of x)).
Qed.

(** X11 -- No matched job is lost silently.  After the rows of a run are
    written, each job of the batch is represented in [jobs]: a row with its
    guid or a row with its slug is stored. *)
Theorem matched_jobs_are_stored (w : world) (events : list sax_event) (db : DB) :
  exists db',
    ingest w events db = Ok db' /\
    forall x, In x (batch (parse w db 0 events parser_init)) ->
      has_guid (Raw.guid x) (jobs db') = true \/ has_slug (job_slug x) (jobs db') = true.
Proof.
  destruct (ingest_spec w events db) as (rows & Hi & Hrows).
  exists (insertBatch rows db). split; [exact Hi|].
  intros x Hx. destruct (row_of_In _ _ Hrows) as [Hfw _].
  destruct (Hfw x Hx) as (job & Hjob & Hg & Hs).
  pose proof (insertBatch_shadowed rows db job Hjob) as Hsh.
  unfold shadowed in Hsh. rewrite Hg, Hs in Hsh. now apply orb_true_iff.
Qed.

End RunFacts.

(* ====================================================================== *)
(** ** Further properties: the helpers *)
(* ====================================================================== *)

Section HelperFacts.
Context {E : Env}.

(** *** escapeHtml *)

Lemma escape_char_clean (c : ascii) :
  forallb (fun x => negb (markup x)) (chars (escape_char c)) = true.
Proof. destruct c as [[] [] [] [] [] [] [] []]; reflexivity. Qed.

Lemma escapeHtml_clean (s : string) :
  forallb (fun x => negb (markup x)) (chars (escapeHtml s)) = true.
Proof.
  induction s as [|c s IH]; [reflexivity|].
  cbn [escapeHtml]. rewrite chars_app, forallb_app, escape_char_clean. exact IH.
Qed.

Lemma escape_char_cases (c : ascii) :
  (c = "&"%char /\ escape_char c = "&amp;") \/
  (c = "<"%char /\ escape_char c = "&lt;") \/
  (c = ">"%char /\ escape_char c = "&gt;") \/
  (c = dquote /\ escape_char c = "&quot;") \/
  (c = "'"%char /\ escape_char c = "&#39;") \/
  (c <> "&"%char /\ escape_char c = String c "").
Proof.
  unfold escape_char.
  destruct (Ascii.eqb_spec c "&"); [subst; tauto|].
  destruct (Ascii.eqb_spec c "<"); [subst; tauto|].
  destruct (Ascii.eqb_spec c ">"); [subst; tauto|].
  destruct (Ascii.eqb_spec c dquote); [subst; tauto|].
  destruct (Ascii.eqb_spec c "'"); [subst; tauto|].
  tauto.
Qed.

Lemma escape_char_inj (c d : ascii) (A B : string) :
  escape_char c +:+ A = escape_char d +:+ B -> c = d /\ A = B.
Proof.
  destruct (escape_char_cases c) as [[Hc ->]|[[Hc ->]|[[Hc ->]|[[Hc ->]|[[Hc ->]|[Hc ->]]]]]];
  destruct (escape_char_cases d) as [[Hd ->]|[[Hd ->]|[[Hd ->]|[[Hd ->]|[[Hd ->]|[Hd ->]]]]]];
  cbn [append]; intros H; try discriminate H;
  try (injection H; intros; subst; split; congruence).
Qed.

Lemma escapeHtml_inj (a : string) : forall b, escapeHtml a = escapeHtml b -> a = b.
Proof.
  induction a as [|c a IH]; intros [|d b] H; cbn [escapeHtml] in H.
  - reflexivity.
  - destruct (escape_char_cases d) as [[_ Hd]|[[_ Hd]|[[_ Hd]|[[_ Hd]|[[_ Hd]|[_ Hd]]]]]];
      rewrite Hd in H; discriminate H.
  - destruct (escape_char_cases c) as [[_ Hc]|[[_ Hc]|[[_ Hc]|[[_ Hc]|[[_ Hc]|[_ Hc]]]]]];
      rewrite Hc in H; discriminate H.
  - apply escape_char_inj in H. destruct H as [-> H]. f_equal. now apply IH.
Qed.

(** X12 -- Escaping is safe and loses nothing: the result of [escapeHtml]
    holds no angle bracket and no quote, and two texts with the same
    escaped form are the same text. *)
Theorem escapeHtml_safe_and_faithful (s : string) :
  (forall c, In c (chars (escapeHtml s)) ->
     c <> "<"%char /\ c <> ">"%char /\ c <> dquote /\ c <> "'"%char) /\
  (forall s', escapeHtml s = escapeHtml s' -> s = s').
Proof.
  split; [|apply escapeHtml_inj].
  intros c Hc. pose proof (escapeHtml_clean s) as H.
  rewrite forallb_forall in H. specialize (H c Hc).
  unfold markup in H. apply negb_true_iff in H.
  repeat (apply orb_false_iff in H; destruct H as [H ?]).
  repeat split; intros ->; discriminate.
Qed.

(** *** The sanitizers only delete *)

Lemma kept_none (b : list ascii) : kept [] b.
Proof. induction b; constructor; assumption. Qed.

Lemma kept_refl (l : list ascii) : kept l l.
Proof. induction l; constructor; assumption. Qed.

Lemma kept_trans (a b c : list ascii) : kept a b -> kept b c -> kept a c.
Proof.
  intros Hab Hbc. revert a Hab.
  induction Hbc as [|x b c _ IH|x b c _ IH]; intros a Hab.
  - exact Hab.
  - constructor. now apply IH.
  - inversion Hab; subst.
    + constructor. now apply IH.
    + apply kept_take. now apply IH.
Qed.

Lemma kept_suffix (l' l : list ascii) : suffix l' l -> kept l' l.
Proof.
  intros (pre & ->). induction pre as [|c pre IH]; [apply kept_refl|].
  cbn. now constructor.
Qed.

Lemma kept_length (a b : list ascii) : kept a b -> List.length a <= List.length b.
Proof. induction 1; cbn; lia. Qed.


Lemma delete_all_kept (r : Regex.regex) (fuel : nat) :
  forall p, kept (Regex.delete_all r fuel p) (Regex.rest p).
Proof.
  induction fuel as [|fuel IH]; intros p; cbn [Regex.delete_all]; [apply kept_refl|].
  assert (Hstep : kept match Regex.advance p with
                       | Some (c, p1) => c :: Regex.delete_all r fuel p1
                       | None => []
                       end (Regex.rest p)).
  { destruct (Regex.advance p) as [[c p1]|] eqn:Ha; [|apply kept_none].
    rewrite (advance_rest _ _ _ Ha). apply kept_take, IH. }
  destruct (Regex.match_at r p) as [[p' cap]|] eqn:Hm; [|exact Hstep].
  destruct (_ <? _); [|exact Hstep].
  eapply kept_trans; [apply IH|]. apply kept_suffix. exact (match_at_suffix _ _ _ _ Hm).
Qed.

Lemma chars_str (l : list ascii) : chars (str l) = l.
Proof. apply list_ascii_of_string_of_list_ascii. Qed.

Lemma remove_kept (r : Regex.regex) (s : string) :
  kept (chars (Regex.remove r s)) (chars s).
Proof. unfold Regex.remove. rewrite chars_str. apply (delete_all_kept r _ (Regex.start_of (chars s))). Qed.

Lemma trimStart_kept (s : string) : kept (chars (trimStart s)) (chars s).
Proof.
  induction s as [|c s IH]; [constructor|].
  cbn [trimStart]. destruct (is_space c); [|apply kept_refl].
  rewrite chars_cons. now constructor.
Qed.

Lemma trimEnd_kept (s : string) : kept (chars (trimEnd s)) (chars s).
Proof.
  induction s as [|c s IH]; [constructor|].
  cbn [trimEnd]. rewrite (chars_cons c s).
  destruct (trimEnd s) as [|d t] eqn:Ht.
  - destruct (is_space c); [apply kept_none|].
    rewrite chars_cons. apply kept_take. exact IH.
  - rewrite chars_cons. apply kept_take. exact IH.
Qed.

Lemma trim_kept (s : string) : kept (chars (trim s)) (chars s).
Proof. unfold trim. eapply kept_trans; [apply trimEnd_kept | apply trimStart_kept]. Qed.

Lemma sanitizeHtml_kept (s : string) : kept (chars (sanitizeHtml s)) (chars s).
Proof.
  unfold sanitizeHtml. destruct (negb (truthy s)); [apply kept_none|].
  repeat (eapply kept_trans; [apply remove_kept|]). apply kept_refl.
Qed.

Lemma stripDocumentTags_kept (s : string) : kept (chars (stripDocumentTags s)) (chars s).
Proof.
  unfold stripDocumentTags. destruct (negb (truthy s)); [apply kept_none|].
  eapply kept_trans; [apply trim_kept|].
  repeat (eapply kept_trans; [apply remove_kept|]). apply kept_refl.
Qed.

Lemma chars_length (s : string) : List.length (chars s) = String.length s.
Proof. induction s as [|c s IH]; cbn; [reflexivity | now rewrite <- IH]. Qed.

(** X13 -- The sanitizers only delete.  The result of [sanitizeHtml] and of
    [stripDocumentTags] is the text with some of its characters taken out:
    nothing is inserted, replaced or moved, and the result is never
    longer than the text. *)
Theorem sanitizers_only_delete (s : string) :
  kept (chars (sanitizeHtml s)) (chars s) /\
  kept (chars (stripDocumentTags s)) (chars s) /\
  String.length (sanitizeHtml s) <= String.length s /\
  String.length (stripDocumentTags s) <= String.length s.
Proof.
  pose proof (sanitizeHtml_kept s) as H1. pose proof (stripDocumentTags_kept s) as H2.
  repeat split; try assumption.
  - apply kept_length in H1. now rewrite !chars_length in H1.
  - apply kept_length in H2. now rewrite !chars_length in H2.
Qed.

(** *** Tags *)






(** *** The keyword list *)











(** *** Country of the site *)

Lemma tld_map_shape (tld c : string) :
  assoc tld tld_map = Some c -> String.length c = 2 /\ toUpperCase c = c.
Proof.
  intros H. apply assoc_In in H.
  assert (Hall : forallb (fun c => (String.length c =? 2) && String.eqb (toUpperCase c) c)
                   (map snd tld_map) = true) by reflexivity.
  rewrite forallb_forall in Hall. specialize (Hall c H).
  apply andb_true_iff in Hall. destruct Hall as [H1 H2].
  apply Nat.eqb_eq in H1. apply String.eqb_eq in H2. auto.
Qed.

(** X17 -- The country of the site.  [getCountryFromHost] gives a code of
    two capital letters, [US] when the address is not a URL, unless the
    last label of the host names a member of [Object.prototype], which the
    lookup then returns. *)
Theorem country_code_shape (siteUrl : string) :
  match getCountryFromHost siteUrl with
  | Code c =>
      String.length c = 2 /\ toUpperCase c = c /\
      ((exists msg, URL_hostname siteUrl = Throw msg) -> c = "US")
  | PrototypeMember key =>
      exists host, URL_hostname siteUrl = Ok host /\
                   last (JS.split "." (toLowerCase host)) "" = key /\
                   In key Object_prototype_keys
  end.
Proof.
  unfold getCountryFromHost.
  destruct (URL_hostname siteUrl) as [host|msg] eqn:Hhost.
  - unfold get. destruct (assoc _ tld_map) as [c|] eqn:Hc.
    + rewrite (tld_map_codes _ _ Hc).
      destruct (tld_map_shape _ _ Hc) as [H1 H2].
      repeat split; try assumption. intros (msg & Hmsg). discriminate.
    + destruct (mem _ Object_prototype_keys) eqn:Hmem.
      * exists host. repeat split. now apply mem_In.
      * repeat split.
  - repeat split.
Qed.

(** *** canonical *)

Lemma run_extend (r : Regex.regex) (x : list ascii) :
  simple r = true ->
  forall p cap k k',
    (forall p' cap', k p' cap' <> None -> k' (extend p' x) cap' <> None) ->
    Regex.run r p cap k <> None ->
    Regex.run r (extend p x) cap k' <> None.
Proof.
  induction r as [|f|r1 IH1 r2 IH2|r1 IH1 r2 IH2| | | | |]; cbn [simple]; try discriminate;
    intros Hs p cap k k' Hk H; cbn [Regex.run] in *.
  - now apply Hk.
  - unfold Regex.advance in *. cbn [extend Regex.rest].
    destruct (Regex.rest p) as [|c l]; [congruence|]. cbn [app].
    destruct (f c); [|congruence]. exact (Hk _ _ H).
  - apply andb_true_iff in Hs. destruct Hs as [Hs1 Hs2].
    apply (IH1 Hs1 p cap (fun p' cap' => Regex.run r2 p' cap' k)); [|exact H].
    intros p' cap' H'. now apply (IH2 Hs2 p' cap' k).
  - apply andb_true_iff in Hs. destruct Hs as [Hs1 Hs2].
    destruct (Regex.run r1 p cap k) eqn:H1.
    + assert (H1' : Regex.run r1 (extend p x) cap k' <> None).
      { apply (IH1 Hs1 p cap k); [exact Hk | congruence]. }
      destruct (Regex.run r1 (extend p x) cap k'); congruence.
    + destruct (Regex.run r1 (extend p x) cap k'); [congruence|].
      now apply (IH2 Hs2 p cap k).
Qed.

Lemma is_absolute_app (a b : string) : is_absolute a = true -> is_absolute (a +:+ b) = true.
Proof.
  unfold is_absolute, Regex.match_at. intros H.
  assert (Hrun : Regex.run re_http (extend (Regex.start_of (chars a)) (chars b)) None
                   (fun p' cap' => Some (p', cap')) <> None).
  { apply (run_extend re_http (chars b) eq_refl _ None (fun p' cap' => Some (p', cap'))).
    - intros p' cap' _. discriminate.
    - destruct (Regex.run re_http _ None _); [discriminate | discriminate H]. }
  clear H. rewrite chars_app.
  change (Regex.start_of (chars a ++ chars b))
    with (extend (Regex.start_of (chars a)) (chars b)).
  destruct (Regex.run re_http _ None _); [reflexivity | congruence].
Qed.

(** X18 -- Canonical URLs.  When [SITE_URL] starts with [http://] or
    [https://], [canonical] always gives an absolute URL, leaves an
    absolute URL as it is, and is idempotent. *)
Theorem canonical_absolute (path : string) :
  is_absolute SITE_URL = true ->
  is_absolute (canonical path) = true /\
  (is_absolute path = true -> canonical path = path) /\
  canonical (canonical path) = canonical path.
Proof.
  intros Hsite.
  assert (Habs : is_absolute (canonical path) = true).
  { unfold canonical. destruct (is_absolute path) eqn:Hp; [exact Hp|].
    now apply is_absolute_app. }
  split; [exact Habs|]. split.
  - intros Hp. unfold canonical. now rewrite Hp.
  - unfold canonical at 1. now rewrite Habs.
Qed.

End HelperFacts.

(* ====================================================================== *)
(** ** Further properties: the listing pages *)
(* ====================================================================== *)

Section PageFacts.
Variable Number : string -> number.

Lemma newer_irrefl (r : job_row) : newer r r = false.
Proof.
  destruct (newer r r) eqn:H; [|reflexivity].
  pose proof (newer_asym r r H). congruence.
Qed.

Lemma newer_through (r x y : job_row) :
  newer r x = true -> newer y x = false -> newer r y = true.
Proof.
  intros Hrx Hyx. apply newer_cases. apply newer_cases in Hrx.
  assert (Hn : ~ newer y x = true) by congruence.
  rewrite newer_cases in Hn.
  destruct (Job.published_at (cols r)) as [a|], (Job.published_at (cols x)) as [b|],
           (Job.published_at (cols y)) as [c|]; try tauto; lia.
Qed.

Lemma newer_total (a b : job_row) :
  id a <> id b -> newer a b = false -> newer b a = true.
Proof.
  intros Hid Hab. apply newer_cases.
  assert (Hn : ~ newer a b = true) by congruence.
  rewrite newer_cases in Hn.
  destruct (Job.published_at (cols a)) as [x|], (Job.published_at (cols b)) as [y|];
    try tauto; lia.
Qed.

Lemma insert_sorted_first (r : job_row) (l : list job_row) :
  (forall y, In y l -> newer r y = true) -> insert_sorted r l = r :: l.
Proof.
  destruct l as [|x l]; [reflexivity|]. intros H. cbn [insert_sorted].
  now rewrite (H x (or_introl eq_refl)).
Qed.

Lemma filter_insert_sorted (f : job_row -> bool) (r : job_row) (l : list job_row) :
  StronglySorted not_after l ->
  filter f (insert_sorted r l) =
  if f r then insert_sorted r (filter f l) else filter f l.
Proof.
  induction l as [|x l IH]; intros Hs.
  - cbn. now destruct (f r).
  - inversion Hs as [|? ? Hl Hx]; subst. cbn [insert_sorted].
    destruct (newer r x) eqn:Hrx.
    + cbn [filter]. destruct (f r) eqn:Hfr; [|reflexivity].
      symmetry. apply insert_sorted_first.
      intros y Hy. destruct (f x) eqn:Hfx.
      * destruct Hy as [<- | Hy]; [exact Hrx|].
        apply filter_In in Hy. destruct Hy as [Hy _].
        rewrite Forall_forall in Hx. exact (newer_through r x y Hrx (Hx y Hy)).
      * apply filter_In in Hy. destruct Hy as [Hy _].
        rewrite Forall_forall in Hx. exact (newer_through r x y Hrx (Hx y Hy)).
    + cbn [filter]. rewrite (IH Hl).
      destruct (f x) eqn:Hfx, (f r) eqn:Hfr; try reflexivity.
      cbn [insert_sorted]. now rewrite Hrx.
Qed.

Lemma by_recency_filter (f : job_row -> bool) (rows : list job_row) :
  by_recency (filter f rows) = filter f (by_recency rows).
Proof.
  unfold by_recency. induction rows as [|r rows IH]; [reflexivity|].
  cbn [filter fold_right].
  rewrite filter_insert_sorted by apply by_recency_sorted.
  destruct (f r); [cbn [fold_right]; now rewrite IH | exact IH].
Qed.

Lemma before_cursor_newer (r x : job_row) (p : Z) :
  Job.published_at (cols r) = Some p ->
  before_cursor p p (id r) x = dated x && newer r x.
Proof.
  intros Hp. unfold before_cursor, dated, newer. rewrite Hp.
  destruct (Job.published_at (cols x)) as [q|]; [|reflexivity].
  cbn [andb]. now rewrite (Z.eqb_sym q p).
Qed.

(** The rows after the cursor of [r]: the dated rows that follow [r] in the
    listing. *)
Lemma rows_after_cursor (db : DB) (pre post : list job_row) (r : job_row) (p : Z) :
  NoDup (map id (jobs db)) ->
  by_recency (jobs db) = pre ++ r :: post ->
  Job.published_at (cols r) = Some p ->
  by_recency (filter (before_cursor p p (id r)) (jobs db)) = filter dated post.
Proof.
  intros Hnd HL Hp. rewrite by_recency_filter, HL.
  pose proof (by_recency_sorted (jobs db)) as Hs. rewrite HL in Hs.
  assert (Hnd' : NoDup (map id (pre ++ r :: post))).
  { rewrite <- HL. eapply Permutation_NoDup; [|exact Hnd].
    apply Permutation_map, by_recency_perm. }
  rewrite filter_app. cbn [filter].
  rewrite filter_none.
  2:{ intros x Hx. rewrite (before_cursor_newer r x p Hp).
      assert (Hn : newer r x = false).
      { apply (sorted_split _ _ Hs x r Hx). now left. }
      rewrite Hn. apply andb_false_r. }
  rewrite (before_cursor_newer r r p Hp), newer_irrefl, andb_false_r. cbn [app].
  apply filter_ext_in. intros x Hx. rewrite (before_cursor_newer r x p Hp).
  assert (Hn : newer r x = true).
  { apply newer_total.
    - rewrite map_app in Hnd'. cbn [map] in Hnd'.
      apply NoDup_remove_2 in Hnd'. intros Heq. apply Hnd'.
      apply in_or_app. right. rewrite <- Heq. now apply in_map.
    - change (not_after r x).
      assert (Hs' : StronglySorted not_after ((pre ++ [r]) ++ post)).
      { now rewrite <- app_assoc. }
      apply (sorted_split _ _ Hs' r x); [|exact Hx].
      apply in_or_app. right. now left. }
  rewrite Hn. apply andb_true_r.
Qed.

(** *** Reading a cursor back *)

Lemma uint_digits (d : Decimal.uint) :
  forallb is_digit (chars (NilEmpty.string_of_uint d)) = true.
Proof. induction d; cbn; auto. Qed.

Lemma Z_to_string_digits (z : Z) :
  (0 <= z)%Z -> forallb is_digit (chars (Z_to_string z)) = true.
Proof.
  intros Hz. unfold Z_to_string. destruct z as [|p|p]; [reflexivity | | lia].
  cbn [Z.to_int NilZero.string_of_int]. unfold NilZero.string_of_uint.
  destruct (Pos.to_uint p); try reflexivity; apply uint_digits.
Qed.

Lemma digits_no_dash (s : string) :
  forallb is_digit (chars s) = true ->
  forallb (fun c => negb (Ascii.eqb "-" c)) (chars s) = true.
Proof.
  intros H. rewrite forallb_forall in *. intros c Hc. specialize (H c Hc).
  destruct (Ascii.eqb_spec "-"%char c) as [<- | _]; [discriminate H | reflexivity].
Qed.

Lemma split_go_dash_piece (t : string) :
  forall (R : string) (cur : list ascii),
    forallb (fun c => negb (Ascii.eqb "-" c)) (chars t) = true ->
    JS.split_go "-" (t +:+ R) cur 0 = JS.split_go "-" R (rev (chars t) ++ cur) 0.
Proof.
  induction t as [|c t IH]; intros R cur Ht; [reflexivity|].
  rewrite chars_cons in Ht. cbn [forallb] in Ht. apply andb_true_iff in Ht.
  destruct Ht as [Hc Ht]. apply negb_true_iff in Hc.
  change (String c t +:+ R) with (String c (t +:+ R)).
  cbn [JS.split_go startsWith].
  rewrite Hc. cbn [andb]. rewrite (IH R (c :: cur) Ht).
  rewrite chars_cons. cbn [rev]. now rewrite <- app_assoc.
Qed.

Lemma split_cursor (a b : string) :
  forallb (fun c => negb (Ascii.eqb "-" c)) (chars a) = true ->
  forallb (fun c => negb (Ascii.eqb "-" c)) (chars b) = true ->
  JS.split "-" (a +:+ "-" +:+ b) = [a; b].
Proof.
  intros Ha Hb. unfold JS.split.
  rewrite split_go_dash_piece by exact Ha.
  change ("-" +:+ b) with (String "-" b).
  cbn [JS.split_go startsWith Ascii.eqb Bool.eqb andb String.length Nat.sub].
  rewrite app_nil_r, rev_involutive, str_chars.
  rewrite <- (append_empty_r b) at 1.
  rewrite split_go_dash_piece by exact Hb. cbn [JS.split_go].
  now rewrite app_nil_r, rev_involutive, str_chars.
Qed.

Lemma number_eqb_eq (a b : number) : number_eqb a b = true -> a = b.
Proof.
  destruct a, b; cbn; try discriminate; [reflexivity|].
  intros H. apply Z.eqb_eq in H. now subst.
Qed.

Lemma truthy_append (a b : string) : truthy b = true -> truthy (a +:+ b) = true.
Proof. destruct a; [trivial | reflexivity]. Qed.

(** The page a readable row's cursor leads to. *)
Lemma home_at_cursor (db : DB) (pre post : list job_row) (r : job_row) :
  NoDup (map id (jobs db)) ->
  by_recency (jobs db) = pre ++ r :: post ->
  readable Number r = true ->
  home Number (cursor_of r) db =
  Listing (firstn pageSize (filter dated post))
          (nextCursor (firstn pageSize (filter dated post))).
Proof.
  intros Hnd HL Hr. unfold readable in Hr.
  destruct (Job.published_at (cols r)) as [p|] eqn:Hp; [|discriminate].
  repeat (apply andb_true_iff in Hr; destruct Hr as [Hr ?]).
  apply Z.ltb_lt in Hr.
  match goal with H : (0 <? id r)%Z = true |- _ => apply Z.ltb_lt in H; rename H into Hid end.
  repeat match goal with H : number_eqb _ _ = true |- _ => apply number_eqb_eq in H end.
  unfold home, cursor_of. rewrite Hp. cbn [show_column].
  rewrite truthy_append by reflexivity. cbn [negb].
  rewrite split_cursor by (apply digits_no_dash, Z_to_string_digits; lia).
  cbn [map].
  match goal with H : Number (Z_to_string p) = _ |- _ => rewrite H end.
  match goal with H : Number (Z_to_string (id r)) = _ |- _ => rewrite H end.
  cbn [falsy].
  destruct (Z.eqb_spec p 0); [lia|]. destruct (Z.eqb_spec (id r) 0); [lia|]. cbn [orb].
  unfold stmtPageCursor. now rewrite (rows_after_cursor db pre post r p Hnd HL Hp).
Qed.

Lemma filter_dated_readable (l : list job_row) :
  forallb (readable Number) l = true -> filter dated l = l.
Proof.
  intros H. apply filter_all. intros x Hx. rewrite forallb_forall in H.
  specialize (H x Hx). unfold readable, dated in *.
  now destruct (Job.published_at (cols x)).
Qed.

Lemma nth_error_last {A} (l : list A) (x : A) :
  nth_error (l ++ [x]) (List.length (l ++ [x]) - 1) = Some x.
Proof.
  rewrite length_app. cbn [List.length].
  replace (List.length l + 1 - 1) with (List.length l) by lia.
  rewrite nth_error_app2 by lia. now rewrite Nat.sub_diag.
Qed.

Lemma pages_from (db : DB) :
  NoDup (map id (jobs db)) ->
  forallb (readable Number) (jobs db) = true ->
  forall fuel pre post cursor,
    by_recency (jobs db) = pre ++ post ->
    (pre = [] /\ cursor = "" \/
     exists pre' r, pre = pre' ++ [r] /\ cursor = cursor_of r) ->
    List.length post < fuel * pageSize ->
    pages Number fuel cursor db = Some post.
Proof.
  intros Hnd Hall.
  assert (Hread : forall x, In x (by_recency (jobs db)) -> readable Number x = true).
  { intros x Hx. rewrite forallb_forall in Hall. apply Hall.
    exact (Permutation_in _ (Permutation_sym (by_recency_perm (jobs db))) Hx). }
  induction fuel as [|fuel IH]; intros pre post cursor HL Hc Hlen; [cbn in Hlen; lia|].
  assert (Hpost : forallb (readable Number) post = true).
  { apply forallb_forall. intros x Hx. apply Hread. rewrite HL. apply in_or_app. now right. }
  assert (Hhome : home Number cursor db =
                  Listing (firstn pageSize post) (nextCursor (firstn pageSize post))).
  { destruct Hc as [[-> ->] | (pre' & r & -> & ->)].
    - unfold home. cbn [truthy negb]. unfold stmtPageFirst. now rewrite HL.
    - rewrite <- app_assoc in HL. cbn [app] in HL.
      rewrite (home_at_cursor db pre' post r Hnd HL).
      + now rewrite (filter_dated_readable post Hpost).
      + apply Hread. rewrite HL. apply in_or_app. right. now left. }
  cbn [pages]. rewrite Hhome. unfold nextCursor.
  destruct (Nat.eqb_spec (List.length (firstn pageSize post)) pageSize) as [Hfull | Hshort].
  - assert (Hge : pageSize <= List.length post).
    { rewrite length_firstn in Hfull. lia. }
    destruct (exists_last (l := firstn pageSize post)) as (body & r & Hrows).
    { intros Hnil. rewrite Hnil in Hfull. discriminate. }
    assert (Hnth : nth_error (firstn pageSize post)
                     (List.length (firstn pageSize post) - 1) = Some r).
    { rewrite Hrows. apply nth_error_last. }
    rewrite Hnth. cbn [option_map].
    rewrite (IH (pre ++ firstn pageSize post) (skipn pageSize post) (cursor_of r)).
    + cbn [option_map]. now rewrite firstn_skipn.
    + now rewrite <- app_assoc, firstn_skipn.
    + right. exists (pre ++ body), r. split; [|reflexivity].
      now rewrite Hrows, app_assoc.
    + rewrite length_skipn. unfold pageSize in *. lia.
  - rewrite length_firstn in Hshort.
    rewrite firstn_all2 by (unfold pageSize in *; lia). reflexivity.
Qed.

(** X19 -- The pages of the home listing.  When the ids of the stored jobs
    are unique and every job has a date and an id that its cursor gives
    back, a visitor who starts at the home page and follows the next links
    is shown every job exactly once, in the order [published_at DESC, id
    DESC]. *)
Theorem pages_list_every_job (db : DB) :
  NoDup (map id (jobs db)) ->
  forallb (readable Number) (jobs db) = true ->
  pages Number (S (List.length (jobs db))) "" db = Some (by_recency (jobs db)).
Proof.
  intros Hnd Hall.
  apply (pages_from db Hnd Hall (S (List.length (jobs db))) [] (by_recency (jobs db)) "").
  - reflexivity.
  - now left.
  - rewrite <- (Permutation_length (by_recency_perm (jobs db))). unfold pageSize. lia.
Qed.

(** X20 -- A job without a date ends the listing.  The cursor made of a row
    whose [published_at] is NULL or zero is refused with status 400, since
    [Number] reads its first part as NaN or zero. *)
Theorem undated_cursor_is_refused (db : DB) (r : job_row) :
  Number "null" = NaN ->
  Number "0" = Num 0 ->
  Job.published_at (cols r) = None \/ Job.published_at (cols r) = Some 0%Z ->
  (0 <= id r)%Z ->
  home Number (cursor_of r) db = Invalid_cursor.
Proof.
  intros Hnull Hzero Hp Hid. unfold home, cursor_of.
  rewrite truthy_append by reflexivity. cbn [negb].
  destruct Hp as [-> | ->]; cbn [show_column].
  - rewrite split_cursor; [|reflexivity | now apply digits_no_dash, Z_to_string_digits].
    cbn [map]. rewrite Hnull. reflexivity.
  - change (Z_to_string 0) with "0".
    rewrite split_cursor; [|reflexivity | now apply digits_no_dash, Z_to_string_digits].
    cbn [map]. rewrite Hzero. reflexivity.
Qed.

End PageFacts.

(* ====================================================================== *)
(** ** Instances of the further properties *)
(* ====================================================================== *)

Lemma distinct_NoDup (l : list Z) : distinct l = true -> NoDup l.
Proof.
  induction l as [|x l IH]; cbn; intros H; constructor.
  - apply andb_true_iff in H. destruct H as [H _]. apply negb_true_iff in H.
    intros Hin.
    assert (existsb (Z.eqb x) l = true).
    { apply existsb_exists. exists x. split; [exact Hin | apply Z.eqb_refl]. }
    congruence.
  - apply andb_true_iff in H. now apply IH.
Qed.

(** Witness of [run_keeps_constraints]: the first run over an empty store. *)
Lemma run_keeps_constraints_witness :
  exists db',
    @processFeed Demo.offline Demo.quiet two_drivers empty_db = Ok db' /\ constraints db'.
Proof.
  apply (@run_keeps_constraints Demo.offline Demo.quiet two_drivers empty_db).
  unfold constraints. simpl. repeat split; constructor.
Defined.



(** Witness of [tags_csv_round_trip]. *)
Lemma tags_csv_round_trip_witness :
  filter truthy (JS.split ", " (join ", " ["motorista"; "full-time"; "remote"])) =
  ["motorista"; "full-time"; "remote"].
Proof.
  apply (tags_csv_round_trip ["motorista"; "full-time"; "remote"]).
  repeat constructor; discriminate.
Defined.

(** Witness of [stored_job_is_tagged]: the first job of an empty store. *)
Lemma stored_job_is_tagged_witness :
  exists i,
    stmtHasGuid (Raw.guid Demo.first_posting)
      (@insert_job Demo.offline empty_db
         (@normalized Demo.offline Demo.first_posting Demo.plain_rewrite)) = Some i /\
    jobs (@insert_job Demo.offline empty_db
            (@normalized Demo.offline Demo.first_posting Demo.plain_rewrite)) =
    jobs empty_db ++ [mkRow i (@normalized Demo.offline Demo.first_posting Demo.plain_rewrite)] /\
    forall t, In t (tags Demo.plain_rewrite) ->
      @linked_or_clash Demo.offline i t
        (@insert_job Demo.offline empty_db
           (@normalized Demo.offline Demo.first_posting Demo.plain_rewrite)).
Proof.
  apply (@stored_job_is_tagged Demo.offline empty_db Demo.first_posting Demo.plain_rewrite).
  - reflexivity.
  - repeat constructor; discriminate.
Defined.

(** Witness of [descriptions_plain_without_ai]: an API key and a service
    that refuses every connection. *)
Lemma descriptions_plain_without_ai_witness :
  exists db' added,
    @ingest Demo.standard Demo.quiet two_drivers empty_db = Ok db' /\
    jobs db' = jobs empty_db ++ added /\
    Forall (fun r => only_plain_tags (chars (Job.description_html (cols r))) = true) added.
Proof.
  apply (@descriptions_plain_without_ai Demo.standard Demo.quiet two_drivers empty_db).
  right. intros i. exists "Error: connect ECONNREFUSED". reflexivity.
Defined.



(** Witness of [canonical_absolute]. *)
Lemma canonical_absolute_witness :
  is_absolute (@canonical Demo.standard "/job/motorista-ce-acme") = true /\
  (is_absolute "/job/motorista-ce-acme" = true ->
   @canonical Demo.standard "/job/motorista-ce-acme" = "/job/motorista-ce-acme") /\
  @canonical Demo.standard (@canonical Demo.standard "/job/motorista-ce-acme") =
  @canonical Demo.standard "/job/motorista-ce-acme".
Proof.
  apply (@canonical_absolute Demo.standard "/job/motorista-ce-acme").
  reflexivity.
Defined.

(** Witness of [pages_list_every_job]: three pages for 120 jobs. *)
Lemma pages_list_every_job_witness :
  pages digits_Number (S (List.length (jobs long_listing))) "" long_listing =
  Some (by_recency (jobs long_listing)).
Proof.
  apply (pages_list_every_job digits_Number long_listing).
  - apply distinct_NoDup. vm_compute. reflexivity.
  - vm_compute. reflexivity.
Defined.

(** Witness of [undated_cursor_is_refused]. *)
Lemma undated_cursor_is_refused_witness :
  home digits_Number (cursor_of undated_job) long_listing = Invalid_cursor.
Proof.
  apply (undated_cursor_is_refused digits_Number long_listing undated_job).
  - reflexivity.
  - reflexivity.
  - left. reflexivity.
  - vm_compute. discriminate.
Defined.

(* ====================================================================== *)
(** ** Further properties: parseMeta *)
(* ====================================================================== *)

Section MatcherFacts.























End MatcherFacts.

Section MetaFacts.
Context {E : Env}.












End MetaFacts.


(* ====================================================================== *)
(** ** Further properties: the tags of a profession without vocabulary *)
(* ====================================================================== *)

Section SignalFacts.
Context {E : Env}.








End SignalFacts.

(* ====================================================================== *)
(** ** Further properties: reading an item *)
(* ====================================================================== *)

Section ItemFacts.
Context {E : Env}.

Lemma parse_app (w : world) (db : DB) (a b : list sax_event) :
  forall tick st,
    parse w db tick (a ++ b) st = parse w db (tick + List.length a) b (parse w db tick a st).
Proof.
  induction a as [|e a IH]; intros tick st; cbn [app parse List.length].
  - now rewrite Nat.add_0_r.
  - rewrite IH. f_equal. lia.
Qed.

Lemma parse_child (w : world) (db : DB) (tick : nat) (f : string * string)
    (st : parser_state) (it : Item.t) :
  currentItem st = Some it ->
  is_item_tag (toLowerCase (fst f)) = false ->
  let st' := parse w db tick (child f) st in
  currentItem st' = Some (assign_field (toLowerCase (fst f)) (snd f) it) /\
  processed st' = processed st /\ matched st' = matched st /\
  skipped st' = skipped st /\ batch st' = batch st.
Proof.
  intros Hit Hf. unfold child. cbn [parse on_event].
  unfold on_closetag, on_text, on_opentag.
  cbn [currentItem currentTag currentText processed matched skipped batch append].
  rewrite Hf, Hit. cbn [currentItem processed matched skipped batch]. auto.
Qed.

Lemma parse_children (w : world) (db : DB) (fields : list (string * string)) :
  forall tick st it,
    currentItem st = Some it ->
    Forall (fun f => is_item_tag (toLowerCase (fst f)) = false) fields ->
    let st' := parse w db tick (List.concat (map child fields)) st in
    currentItem st' = Some (read_children fields it) /\
    processed st' = processed st /\ matched st' = matched st /\
    skipped st' = skipped st /\ batch st' = batch st.
Proof.
  induction fields as [|f fields IH]; intros tick st it Hit Hall; cbv zeta.
  - cbn. auto.
  - inversion Hall as [|? ? Hf Hrest]; subst.
    cbn [map List.concat]. rewrite parse_app.
    destruct (parse_child w db tick f st it Hit Hf) as (H1 & H2 & H3 & H4 & H5).
    destruct (IH (tick + List.length (child f)) _ _ H1 Hrest) as (G1 & G2 & G3 & G4 & G5).
    change (read_children (f :: fields) it)
      with (read_children fields (assign_field (toLowerCase (fst f)) (snd f) it)).
    repeat split; congruence.
Qed.

(** X24 -- Reading an item.  For an item whose children hold text only and
    none of which is itself an item, the parser assigns the children to the
    fields in order (names in any case, texts trimmed, the first non-empty
    guid kept, other children ignored) and, at the closing tag, counts the
    item; it is skipped when its guid (or link, or [job-N]) is stored or
    the profession filter rejects it, and pushed on the batch with the
    fields read otherwise. *)
Theorem flat_item_is_read (w : world) (db : DB) (tick : nat) (st : parser_state)
    (fields : list (string * string)) :
  Forall (fun f => is_item_tag (toLowerCase (fst f)) = false) fields ->
  let it := read_children fields (Item.mk "" "" "" "" "" (iso_now w tick)) in
  let guid := item_guid it (S (processed st)) in
  let admitted_now :=
    match stmtHasGuid guid db with
    | Some _ => false
    | None => matchesProfession (Item.title it) (Item.company it) (Item.description it)
    end in
  let st' := parse w db tick (flat_item fields) st in
  currentItem st' = None /\
  processed st' = S (processed st) /\
  matched st' = (if admitted_now then S (matched st) else matched st) /\
  skipped st' = (if admitted_now then skipped st else S (skipped st)) /\
  batch st' =
    (if admitted_now
     then batch st ++ [ Raw.mk (Item.title it) (Item.company it) (Item.description it) guid
                               FEED_HOST (Item.link it) (unixtime (Item.pubDate it)) ]
     else batch st).
Proof.
  intros Hall. cbv zeta. unfold flat_item.
  cbn [parse on_event]. rewrite parse_app.
  set (st0 := mkParser (Some (Item.mk "" "" "" "" "" (iso_now w tick))) (toLowerCase "item") ""
                (processed st) (matched st) (skipped st) (batch st)).
  change (on_opentag (iso_now w tick) "item" st) with st0.
  destruct (parse_children w db fields (S tick) st0 _ eq_refl Hall) as (H1 & H2 & H3 & H4 & H5).
  cbn [parse on_event]. unfold on_closetag. rewrite H1.
  change (is_item_tag (toLowerCase "item")) with true. cbv iota.
  set (it := read_children fields _) in *.
  change (assign_field (toLowerCase "item")
            (currentText (parse w db (S tick) (List.concat (map child fields)) st0)) it)
    with it.
  rewrite H2, H3, H4, H5. cbn [processed matched skipped batch st0].
  destruct (stmtHasGuid _ db); [cbn; auto|].
  destruct (matchesProfession _ _ _); cbn; auto.
Qed.

End ItemFacts.


(** Witness of [flat_item_is_read]: an item with a link and no guid. *)
Lemma flat_item_is_read_witness :
  batch (@parse Demo.offline Demo.quiet empty_db 0
           (flat_item [("TITLE", " Motorista CE "); ("link", "https://e.example/1");
                       ("salary", "1000")]) parser_init) =
  [ Raw.mk "Motorista CE" "" "" "https://e.example/1" "feed.example.com"
           "https://e.example/1" (Some 1704153600%Z) ].
Proof.
  apply (@flat_item_is_read Demo.offline Demo.quiet empty_db 0 parser_init
           [("TITLE", " Motorista CE "); ("link", "https://e.example/1"); ("salary", "1000")]).
  repeat constructor.
Defined.

(* ====================================================================== *)
(** ** Further properties: keys *)
(* ====================================================================== *)

Section KeyFacts.
Context {E : Env}.









(** *** Tags *)

Lemma stmtInsertTag_sound (n : string) (db : DB) :
  tags_sound db -> tags_sound (stmtInsertTag n (tagSlug n) db).
Proof.
  intros [Hlinks Hslugs]. unfold stmtInsertTag.
  destruct (existsb _ _); [split; assumption|].
  unfold tags_sound. cbn [tags_table job_tags]. split.
  - intros jt Hjt. destruct (Hlinks jt Hjt) as (t & Ht & Hid).
    exists t. split; [apply in_or_app; now left | exact Hid].
  - apply Forall_app. split; [exact Hslugs|]. now repeat constructor.
Qed.

Lemma stmtInsertJobTag_sound (j : Z) (t : tag_row) (db : DB) :
  In t (tags_table db) -> tags_sound db -> tags_sound (stmtInsertJobTag j (tag_id t) db).
Proof.
  intros Ht [Hlinks Hslugs]. unfold stmtInsertJobTag.
  destruct (existsb _ _); [split; assumption|].
  unfold tags_sound. cbn [tags_table job_tags]. split; [|exact Hslugs].
  intros jt Hjt. apply in_app_or in Hjt. destruct Hjt as [Hjt | [<- | []]]; [now apply Hlinks|].
  exists t. auto.
Qed.

Lemma upsert_tag_sound (jobId : Z) (db : DB) (n : string) :
  tags_sound db -> tags_sound (upsert_tag jobId db n).
Proof.
  intros H. unfold upsert_tag.
  pose proof (stmtInsertTag_sound n db H) as H1.
  destruct (stmtGetTagByName n _) as [t|] eqn:Hget; [|exact H1].
  apply stmtInsertJobTag_sound; [|exact H1].
  unfold stmtGetTagByName in Hget. apply find_some in Hget. tauto.
Qed.

Lemma insert_job_sound (db : DB) (job : Job.t) :
  tags_sound db -> tags_sound (insert_job db job).
Proof.
  intros H. unfold insert_job.
  assert (H1 : tags_sound (stmtInsertJob job db)).
  { unfold stmtInsertJob. destruct (_ || _); [exact H|]. exact H. }
  destruct (stmtHasGuid _ _) as [i|]; [|exact H1].
  unfold upsertTagsForJob. generalize (stmtInsertJob job db) H1.
  induction (filter truthy (JS.split ", " (Job.tags_csv job))) as [|n names IH];
    intros d Hd; [exact Hd|].
  cbn [fold_left]. apply IH. now apply upsert_tag_sound.
Qed.

Lemma insertBatch_sound (rows : list Job.t) :
  forall db, tags_sound db -> tags_sound (insertBatch rows db).
Proof.
  unfold insertBatch.
  induction rows as [|job rows IH]; intros db H; [exact H|].
  cbn [fold_left]. apply IH. now apply insert_job_sound.
Qed.

(** X26 -- The tag side of the links stays sound.  When every row of
    [job_tags] refers to a row of [tags] and every tag row carries the slug
    of its name, the same holds after a run: a run never removes a tag and
    links a job only to a tag it has just looked up. *)
Theorem tag_links_stay_sound (w : world) (events : list sax_event) (db : DB) :
  tags_sound db ->
  exists db', processFeed w events db = Ok db' /\ tags_sound db'.
Proof.
  intros H. destruct (ingest_spec w events db) as (rows & Hi & _).
  exists (retention (insertBatch rows db)).
  split; [unfold processFeed; now rewrite Hi|].
  pose proof (insertBatch_sound rows db H) as [Hlinks Hslugs].
  destruct (retention_tables (insertBatch rows db)) as (Hjt & Htags & _).
  unfold tags_sound. rewrite Hjt, Htags. auto.
Qed.

End KeyFacts.


(** Witness of [tag_links_stay_sound]: the first run over an empty store. *)
Lemma tag_links_stay_sound_witness :
  exists db',
    @processFeed Demo.offline Demo.quiet two_drivers empty_db = Ok db' /\
    @tags_sound Demo.offline db'.
Proof.
  apply (@tag_links_stay_sound Demo.offline Demo.quiet two_drivers empty_db).
  split; [intros jt [] | constructor].
Defined.
